(** * rocket-solver: internal ballistics and grain geometry

    A shallow embedding of the numerical core of the repository: the
    Seidel chamber-pressure equation and the thrust-loss correlations of
    [functions/ib_functions.py], the Runge-Kutta step of
    [srm_solver/solvers/srm_internal_ballistics.py], the BATES segment of
    [rocketsolver/models/propulsion/grain/geometries/bates.py], the raster
    (fast-marching) segment of [machwave/models/propulsion/grain/fmm/_2d.py]
    and the contour helpers of [rocketsolver/services/math/geometric.py].

    Numbers.  A Python [float] is read as a real number: rounding and
    overflow are left out, every other rule of the language is kept.  A
    Python float division by zero raises [ZeroDivisionError]; a NumPy scalar
    division by zero yields [inf] or [nan]; a negative float raised to a
    fractional power yields a [complex].  The last two are values that are
    not real numbers: the embedding stops there with the outcome [NonReal]
    and follows the run no further.

    Scalars.  The functions of [functions/ib_functions.py] are annotated
    with [float] and are embedded on Python floats; where they only differ
    on NumPy scalars by what a zero divisor does, the statements keep to
    divisors that are not zero.  [CP_Seidel], which the simulation feeds
    from NumPy arrays, is embedded a second time on NumPy scalars
    ([CP_Seidel_numpy]). *)

From Stdlib Require Import Reals Lra Lia List ZArith Bool.
Import ListNotations.
Open Scope R_scope.

(** ** Python runtime conventions *)

Module Py.

Inductive exn : Set :=
| ZeroDivisionError
| ValueError
| IndexError
| UnboundLocalError
| GrainGeometryError.

(** The result of running a piece of Python: a value, a raised exception,
    or a value outside the real numbers (complex, [inf], [nan]). *)
Inductive outcome (A : Type) : Type :=
| Ok (a : A)
| Raise (e : exn)
| NonReal.

Arguments Ok {A} a.
Arguments Raise {A} e.
Arguments NonReal {A}.

Definition bind {A B : Type} (m : outcome A) (f : A -> outcome B) : outcome B :=
  match m with
  | Ok a => f a
  | Raise e => Raise e
  | NonReal => NonReal
  end.

Notation "x <- m ;; k" := (bind m (fun x => k))
  (at level 61, m at next level, right associativity).

(** [x / y] on Python floats. *)
Definition py_div (x y : R) : outcome R :=
  if Req_dec_T y 0 then Raise ZeroDivisionError else Ok (x / y).

(** [x / y] where an operand is a NumPy scalar: no exception, [inf] or
    [nan] when the divisor is zero. *)
Definition np_div (x y : R) : outcome R :=
  if Req_dec_T y 0 then NonReal else Ok (x / y).

(** [x ** y] on Python floats: [0.0 ** y] raises for negative [y]; a
    negative base with an exponent that is not a whole number gives a
    complex number. *)
Definition py_pow (x y : R) : outcome R :=
  if Rlt_dec 0 x then Ok (Rpower x y)
  else if Req_dec_T x 0 then
    (if Rlt_dec y 0 then Raise ZeroDivisionError
     else if Req_dec_T y 0 then Ok 1 else Ok 0)
  else if Req_dec_T y (IZR (Int_part y)) then Ok (powerRZ x (Int_part y))
  else NonReal.

(** [x ** y] where an operand is a NumPy scalar: no exception, [inf] for a
    zero base with a negative exponent, [nan] for a negative base with an
    exponent that is not a whole number. *)
Definition np_pow (x y : R) : outcome R :=
  if Rlt_dec 0 x then Ok (Rpower x y)
  else if Req_dec_T x 0 then
    (if Rlt_dec y 0 then NonReal
     else if Req_dec_T y 0 then Ok 1 else Ok 0)
  else if Req_dec_T y (IZR (Int_part y)) then Ok (powerRZ x (Int_part y))
  else NonReal.

(** [x ** n] for an [int] literal [n]. *)
Definition py_pow_int (x : R) (n : Z) : outcome R :=
  if Req_dec_T x 0 then
    (if (n <? 0)%Z then Raise ZeroDivisionError else Ok (powerRZ x n))
  else Ok (powerRZ x n).

(** [l[i]] for [i >= 0]. *)
Definition py_index {A : Type} (l : list A) (i : nat) : outcome A :=
  match nth_error l i with
  | Some v => Ok v
  | None => Raise IndexError
  end.

(** A local variable read before any assignment. *)
Definition py_local {A : Type} (v : option A) : outcome A :=
  match v with
  | Some a => Ok a
  | None => Raise UnboundLocalError
  end.

(** A loop that computes one value per element and stops at the first
    exception. *)
Fixpoint mapM {A B : Type} (f : A -> outcome B) (l : list A) : outcome (list B) :=
  match l with
  | [] => Ok []
  | a :: rest =>
      b <- f a ;;
      bs <- mapM f rest ;;
      Ok (b :: bs)
  end.

(** [int(x)]: truncation towards zero. *)
Definition py_int (x : R) : Z :=
  if Rle_dec 0 x then Int_part x else (- Int_part (- x))%Z.

(** [l[-1]]. *)
Definition py_last {A : Type} (l : list A) : outcome A :=
  match l with
  | [] => Raise IndexError
  | x :: _ => Ok (last l x)
  end.

End Py.

Import Py.

(** ** NumPy operations used by the sources *)

Module Np.

Definition sum (l : list R) : R := fold_right Rplus 0 l.

(** [np.linspace(start, stop, num)]. *)
Definition linspace (start stop : R) (num : nat) : list R :=
  map (fun i => start + INR i * ((stop - start) / INR (num - 1))) (seq 0 num).

(** [np.roll(a, 1)] along the axis of the points: the last one comes first. *)
Definition roll1 {A : Type} (l : list A) : list A :=
  match l with
  | [] => []
  | x :: _ => last l x :: removelast l
  end.

(** [a[mask]] for a boolean mask of the same length. *)
Definition select {A : Type} (a : list A) (mask : list bool) : list A :=
  map fst (filter snd (combine a mask)).

(** [np.linalg.norm] of a vector with two components. *)
Definition norm2 (v : R * R) : R := sqrt (fst v * fst v + snd v * snd v).

Definition sub2 (p q : R * R) : R * R := (fst p - fst q, snd p - snd q).

(** [np.amax] of a two-dimensional array; an empty array raises. *)
Definition amax (a : list (list R)) : outcome R :=
  match concat a with
  | [] => Raise ValueError
  | x :: xs => Ok (fold_left Rmax xs x)
  end.

(** [np.where(mask)] on a two-dimensional boolean array: the row and the
    column index of every true cell, in row-major order. *)
Definition where_row (r : nat) (row : list bool) : list (nat * nat) :=
  map (fun c => (r, c)) (filter (fun c => nth c row false) (seq 0 (length row))).

Fixpoint where_from (r : nat) (mask : list (list bool)) : list (nat * nat) :=
  match mask with
  | [] => []
  | row :: rest => where_row r row ++ where_from (S r) rest
  end.

Definition where2 (mask : list (list bool)) : list nat * list nat :=
  let cells := where_from 0 mask in (map fst cells, map snd cells).

(** [np.mean] of a non-empty array. *)
Definition mean (l : list R) : R := sum l / INR (length l).

(** [np.count_nonzero] of a two-dimensional boolean array. *)
Definition count_nonzero (mask : list (list bool)) : nat :=
  length (filter (fun b : bool => b) (concat mask)).

Definition eqb (x y : R) : bool := if Req_dec_T x y then true else false.
Definition ltb (x y : R) : bool := if Rlt_dec x y then true else false.

(** [np.sqrt] of a scalar: [nan] for a negative argument. *)
Definition sqrt (x : R) : outcome R :=
  if Rle_dec 0 x then Ok (R_sqrt.sqrt x) else NonReal.

(** [np.amin] and [np.max] of a one-dimensional array; an empty array
    raises. *)
Definition amin (a : list R) : outcome R :=
  match a with
  | [] => Raise ValueError
  | x :: xs => Ok (fold_left Rmin xs x)
  end.

Definition max (a : list R) : outcome R :=
  match a with
  | [] => Raise ValueError
  | x :: xs => Ok (fold_left Rmax xs x)
  end.

(** [np.argmax] of a one-dimensional array: the first index of the
    largest entry. *)
Fixpoint argmax_from (best : R) (best_index next_index : nat) (a : list R) : nat :=
  match a with
  | [] => best_index
  | x :: xs =>
      if Rlt_dec best x then argmax_from x next_index (S next_index) xs
      else argmax_from best best_index (S next_index) xs
  end.

Definition argmax (a : list R) : outcome nat :=
  match a with
  | [] => Raise ValueError
  | x :: xs => Ok (argmax_from x 0 1 xs)
  end.

(** [np.min(np.vstack((a, b, c)), axis=0)] for three arrays of one length. *)
Definition min3 (a b c : list R) : list R :=
  map (fun abc => Rmin (Rmin (fst (fst abc)) (snd (fst abc))) (snd abc))
      (combine (combine a b) c).

End Np.

(** ** SciPy functions used by the sources *)

Module Scipy.

(** The points [(x, y)] in the order of their [x]: [interp1d] sorts its
    arrays unless told that they are sorted. *)
Fixpoint insert (p : R * R) (points : list (R * R)) : list (R * R) :=
  match points with
  | [] => [p]
  | q :: rest =>
      if Rle_dec (fst p) (fst q) then p :: points else q :: insert p rest
  end.

Definition sorted_points (x y : list R) : list (R * R) :=
  fold_right insert [] (combine x y).

(** Linear interpolation between sorted points, for an argument within
    their range ([np.interp]). *)
Fixpoint interp (points : list (R * R)) (x_new : R) : outcome R :=
  match points with
  | [] => Raise ValueError
  | p :: rest =>
      match rest with
      | [] => Ok (snd p)
      | q :: _ =>
          if Rle_dec x_new (fst q) then
            slope <- np_div (snd q - snd p) (fst q - fst p) ;;
            Ok (snd p + slope * (x_new - fst p))
          else interp rest x_new
      end
  end.

(** [scipy.interpolate.interp1d(x, y)] with its defaults: linear, the two
    arrays of one length and not empty, and a function that raises
    [ValueError] for an argument below or above the range of [x]
    ([bounds_error] is on unless a fill value asks for extrapolation). *)
Definition interp1d (x y : list R) : outcome (R -> outcome R) :=
  if Nat.eqb (length x) (length y) then
    match sorted_points x y with
    | [] => Raise ValueError
    | p :: rest =>
        Ok (fun x_new =>
              if Rlt_dec x_new (fst p) then Raise ValueError
              else if Rlt_dec (fst (last rest p)) x_new then Raise ValueError
              else interp (p :: rest) x_new)
    end
  else Raise ValueError.

End Scipy.

(** ** functions/ib_functions.py *)

Module IbFunctions.

(** [circle_area]: [np.pi * 0.25 * diameter ** 2]; a power with the [int]
    literal 2 is total. *)
Definition circle_area (diameter : R) : R := PI * 0.25 * diameter ^ 2.

(** [CP_Seidel] on Python floats, the type its signature names.  The gas
    constant, [R] in the source, is [Rg] here. *)
Definition CP_Seidel (P0 Pe Ab V0 At pp k Rg T0 r : R) : outcome R :=
  b <- py_div 2 (k + 1) ;;
  e <- py_div k (k - 1) ;;
  P_critical_ratio <- py_pow b e ;;
  ratio <- py_div Pe P0 ;;
  H <- (if Rle_dec ratio P_critical_ratio then
          a <- py_div k (k + 1) ;;
          sa <- py_pow a 0.5 ;;
          b' <- py_div 2 (k + 1) ;;
          e' <- py_div 1 (k - 1) ;;
          c <- py_pow b' e' ;;
          Ok (sa * c)
        else
          r1 <- py_div Pe P0 ;;
          e1 <- py_div 1 k ;;
          a <- py_pow r1 e1 ;;
          c <- py_div k (k - 1) ;;
          r2 <- py_div Pe P0 ;;
          e2 <- py_div (k - 1) k ;;
          p <- py_pow r2 e2 ;;
          s <- py_pow (c * (1 - p)) 0.5 ;;
          Ok (a * s)) ;;
  s <- py_pow (2 * Rg * T0) 0.5 ;;
  py_div (Rg * T0 * Ab * pp * r - P0 * At * H * s) V0.

(** [CP_Seidel] on NumPy scalars ([np.float64]), which the arrays of
    [chamber_volume] and of the pressure history hand it: the same lines,
    with the division and the power of NumPy, which warn and give [inf] or
    [nan] where those of Python raise.  A comparison with [nan] is false
    and no later operation on [inf] or [nan] raises, so a run that leaves
    the real numbers ends with a float all the same. *)
Definition CP_Seidel_numpy (P0 Pe Ab V0 At pp k Rg T0 r : R) : outcome R :=
  b <- np_div 2 (k + 1) ;;
  e <- np_div k (k - 1) ;;
  P_critical_ratio <- np_pow b e ;;
  ratio <- np_div Pe P0 ;;
  H <- (if Rle_dec ratio P_critical_ratio then
          a <- np_div k (k + 1) ;;
          sa <- np_pow a 0.5 ;;
          b' <- np_div 2 (k + 1) ;;
          e' <- np_div 1 (k - 1) ;;
          c <- np_pow b' e' ;;
          Ok (sa * c)
        else
          r1 <- np_div Pe P0 ;;
          e1 <- np_div 1 k ;;
          a <- np_pow r1 e1 ;;
          c <- np_div k (k - 1) ;;
          r2 <- np_div Pe P0 ;;
          e2 <- np_div (k - 1) k ;;
          p <- np_pow r2 e2 ;;
          s <- np_pow (c * (1 - p)) 0.5 ;;
          Ok (a * s)) ;;
  s <- np_pow (2 * Rg * T0) 0.5 ;;
  np_div (Rg * T0 * Ab * pp * r - P0 * At * H * s) V0.

(** *** The legacy [BATES] class *)

Record BATES : Type := {
  wr : nat;
  N : nat;
  D_grain : R;
  D_core : list R;
  L_grain : list R
}.

(** One turn of the loop of [BATES.web]: row [j] of [w].  The row keeps the
    zeros of [np.zeros] when neither test holds. *)
Definition web_row (b : BATES) (j : nat) : outcome (list R) :=
  dc <- py_index (D_core b) j ;;
  lg <- py_index (L_grain b) j ;;
  if Rgt_dec (0.5 * (D_grain b - dc)) lg then
    Ok (Np.linspace 0 (lg / 2) (wr b))
  else if Rle_dec (0.5 * (D_grain b - dc)) lg then
    Ok (Np.linspace 0 (0.5 * (D_grain b - dc)) (wr b))
  else Ok (repeat 0 (wr b)).

(** [BATES.web]. *)
Definition web (b : BATES) : outcome (list (list R)) :=
  mapM (web_row b) (seq 0 (N b)).

(** *** [operational_correction_factors] *)

(** The locals [C3], [C4], [C5], [C6]: unbound until a branch assigns them,
    and kept from one turn of the loop to the next. *)
Record locals : Type := {
  C3 : option R;
  C4 : option R;
  C5 : option R;
  C6 : option R
}.

Definition unbound : locals :=
  {| C3 := None; C4 := None; C5 := None; C6 := None |}.

Definition assign4 (c4 c3 c5 c6 : R) : locals :=
  {| C3 := Some c3; C4 := Some c4; C5 := Some c5; C6 := Some c6 |}.

Definition assign_C4 (c4 : R) (st : locals) : locals :=
  {| C3 := C3 st; C4 := Some c4; C5 := C5 st; C6 := C6 st |}.

Section Losses.

Variables (P0 : list R) (Pe : R) (P0psi : list R).
Variables (Isp_frozen Isp_shifting : R) (E : list R) (Dt qsi : R).
Variables (critical_pressure_ratio C1 C2 : R) (V0 : list R) (M : R) (t : list R).

(** Lines 133-136: the kinetic loss at index [i]. *)
Definition kinetic_loss (i : nat) : outcome R :=
  psi <- py_index P0psi i ;;
  if Rge_dec psi 200 then
    q <- py_div Isp_frozen Isp_shifting ;;
    psi' <- py_index P0psi i ;;
    py_div (33.3 * 200 * q) psi'
  else Ok 0.

(** Lines 147-172: the choice of [C3], [C4], [C5], [C6] from the throat
    diameter and [C7[i]]. *)
Definition two_phase_constants (c7 : R) (st : locals) : outcome locals :=
  m <- py_div 1 M ;;
  if Rge_dec m 0.9 then
    if Rlt_dec (Dt / 0.0254) 1 then Ok (assign4 0.5 9 1 1)
    else if Rle_dec 1 (Dt / 0.0254) then
      if Rlt_dec (Dt / 0.0254) 2 then Ok (assign4 0.5 9 1 0.8)
      else if Rge_dec (Dt / 0.0254) 2 then
        if Rlt_dec c7 4 then Ok (assign4 0.5 13.4 0.8 0.8)
        else if Rle_dec 4 c7 then
          if Rle_dec c7 8 then Ok (assign4 0.5 10.2 0.8 0.4)
          else if Rgt_dec c7 8 then Ok (assign4 0.5 7.58 0.8 0.33)
          else Ok (assign_C4 0.5 st)
        else if Rgt_dec c7 8 then Ok (assign4 0.5 7.58 0.8 0.33)
        else Ok (assign_C4 0.5 st)
      else Ok (assign_C4 0.5 st)
    else if Rge_dec (Dt / 0.0254) 2 then
      if Rlt_dec c7 4 then Ok (assign4 0.5 13.4 0.8 0.8)
      else if Rle_dec 4 c7 then
        if Rle_dec c7 8 then Ok (assign4 0.5 10.2 0.8 0.4)
        else if Rgt_dec c7 8 then Ok (assign4 0.5 7.58 0.8 0.33)
        else Ok (assign_C4 0.5 st)
      else if Rgt_dec c7 8 then Ok (assign4 0.5 7.58 0.8 0.33)
      else Ok (assign_C4 0.5 st)
    else Ok (assign_C4 0.5 st)
  else
    m' <- py_div 1 M ;;
    if Rlt_dec m' 0.9 then
      if Rlt_dec (Dt / 0.0245) 1 then Ok (assign4 1 44.5 0.8 0.8)
      else if Rle_dec 1 (Dt / 0.0254) then
        if Rlt_dec (Dt / 0.0254) 2 then Ok (assign4 1 30.4 0.8 0.4)
        else if Rge_dec (Dt / 0.0254) 2 then
          if Rlt_dec c7 4 then Ok (assign4 1 44.5 0.8 0.8)
          else if Rle_dec 4 c7 then
            if Rle_dec c7 8 then Ok (assign4 1 30.4 0.8 0.4)
            else if Rgt_dec c7 8 then Ok (assign4 1 25.2 0.8 0.33)
            else Ok (assign_C4 1 st)
          else if Rgt_dec c7 8 then Ok (assign4 1 25.2 0.8 0.33)
          else Ok (assign_C4 1 st)
        else Ok (assign_C4 1 st)
      else if Rge_dec (Dt / 0.0254) 2 then
        if Rlt_dec c7 4 then Ok (assign4 1 44.5 0.8 0.8)
        else if Rle_dec 4 c7 then
          if Rle_dec c7 8 then Ok (assign4 1 30.4 0.8 0.4)
          else if Rgt_dec c7 8 then Ok (assign4 1 25.2 0.8 0.33)
          else Ok (assign_C4 1 st)
        else if Rgt_dec c7 8 then Ok (assign4 1 25.2 0.8 0.33)
        else Ok (assign_C4 1 st)
      else Ok (assign_C4 1 st)
    else Ok st.

(** Lines 141-174: the boundary-layer and two-phase losses at index [i],
    below the critical pressure ratio.  Returns [n_tp[i]], [n_bl[i]] and
    the locals. *)
Definition below_critical_losses (i : nat) (st : locals) : outcome (R * R * locals) :=
  psi <- py_index P0psi i ;;
  psi08 <- py_pow psi 0.8 ;;
  ti <- py_index t i ;;
  d02 <- py_pow (Dt / 0.0254) 0.2 ;;
  q <- py_div (- C2 * psi08 * ti) d02 ;;
  let termC2 := 1 + 2 * exp q in
  ei <- py_index E i ;;
  e9 <- py_pow_int ei (-9) ;;
  let E_cf := 1 + 0.016 * e9 in
  a <- py_pow psi 0.8 ;;
  b <- py_pow (Dt / 0.0254) 0.2 ;;
  ab <- py_div a b ;;
  let n_bl := C1 * ab * termC2 * E_cf in
  a33 <- py_pow psi 0.33 ;;
  q33 <- py_pow qsi 0.33 ;;
  v1 <- py_index V0 1 ;;
  vq <- py_div v1 (circle_area Dt) ;;
  let c7 := 0.454 * a33 * q33 *
            (1 - exp (- 0.004 * vq / 0.0254) * (1 + 0.045 * Dt / 0.0254)) in
  st' <- two_phase_constants c7 st ;;
  c3 <- py_local (C3 st') ;;
  c4 <- py_local (C4 st') ;;
  c5 <- py_local (C5 st') ;;
  c7p <- py_pow c7 c5 ;;
  p15 <- py_pow psi 0.15 ;;
  ei' <- py_index E i ;;
  e08 <- py_pow ei' 0.08 ;;
  c6 <- py_local (C6 st') ;;
  d6 <- py_pow (Dt / 0.0254) c6 ;;
  frac <- np_div (qsi * c4 * c7p) (p15 * e08 * d6) ;;
  Ok (c3 * frac, n_bl, st').

(** The body of the loop at index [i]: [n_kin[i]], [n_tp[i]], [n_bl[i]]. *)
Definition correction_step (i : nat) (st : locals) : outcome (R * R * R * locals) :=
  n_kin <- kinetic_loss i ;;
  p0 <- py_index P0 i ;;
  ratio <- py_div Pe p0 ;;
  if Rle_dec ratio critical_pressure_ratio then
    r <- below_critical_losses i st ;;
    Ok (n_kin, fst (fst r), snd (fst r), snd r)
  else Ok (n_kin, 0, 0, st).

(** The loop over [range(index)]; each array gets one entry per index, in
    order. *)
Fixpoint correction_loop (indices : list nat) (st : locals)
  : outcome (list R * list R * list R) :=
  match indices with
  | [] => Ok ([], [], [])
  | i :: rest =>
      r <- correction_step i st ;;
      rs <- correction_loop rest (snd r) ;;
      Ok (fst (fst (fst r)) :: fst (fst rs),
          snd (fst (fst r)) :: snd (fst rs),
          snd (fst r) :: snd rs)
  end.

(** [operational_correction_factors]: returns [(n_kin, n_tp, n_bl)]. *)
Definition operational_correction_factors (index : nat)
  : outcome (list R * list R * list R) :=
  correction_loop (seq 0 index) unbound.

End Losses.

(** *** The other functions of the file *)

(** The three results of [getBurnProfile], the strings ['Regressive'],
    ['Progressive'] and ['Neutral']. *)
Inductive burn_profile : Set := Regressive | Progressive | Neutral.

(** [getBurnProfile], on a list of Python floats.  On NumPy scalars the
    one difference is a zero last entry, where the quotient is [inf] or
    [nan] and no [ZeroDivisionError] is raised. *)
Definition getBurnProfile (A_burn : list R) : outcome burn_profile :=
  first <- py_index A_burn 0 ;;
  final <- py_last A_burn ;;
  q <- py_div first final ;;
  if Rgt_dec q 1.02 then Ok Regressive
  else
    first' <- py_index A_burn 0 ;;
    final' <- py_last A_burn ;;
    q' <- py_div first' final' ;;
    if Rlt_dec q' 0.98 then Ok Progressive else Ok Neutral.

(** The loop of [BATES.minCoreDiamIndex]: the first index of the range at
    which the core diameter equals the minimum, if there is one. *)
Fixpoint first_minimal (D_core : list R) (D_core_min : R) (indices : list nat)
  : outcome (option nat) :=
  match indices with
  | [] => Ok None
  | j :: rest =>
      v <- py_index D_core j ;;
      if Req_dec_T v D_core_min then Ok (Some j)
      else first_minimal D_core D_core_min rest
  end.

(** [BATES.minCoreDiamIndex]; [D_core_min_index] is unbound when the loop
    never assigns it. *)
Definition minCoreDiamIndex (b : BATES) : outcome nat :=
  D_core_min <- Np.amin (D_core b) ;;
  D_core_min_index <- first_minimal (D_core b) D_core_min (seq 0 (N b)) ;;
  py_local D_core_min_index.

(** [BATES.burnArea]. *)
Definition burnArea (b : BATES) (x : R) (j : nat) : outcome R :=
  dc <- py_index (D_core b) j ;;
  lg <- py_index (L_grain b) j ;;
  dc' <- py_index (D_core b) j ;;
  Ok (PI * ((D_grain b ^ 2 - (dc + 2 * x) ^ 2) / 2 + (lg - 2 * x) * (dc' + 2 * x))).

(** [BATES.grainVolume]. *)
Definition grainVolume (b : BATES) (x : R) (j : nat) : outcome R :=
  dc <- py_index (D_core b) j ;;
  lg <- py_index (L_grain b) j ;;
  Ok (PI / 4 * ((D_grain b ^ 2 - (dc + 2 * x) ^ 2) * (lg - 2 * x))).

(** [BATES.optimalLength]: one entry per core diameter. *)
Definition optimalLength (b : BATES) : list R :=
  map (fun dc => 1e3 * 0.5 * (3 * D_grain b + dc)) (D_core b).

(** [chamber_volume]: [(V0, V_empty)], [V0] with one entry per entry of
    [V_prop]. *)
Definition chamber_volume (L_cc D_in : R) (V_prop : list R) : list R * R :=
  let V_empty := PI * L_cc * D_in ^ 2 / 4 in
  (map (fun v => V_empty - v) V_prop, V_empty).

(** [thrust_coefficient]. *)
Definition thrust_coefficient (P0 P_external k_ex n_cf : R) : outcome R :=
  Pr <- py_div P_external P0 ;;
  a <- py_div (2 * k_ex ^ 2) (k_ex - 1) ;;
  b <- py_div 2 (k_ex + 1) ;;
  e <- py_div (k_ex + 1) (k_ex - 1) ;;
  c <- py_pow b e ;;
  e' <- py_div (k_ex - 1) k_ex ;;
  p <- py_pow Pr e' ;;
  Cf_ideal <- Np.sqrt (a * c * (1 - p)) ;;
  Ok (Cf_ideal * n_cf).

(** [impulse]: [(I_total, I_sp)], on Python floats.  On NumPy scalars the
    one difference is a zero initial mass, where the specific impulse is
    [inf] or [nan] and no [ZeroDivisionError] is raised. *)
Definition impulse (F_avg : R) (t m_prop : list R) : outcome (R * R) :=
  t_end <- py_last t ;;
  let I_total := F_avg * t_end in
  m0 <- py_index m_prop 0 ;;
  I_sp <- py_div I_total (m0 * 9.81) ;;
  Ok (I_total, I_sp).

(** The body of the loop of [expansion_ratio]: [E[i]]. *)
Definition expansion_ratio_at (Pe : R) (P0 : list R) (k critical_pressure_ratio : R)
  (i : nat) : outcome R :=
  p0 <- py_index P0 i ;;
  ratio <- py_div Pe p0 ;;
  if Rle_dec ratio critical_pressure_ratio then
    p0' <- py_index P0 i ;;
    pressure_ratio <- py_div Pe p0' ;;
    e1 <- py_div 1 (k - 1) ;;
    a <- py_pow ((k + 1) / 2) e1 ;;
    e2 <- py_div 1 k ;;
    b <- py_pow pressure_ratio e2 ;;
    c <- py_div (k + 1) (k - 1) ;;
    e3 <- py_div (k - 1) k ;;
    p <- py_pow pressure_ratio e3 ;;
    s <- py_pow (c * (1 - p)) 0.5 ;;
    py_pow_int (a * b * s) (-1)
  else Ok 1.

(** [expansion_ratio]. *)
Definition expansion_ratio (Pe : R) (P0 : list R) (k : R) (index : nat)
  (critical_pressure_ratio : R) : outcome (list R) :=
  mapM (expansion_ratio_at Pe P0 k critical_pressure_ratio) (seq 0 index).

End IbFunctions.

(** ** srm_solver/solvers/srm_internal_ballistics.py *)

Module SrmSolver.

Section Solve.

(** [utils.odes.solve_cp_seidel], imported by the solver. *)
Variable solve_cp_seidel : R -> R -> R -> R -> R -> R -> R -> R -> R -> R -> outcome R.

(** [SRMInternalBallisticsSolver.solve]; the returned tuple is a list. *)
Definition solve (chamber_pressure external_pressure burn_area
  propellant_volume nozzle_area propellant_density k_mix_ch R_ch T_O
  burn_rate d_t : R) : outcome (list R) :=
  k_1 <- solve_cp_seidel chamber_pressure external_pressure burn_area
           propellant_volume nozzle_area propellant_density k_mix_ch R_ch
           T_O burn_rate ;;
  k_2 <- solve_cp_seidel (chamber_pressure + 0.5 * k_1 * d_t)
           external_pressure burn_area propellant_volume nozzle_area
           propellant_density k_mix_ch R_ch T_O burn_rate ;;
  k_3 <- solve_cp_seidel (chamber_pressure + 0.5 * k_2 * d_t)
           external_pressure burn_area propellant_volume nozzle_area
           propellant_density k_mix_ch R_ch T_O burn_rate ;;
  k_4 <- solve_cp_seidel (chamber_pressure + 0.5 * k_3 * d_t)
           external_pressure burn_area propellant_volume nozzle_area
           propellant_density k_mix_ch R_ch T_O burn_rate ;;
  Ok [chamber_pressure + (1 / 6) * (k_1 + 2 * (k_2 + k_3) + k_4) * d_t].

(** The classic fourth-order Runge-Kutta step, as the specification words
    it: the fourth evaluation is at the full-step trial state. *)
Definition classic_rk4_step (chamber_pressure external_pressure burn_area
  propellant_volume nozzle_area propellant_density k_mix_ch R_ch T_O
  burn_rate d_t : R) : outcome (list R) :=
  k_1 <- solve_cp_seidel chamber_pressure external_pressure burn_area
           propellant_volume nozzle_area propellant_density k_mix_ch R_ch
           T_O burn_rate ;;
  k_2 <- solve_cp_seidel (chamber_pressure + 0.5 * k_1 * d_t)
           external_pressure burn_area propellant_volume nozzle_area
           propellant_density k_mix_ch R_ch T_O burn_rate ;;
  k_3 <- solve_cp_seidel (chamber_pressure + 0.5 * k_2 * d_t)
           external_pressure burn_area propellant_volume nozzle_area
           propellant_density k_mix_ch R_ch T_O burn_rate ;;
  k_4 <- solve_cp_seidel (chamber_pressure + k_3 * d_t)
           external_pressure burn_area propellant_volume nozzle_area
           propellant_density k_mix_ch R_ch T_O burn_rate ;;
  Ok [chamber_pressure + (d_t / 6) * (k_1 + 2 * k_2 + 2 * k_3 + k_4)].

End Solve.

End SrmSolver.

(** ** rocketsolver/services/math/geometric.py *)

Module Geometric.

(** [get_circle_area]. *)
Definition get_circle_area (diameter : R) : R := PI * 0.25 * diameter ^ 2.

(** [get_cylinder_surface_area]. *)
Definition get_cylinder_surface_area (length diameter : R) : R :=
  PI * length * diameter.

(** The default of the parameter [tolerance] of [get_length]. *)
Definition default_tolerance : R := 3.0.

(** [lengths] in [get_length]: entry [j] is the distance from the point
    before point [j] (the last point, for the first one) to point [j]. *)
Definition segment_lengths (contour : list (R * R)) : list R :=
  map (fun pq => Np.norm2 (Np.sub2 (fst pq) (snd pq)))
      (combine contour (Np.roll1 contour)).

(** [radius] in [get_length]: the distance of each point to the centre of
    the map. *)
Definition radii (contour : list (R * R)) (map_size : Z) : list R :=
  map (fun p => Np.norm2 (Np.sub2 p (IZR map_size / 2, IZR map_size / 2)))
      contour.

(** [get_length]: a contour is the list of its points (row, column). *)
Definition get_length (contour : list (R * R)) (map_size : Z) (tolerance : R) : R :=
  let lengths := segment_lengths contour in
  let radius := radii contour map_size in
  let valid := map (fun rd => Np.ltb rd (IZR map_size / 2 - tolerance)) radius in
  Np.sum (Np.select lengths valid).

(** [get_trapezoidal_area]. *)
Definition get_trapezoidal_area (base_length tip_length height : R) : R :=
  (base_length + tip_length) * height / 2.

(** [get_cylinder_volume]. *)
Definition get_cylinder_volume (diameter length : R) : R :=
  PI * length * diameter ^ 2 / 4.

End Geometric.

(** ** rocketsolver/models/propulsion/grain/geometries/bates.py *)

Module Bates.

(** [BatesSegment]; [inhibited_ends] is the constant 0. *)
Record BatesSegment : Type := {
  outer_diameter : R;
  core_diameter : R;
  length : R;
  spacing : R
}.

(** Modelled from the spec: [GrainSegment2D.validate], the validation of
    the base class, which is not among the sources.  The data model asks
    for a positive outer diameter and a positive length; the test
    [test_bates_segment_geometry_validation] also expects a negative
    spacing to be refused. *)
Definition base_valid (s : BatesSegment) : bool :=
  Np.ltb 0 (outer_diameter s) && Np.ltb 0 (length s)
  && negb (Np.ltb (spacing s) 0).

(** [BatesSegment.validate]: a failed assertion becomes a
    [GrainGeometryError]. *)
Definition validate (s : BatesSegment) : outcome unit :=
  if base_valid s then
    if Rgt_dec (outer_diameter s) (core_diameter s) then
      if Rgt_dec (core_diameter s) 0 then Ok tt
      else Raise GrainGeometryError
    else Raise GrainGeometryError
  else Raise GrainGeometryError.

(** [BatesSegment.get_face_area]. *)
Definition get_face_area (s : BatesSegment) (web_distance : R) : R :=
  let core_diameter := core_diameter s + 2 * web_distance in
  PI * ((outer_diameter s ^ 2 - core_diameter ^ 2) / 4).

(** [BatesSegment.get_web_thickness]. *)
Definition get_web_thickness (s : BatesSegment) : R :=
  0.5 * (outer_diameter s - core_diameter s).

(** [BatesSegment.get_optimal_length]. *)
Definition get_optimal_length (s : BatesSegment) : R :=
  1e3 * 0.5 * (3 * outer_diameter s + core_diameter s).

End Bates.

(** ** machwave/models/propulsion/grain/fmm/_2d.py *)

Module Fmm2D.

Record FMMGrainSegment2D : Type := {
  length : R;
  outer_diameter : R;
  spacing : R;
  inhibited_ends : Z;
  map_dim : nat
}.

Section Segment.

Variable self : FMMGrainSegment2D.

(** Methods of the base class [FMMGrainSegment], which is not among the
    sources: the normalisation of a web distance, the regression map, the
    web thickness and the face map at a web distance. *)
Variable normalize : R -> R.
Variable get_regression_map : list (list R).
Variable get_web_thickness : R.
Variable get_face_map : R -> list (list R).

(** Library functions: [scipy.signal.savgol_filter],
    [scipy.interpolate.interp1d] and [skimage.measure.find_contours]. *)
Variable savgol_filter : list R -> Z -> Z -> outcome (list R).
Variable interp1d : list R -> list R -> outcome (R -> outcome R).
Variable find_contours : list (list R) -> R -> list (list (R * R)).

(** [map_to_area] and [map_to_length], as [fmm/d_grain.py] has them. *)
Definition map_to_area (value : R) : outcome R :=
  q <- np_div value (INR (map_dim self) ^ 2) ;;
  Ok (outer_diameter self ^ 2 * q).

Definition map_to_length (value : R) : outcome R :=
  q <- np_div value (INR (map_dim self)) ;;
  Ok (outer_diameter self * q).

(** [get_maps]: [(map_x, map_y)], the mesh grid of [linspace(-1, 1, map_dim)]. *)
Definition get_maps : list (list R) * list (list R) :=
  let axis := Np.linspace (-1) 1 (map_dim self) in
  (map (fun _ => axis) axis, map (fun y => map (fun _ => y) axis) axis).

(** [get_mask]: the cells outside the unit circle. *)
Definition get_mask : list (list bool) :=
  let (map_x, map_y) := get_maps in
  map (fun rows =>
         map (fun xy => Np.ltb 1 (fst xy ^ 2 + snd xy ^ 2))
             (combine (fst rows) (snd rows)))
      (combine map_x map_y).

(** The array [regression_map > level] restricted to the cells of [valid]. *)
Definition solid_cells (level : R) (valid : list (list bool)) : list (list bool) :=
  map (fun rows =>
         map (fun vb => Np.ltb level (fst vb) && snd vb)
             (combine (fst rows) (snd rows)))
      (combine get_regression_map valid).

(** [get_face_area_interp_func]; the cache only saves the recomputation. *)
Definition get_face_area_interp_func : outcome (R -> outcome R) :=
  max_dist <- Np.amax get_regression_map ;;
  let valid := map (map negb) get_mask in
  let steps := seq 0 (Z.to_nat (py_int (max_dist * INR (map_dim self)) + 2)) in
  web_distance_normalized <-
    mapM (fun i => py_div (INR i) (INR (map_dim self))) steps ;;
  face_area <-
    mapM (fun w => map_to_area (INR (Np.count_nonzero (solid_cells w valid))))
         web_distance_normalized ;;
  smooth <- savgol_filter face_area 31 5 ;;
  interp1d web_distance_normalized smooth.

(** [get_face_area]. *)
Definition get_face_area (web_distance : R) : outcome R :=
  let map_distance := normalize web_distance in
  f <- get_face_area_interp_func ;;
  f map_distance.

(** [get_port_area]. *)
Definition get_port_area (web_distance : R) : outcome R :=
  face_area <- get_face_area web_distance ;;
  Ok (Geometric.get_circle_area (outer_diameter self) - face_area).

(** [get_contours]. *)
Definition get_contours (web_distance : R) : list (list (R * R)) :=
  let map_dist := normalize web_distance in
  find_contours get_regression_map map_dist.

(** [get_core_perimeter]; the call of [get_length] leaves the tolerance to
    its default. *)
Definition get_core_perimeter (web_distance : R) : outcome R :=
  let contours := get_contours web_distance in
  parts <-
    mapM (fun contour =>
            map_to_length
              (Geometric.get_length contour (Z.of_nat (map_dim self))
                 Geometric.default_tolerance))
         contours ;;
  Ok (Np.sum parts).

(** The cells of the face map that hold active material (value 1):
    [(y_indices, x_indices)] of [get_center_of_gravity]. *)
Definition active_cells (web_distance : R) : list nat * list nat :=
  let face_map := get_face_map web_distance in
  let mask := map (map (fun v => Np.eqb v 1)) face_map in
  Np.where2 mask.

(** [get_center_of_gravity]. *)
Definition get_center_of_gravity (web_distance : R) : outcome (R * R * R) :=
  if Rgt_dec web_distance get_web_thickness then Raise GrainGeometryError
  else
    let (y_indices, x_indices) := active_cells web_distance in
    if (Nat.eqb (List.length x_indices) 0 || Nat.eqb (List.length y_indices) 0)%bool
    then Raise GrainGeometryError
    else
      let center_shift := INR (map_dim self) / 2 in
      let x_coords := map (fun i => INR i - center_shift) x_indices in
      let y_coords := map (fun i => INR i - center_shift) y_indices in
      let x_cog_normalized := Np.mean x_coords in
      let y_cog_normalized := Np.mean y_coords in
      x_cog <- map_to_length x_cog_normalized ;;
      y_cog <- map_to_length y_cog_normalized ;;
      let z_cog := length self / 2 in
      Ok (x_cog, y_cog, z_cog).

End Segment.

End Fmm2D.

(** ** The grain and tests/.../test_grainsegment2d/test_bates.py *)

Module Grain.

(** A grain: its segments in axial order. *)
Definition Grain : Type := list Bates.BatesSegment.

(** The fixtures of [conftest.py]. *)
Definition bates_segment_olympus_45 : Bates.BatesSegment :=
  {| Bates.outer_diameter := 117e-3; Bates.core_diameter := 45e-3;
     Bates.length := 200e-3; Bates.spacing := 10e-3 |}.

Definition bates_segment_olympus_60 : Bates.BatesSegment :=
  {| Bates.outer_diameter := 117e-3; Bates.core_diameter := 60e-3;
     Bates.length := 200e-3; Bates.spacing := 10e-3 |}.

Definition bates_grain_olympus : Grain :=
  [bates_segment_olympus_45; bates_segment_olympus_45;
   bates_segment_olympus_45; bates_segment_olympus_45;
   bates_segment_olympus_60; bates_segment_olympus_60;
   bates_segment_olympus_60].

(** The loop of [test_olympus_grain_total_length_property]: the value the
    test compares [grain.total_length] with. *)
Definition accumulated_total_length (grain : Grain) : R :=
  fold_left (fun total_length segment =>
               total_length + (Bates.length segment + Bates.spacing segment))
            grain 0.

End Grain.

(** ** srm_solver/models/motor/structure.py *)

Module Structure.

(** The fields of [models.materials.Material] the methods read. *)
Record Material : Type := {
  yield_strength : R;
  ultimate_strength : R
}.

(** [CombustionChamber]; the thermal liner, which no method reads, is left
    out. *)
Record CombustionChamber : Type := {
  inner_diameter : R;
  outer_diameter : R;
  length : R;
  C1 : R;
  C2 : R;
  casing_material : Material;
  bulkhead_material : Material
}.

(** [CombustionChamber.get_bulkhead_thickness]. *)
Definition get_bulkhead_thickness (self : CombustionChamber)
  (chamber_pressure : list R) (safety_factor : R) : outcome R :=
  p_max <- Np.max chamber_pressure ;;
  allowed <- py_div (yield_strength (bulkhead_material self)) safety_factor ;;
  q <- np_div (0.75 * p_max) allowed ;;
  root <- Np.sqrt q ;;
  Ok (inner_diameter self * root).

(** [CombustionChamber.get_chamber_length]. *)
Definition get_chamber_length (grain_length : list R) (grain_count : Z)
  (grain_spacing : R) : R :=
  Np.sum grain_length + (IZR grain_count - 1) * grain_spacing.

(** [CombustionChamber.get_casing_safety_factor]. *)
Definition get_casing_safety_factor (self : CombustionChamber)
  (chamber_pressure : list R) : outcome R :=
  let casing_yield_strength := yield_strength (casing_material self) in
  let thickness := (outer_diameter self - inner_diameter self) / 2 in
  max_chamber_pressure <- Np.max chamber_pressure ;;
  bursting_pressure <-
    py_div (casing_yield_strength * thickness)
           (inner_diameter self * 0.5 + 0.6 * thickness) ;;
  np_div bursting_pressure max_chamber_pressure.

(** [CombustionChamber.get_empty_volume]. *)
Definition get_empty_volume (self : CombustionChamber) : R :=
  Geometric.get_cylinder_volume (inner_diameter self) (length self).

(** [BoltedCombustionChamber]: the chamber and the fields the subclass
    adds. *)
Record BoltedCombustionChamber : Type := {
  chamber : CombustionChamber;
  screw_material : Material;
  max_screw_count : nat;
  screw_clearance_diameter : R;
  screw_diameter : R
}.

(** [BoltedCombustionChamber.get_chamber_inner_diameter]. *)
Definition get_chamber_inner_diameter (inner_diameter liner_thickness : R) : R :=
  inner_diameter - 2 * liner_thickness.

(** One turn of the loop of [get_optimal_fasteners]: the shear, tear and
    compression safety factors for [screw_count] screws. *)
Definition fastener_safety_factors (self : BoltedCombustionChamber)
  (chamber_pressure : list R) (screw_count : nat) : outcome (R * R * R) :=
  let Do := outer_diameter (chamber self) in
  let Di := inner_diameter (chamber self) in
  let casing_yield_strength := yield_strength (casing_material (chamber self)) in
  let screw_ultimate_strength := ultimate_strength (screw_material self) in
  let shear_area := screw_diameter self ^ 2 * PI * 0.25 in
  ring_share <- py_div (PI * 0.25 * (Do ^ 2 - Di ^ 2)) (INR screw_count) ;;
  ratio <- py_div (screw_clearance_diameter self / 2) (Di / 2) ;;
  angle <- (if Rlt_dec ratio (-1) then NonReal
            else if Rlt_dec 1 ratio then NonReal
            else Ok (asin ratio)) ;;
  let tear_area := ring_share - angle * 0.25 * (Do ^ 2 - Di ^ 2) in
  let compression_area := (Do - Di) * screw_clearance_diameter self / 2 in
  p_max <- Np.max chamber_pressure ;;
  force_on_each_fastener <- np_div (p_max * (PI * (Di / 2) ^ 2)) (INR screw_count) ;;
  shear_stress <- np_div force_on_each_fastener shear_area ;;
  shear <- np_div screw_ultimate_strength shear_stress ;;
  tear_stress <- np_div force_on_each_fastener tear_area ;;
  tear <- np_div (casing_yield_strength / R_sqrt.sqrt 3) tear_stress ;;
  compression_stress <- np_div force_on_each_fastener compression_area ;;
  compression <- np_div casing_yield_strength compression_stress ;;
  Ok (shear, tear, compression).

(** [BoltedCombustionChamber.get_optimal_fasteners]: [(optimal_fasteners,
    max_safety_factor_fastener, shear_safety_factor, tear_safety_factor,
    compression_safety_factor)]. *)
Definition get_optimal_fasteners (self : BoltedCombustionChamber)
  (chamber_pressure : list R)
  : outcome (nat * R * list R * list R * list R) :=
  factors <-
    mapM (fastener_safety_factors self chamber_pressure)
         (seq 1 (max_screw_count self)) ;;
  let shear_safety_factor := map (fun f => fst (fst f)) factors in
  let tear_safety_factor := map (fun f => snd (fst f)) factors in
  let compression_safety_factor := map (fun f => snd f) factors in
  let weakest :=
    Np.min3 shear_safety_factor tear_safety_factor compression_safety_factor in
  max_safety_factor_fastener <- Np.max weakest ;;
  optimal_fasteners <- Np.argmax weakest ;;
  Ok (optimal_fasteners, max_safety_factor_fastener, shear_safety_factor,
      tear_safety_factor, compression_safety_factor).

(** [Nozzle], built with a material. *)
Record Nozzle : Type := {
  throat_diameter : R;
  divergent_angle : R;
  convergent_angle : R;
  expansion_ratio : R;
  material : Material
}.

(** [Nozzle.get_throat_area]. *)
Definition get_throat_area (self : Nozzle) : R :=
  Geometric.get_circle_area (throat_diameter self).

(** [Nozzle.get_nozzle_thickness]: [(nozzle_conv_thickness,
    nozzle_div_thickness)]. *)
Definition get_nozzle_thickness (self : Nozzle) (chamber_pressure : list R)
  (safety_factor : R) (chamber : CombustionChamber) : outcome (R * R) :=
  max_chamber_pressure <- Np.max chamber_pressure ;;
  let nozzle_yield_strength := yield_strength (material self) in
  safe_yield_strength <- py_div nozzle_yield_strength safety_factor ;;
  p_max <- Np.max chamber_pressure ;;
  nozzle_conv_thickness <-
    np_div (p_max * inner_diameter chamber / 2)
           (safe_yield_strength
            - 0.6 * max_chamber_pressure
              * cos (convergent_angle self * PI / 180)) ;;
  p_max' <- Np.max chamber_pressure ;;
  nozzle_div_thickness <-
    np_div (p_max' * inner_diameter chamber / 2)
           (safe_yield_strength
            - 0.6 * max_chamber_pressure
              * cos (divergent_angle self * PI / 180)) ;;
  Ok (nozzle_conv_thickness, nozzle_div_thickness).

End Structure.

(** ** machwave/models/propulsion/structure/nozzle.py *)

Module MachwaveNozzle.

(** [Nozzle.get_nozzle_wall_thickness]. *)
Definition get_nozzle_wall_thickness (self : Structure.Nozzle)
  (chamber_pressure safety_factor chamber_inner_diameter wall_angle : R)
  : outcome R :=
  allowed <- py_div (Structure.yield_strength (Structure.material self))
                    safety_factor ;;
  np_div (chamber_pressure * chamber_inner_diameter / 2)
         (allowed - 0.6 * chamber_pressure * cos (wall_angle * PI / 180)).

(** [Nozzle.get_nozzle_thickness], at one chamber pressure. *)
Definition get_nozzle_thickness (self : Structure.Nozzle)
  (chamber_pressure safety_factor : R) (chamber : Structure.CombustionChamber)
  : outcome (R * R) :=
  nozzle_conv_thickness <-
    get_nozzle_wall_thickness self chamber_pressure safety_factor
      (Structure.inner_diameter chamber) (Structure.convergent_angle self) ;;
  nozzle_div_thickness <-
    get_nozzle_wall_thickness self chamber_pressure safety_factor
      (Structure.inner_diameter chamber) (Structure.divergent_angle self) ;;
  Ok (nozzle_conv_thickness, nozzle_div_thickness).

End MachwaveNozzle.

(** ** srm_solver/models/propulsion/__init__.py *)

Module Propulsion.

Section SolidMotor.

(** [structure.nozzle.get_divergent_correction_factor()], whose code
    ([utils.isentropic_flow]) is not among the sources, and the
    propellant's [combustion_efficiency]. *)
Variable divergent_correction_factor : R.
Variable combustion_efficiency : R.

(** [SolidMotor.get_thrust_coefficient_correction_factor]. *)
Definition get_thrust_coefficient_correction_factor (n_kin n_bl n_tp : R) : R :=
  (100 - (n_kin + n_bl + n_tp)) * divergent_correction_factor / 100
  * combustion_efficiency.

End SolidMotor.

End Propulsion.

(** * Reference definitions

    The formulas of the specification, written after its words, and the
    concrete segments the examples use. *)

(** ** The Seidel equation *)

(** The square root of the specification's formulas: a real number for a
    radicand that is not negative, no real number otherwise. *)
Definition real_sqrt (x : R) : outcome R :=
  if Rle_dec 0 x then Ok (sqrt x) else NonReal.

(** The critical pressure ratio [(2/(k+1))^(k/(k-1))]. *)
Definition critical_ratio (k : R) : R := Rpower (2 / (k + 1)) (k / (k - 1)).

(** The nozzle-flow coefficient [H] of the specification. *)
Definition flow_coefficient (Pe P0 k : R) : outcome R :=
  if Rle_dec (Pe / P0) (critical_ratio k) then
    Ok (sqrt (k / (k + 1)) * Rpower (2 / (k + 1)) (1 / (k - 1)))
  else
    s <- real_sqrt (k / (k - 1) * (1 - Rpower (Pe / P0) ((k - 1) / k))) ;;
    Ok (Rpower (Pe / P0) (1 / k) * s).

(** The right-hand side of the pressure equation of the specification. *)
Definition seidel_rate (P0 Pe Ab V0 At pp k Rg T0 r : R) : outcome R :=
  H <- flow_coefficient Pe P0 k ;;
  s <- real_sqrt (2 * Rg * T0) ;;
  Ok ((Rg * T0 * Ab * pp * r - P0 * At * H * s) / V0).

(** ** Contour length *)

(** The Euclidean distance of two points of the map. *)
Definition distance (p q : R * R) : R :=
  sqrt ((fst p - fst q) * (fst p - fst q) + (snd p - snd q) * (snd p - snd q)).

(** The centre of a map of [map_size] cells a side. *)
Definition map_centre (map_size : Z) : R * R := (IZR map_size / 2, IZR map_size / 2).

(** Point [j] of a contour, and the index of the point before it: the
    contour is closed, the last point comes before the first. *)
Definition point (contour : list (R * R)) (j : nat) : R * R := nth j contour (0, 0).

Definition previous_index (n j : nat) : nat :=
  match j with
  | O => (n - 1)%nat
  | S j' => j'
  end.

(** The length the specification describes: the sum, over the points that
    lie inside the circle of radius [map_size/2 - tolerance], of the length
    of the segment that ends at the point. *)
Definition interior_length (contour : list (R * R)) (map_size : Z) (tolerance : R) : R :=
  Np.sum
    (map (fun j =>
            if Rlt_dec (distance (point contour j) (map_centre map_size))
                       (IZR map_size / 2 - tolerance)
            then distance (point contour j)
                          (point contour (previous_index (List.length contour) j))
            else 0)
         (seq 0 (List.length contour))).

(** ** Example segments *)

(** A segment on a map of 2 by 2 cells whose only active cell is the first
    one. *)
Definition corner_segment : Fmm2D.FMMGrainSegment2D :=
  {| Fmm2D.length := 4; Fmm2D.outer_diameter := 2; Fmm2D.spacing := 0;
     Fmm2D.inhibited_ends := 0; Fmm2D.map_dim := 2 |}.

Definition corner_face_map (_ : R) : list (list R) := [[1; 0]; [0; 0]].

(** The control segment of [test_bates_segment_geometry_validation]. *)
Definition control_segment : Bates.BatesSegment :=
  {| Bates.outer_diameter := 100e-3; Bates.core_diameter := 30e-3;
     Bates.length := 120e-3; Bates.spacing := 10e-3 |}.

(** The legacy grain with the dimensions of one segment. *)
Definition legacy_grain (s : Bates.BatesSegment) : IbFunctions.BATES :=
  {| IbFunctions.wr := 2; IbFunctions.N := 1;
     IbFunctions.D_grain := Bates.outer_diameter s;
     IbFunctions.D_core := [Bates.core_diameter s];
     IbFunctions.L_grain := [Bates.length s] |}.

(** A nozzle of a material with a yield strength of 10, for the examples. *)
Definition steel_nozzle : Structure.Nozzle :=
  {| Structure.throat_diameter := 1; Structure.divergent_angle := 12;
     Structure.convergent_angle := 30; Structure.expansion_ratio := 8;
     Structure.material :=
       {| Structure.yield_strength := 10; Structure.ultimate_strength := 20 |} |}.

(** The face map read cell by cell: the sum of [weight] over the cells that
    hold active material (value 1), [weight c] for the cell in column [c]
    of a row and [weight r c] for the cell in row [r] and column [c] of a
    map.  The first cell has the index given. *)
Fixpoint row_total (weight : nat -> R) (c : nat) (row : list R) : R :=
  match row with
  | [] => 0
  | v :: rest =>
      (if Req_dec_T v 1 then weight c else 0) + row_total weight (S c) rest
  end.

Fixpoint map_total (weight : nat -> nat -> R) (r : nat)
  (face_map : list (list R)) : R :=
  match face_map with
  | [] => 0
  | row :: rest => row_total (weight r) 0 row + map_total weight (S r) rest
  end.

(** The number of active cells of a face map. *)
Definition solid_cell_count (face_map : list (list R)) : R :=
  map_total (fun _ _ => 1) 0 face_map.

(** The area-weighted centroid of the active cells in grid coordinates
    (column, row).  Every cell has the same area, so the weights cancel:
    the centroid is the sum of the cells' coordinates over their number. *)
Definition grid_centroid (face_map : list (list R)) : R * R :=
  (map_total (fun _ c => INR c) 0 face_map / solid_cell_count face_map,
   map_total (fun r _ => INR r) 0 face_map / solid_cell_count face_map).

(** A grid coordinate in physical units: the origin moves to the middle
    [map_dim / 2] of the grid, and a cell is [outer_diameter / map_dim]
    wide. *)
Definition denormalized (outer_diameter : R) (map_dim : nat) (g : R) : R :=
  outer_diameter * ((g - INR map_dim / 2) / INR map_dim).

(** A raster segment 6 wide on a grid of 2 cells a side, and a face map
    with three active cells. *)
Definition wide_segment : Fmm2D.FMMGrainSegment2D :=
  {| Fmm2D.length := 4; Fmm2D.outer_diameter := 6; Fmm2D.spacing := 0;
     Fmm2D.inhibited_ends := 0; Fmm2D.map_dim := 2 |}.

Definition three_cell_face_map (_ : R) : list (list R) := [[1; 1]; [0; 1]].

(** A smoothing filter for the examples.  Like
    [scipy.signal.savgol_filter] it refuses an array shorter than its
    window with [ValueError]; an array that is long enough it leaves as it
    is. *)
Definition window_filter (a : list R) (window_length polyorder : Z)
  : outcome (list R) :=
  if (Z.of_nat (List.length a) <? window_length)%Z then Raise ValueError
  else Ok a.

(** A bolted chamber with room for one screw, for the examples. *)
Definition bolted_chamber : Structure.BoltedCombustionChamber :=
  {| Structure.chamber :=
       {| Structure.inner_diameter := 2; Structure.outer_diameter := 4;
          Structure.length := 1; Structure.C1 := 0; Structure.C2 := 0;
          Structure.casing_material :=
            {| Structure.yield_strength := 3; Structure.ultimate_strength := 4 |};
          Structure.bulkhead_material :=
            {| Structure.yield_strength := 3; Structure.ultimate_strength := 4 |} |};
     Structure.screw_material :=
       {| Structure.yield_strength := 1; Structure.ultimate_strength := 2 |};
     Structure.max_screw_count := 1;
     Structure.screw_clearance_diameter := 2;
     Structure.screw_diameter := 2 |}.

(** The cells of the regression map, each with its entry of [valid]. *)
Definition paired_cells (regression_map : list (list R))
  (valid : list (list bool)) : list (R * bool) :=
  concat (map (fun rows => combine (fst rows) (snd rows))
              (combine regression_map valid)).

(** A regression map of the [corner_segment] on which every distance is 0. *)
Definition flat_regression_map : list (list R) := [[0; 0]; [0; 0]].

(** A chamber of inner diameter 2 whose casing, of the material of
    [steel_nozzle], has the thin-wall thickness for a pressure of 1. *)
Definition thin_wall_chamber : Structure.CombustionChamber :=
  {| Structure.inner_diameter := 2;
     Structure.outer_diameter :=
       2 + 2 * (1 * 2 / 2 / (10 / 1 - 0.6 * 1 * cos (0 * PI / 180)));
     Structure.length := 1; Structure.C1 := 0; Structure.C2 := 0;
     Structure.casing_material := Structure.material steel_nozzle;
     Structure.bulkhead_material := Structure.material steel_nozzle |}.

(** * Properties *)

(** ** The runtime operations *)

Lemma bind_ok {A B : Type} (m : outcome A) (f : A -> outcome B) (b : B) :
  bind m f = Ok b -> exists a, m = Ok a /\ f a = Ok b.
Proof.
  destruct m as [a | e | ]; simpl; intros H; try discriminate.
  exists a; split; [reflexivity | exact H].
Qed.

Lemma py_div_ok (x y : R) : y <> 0 -> py_div x y = Ok (x / y).
Proof.
  intros Hy. unfold py_div. destruct (Req_dec_T y 0); [contradiction | reflexivity].
Qed.

Lemma py_div_zero (x : R) : py_div x 0 = Raise ZeroDivisionError.
Proof.
  unfold py_div. destruct (Req_dec_T 0 0) as [_ | H]; [reflexivity | now elim H].
Qed.

Lemma np_div_ok (x y : R) : y <> 0 -> np_div x y = Ok (x / y).
Proof.
  intros Hy. unfold np_div. destruct (Req_dec_T y 0); [contradiction | reflexivity].
Qed.

Lemma py_pow_pos (x y : R) : 0 < x -> py_pow x y = Ok (Rpower x y).
Proof.
  intros Hx. unfold py_pow. destruct (Rlt_dec 0 x); [reflexivity | contradiction].
Qed.

Lemma half_not_whole : 0.5 <> IZR (Int_part 0.5).
Proof.
  intros H.
  assert (H2 : IZR (2 * Int_part 0.5) = IZR 1) by (rewrite mult_IZR; lra).
  apply eq_IZR in H2. lia.
Qed.

(** [x ** 0.5] is the square root where there is a real one. *)
Lemma py_pow_half (x : R) : 0 <= x -> py_pow x 0.5 = Ok (sqrt x).
Proof.
  intros Hx. unfold py_pow.
  destruct (Rlt_dec 0 x) as [Hpos | Hnpos].
  - f_equal. replace 0.5 with (/ 2) by lra. now apply Rpower_sqrt.
  - assert (x = 0) by lra. subst x.
    destruct (Req_dec_T 0 0) as [_ | H]; [ | now elim H].
    destruct (Rlt_dec 0.5 0); [lra | ].
    destruct (Req_dec_T 0.5 0); [lra | ].
    now rewrite sqrt_0.
Qed.

Lemma py_pow_half_negative (x : R) : x < 0 -> py_pow x 0.5 = NonReal.
Proof.
  intros Hx. unfold py_pow.
  destruct (Rlt_dec 0 x); [lra | ].
  destruct (Req_dec_T x 0); [lra | ].
  destruct (Req_dec_T 0.5 (IZR (Int_part 0.5))) as [H | _]; [ | reflexivity].
  now elim half_not_whole.
Qed.

(** ** The Seidel equation *)

Lemma py_pow_half_real_sqrt (x : R) : py_pow x 0.5 = real_sqrt x.
Proof.
  unfold real_sqrt. destruct (Rle_dec 0 x).
  - now apply py_pow_half.
  - apply py_pow_half_negative. lra.
Qed.

Lemma critical_ratio_pos (k : R) : 0 < critical_ratio k.
Proof. unfold critical_ratio, Rpower. apply exp_pos. Qed.

(** The code, step by step, up to its last division. *)
Lemma CP_Seidel_steps (P0 Pe Ab V0 At pp k Rg T0 r : R) :
  P0 <> 0 -> 1 < k ->
  IbFunctions.CP_Seidel P0 Pe Ab V0 At pp k Rg T0 r
  = (H <- flow_coefficient Pe P0 k ;;
     s <- real_sqrt (2 * Rg * T0) ;;
     py_div (Rg * T0 * Ab * pp * r - P0 * At * H * s) V0).
Proof.
  intros HP Hk.
  assert (Hb : 0 < 2 / (k + 1)) by (apply Rdiv_lt_0_compat; lra).
  assert (Ha : 0 < k / (k + 1)) by (apply Rdiv_lt_0_compat; lra).
  unfold IbFunctions.CP_Seidel, flow_coefficient.
  rewrite !(py_div_ok _ (k + 1)) by lra.
  rewrite !(py_div_ok _ (k - 1)) by lra.
  rewrite !(py_div_ok _ P0) by assumption.
  simpl. rewrite (py_pow_pos _ _ Hb). simpl.
  fold (critical_ratio k).
  destruct (Rle_dec (Pe / P0) (critical_ratio k)) as [Hle | Hgt].
  - rewrite (py_pow_half _ (Rlt_le _ _ Ha)). simpl.
    rewrite (py_pow_pos _ _ Hb). simpl.
    rewrite py_pow_half_real_sqrt. reflexivity.
  - assert (Hr : 0 < Pe / P0) by (pose proof (critical_ratio_pos k); lra).
    rewrite !(py_div_ok _ k) by lra. simpl.
    rewrite !(py_pow_pos _ _ Hr). simpl.
    rewrite py_pow_half_real_sqrt.
    destruct (real_sqrt (k / (k - 1) * (1 - Rpower (Pe / P0) ((k - 1) / k))));
      simpl; try reflexivity.
    rewrite py_pow_half_real_sqrt. reflexivity.
Qed.

Lemma CP_Seidel_eq_rate (P0 Pe Ab V0 At pp k Rg T0 r : R) :
  P0 <> 0 -> V0 <> 0 -> 1 < k ->
  IbFunctions.CP_Seidel P0 Pe Ab V0 At pp k Rg T0 r
  = seidel_rate P0 Pe Ab V0 At pp k Rg T0 r.
Proof.
  intros HP HV Hk. rewrite CP_Seidel_steps by assumption.
  unfold seidel_rate.
  destruct (flow_coefficient Pe P0 k); simpl; try reflexivity.
  destruct (real_sqrt (2 * Rg * T0)); simpl; try reflexivity.
  now apply py_div_ok.
Qed.

Lemma real_sqrt_ok (x : R) : 0 <= x -> real_sqrt x = Ok (sqrt x).
Proof.
  intros Hx. unfold real_sqrt. destruct (Rle_dec 0 x); [reflexivity | contradiction].
Qed.

(** Below the chamber pressure the radicand of the subsonic branch is not
    negative. *)
Lemma subsonic_radicand_nonneg (x k : R) :
  1 < k -> 0 < x <= 1 -> 0 <= k / (k - 1) * (1 - Rpower x ((k - 1) / k)).
Proof.
  intros Hk [Hx0 Hx1].
  assert (He : 0 <= (k - 1) / k) by (apply Rlt_le, Rdiv_lt_0_compat; lra).
  assert (Hp : Rpower x ((k - 1) / k) <= 1).
  { rewrite <- (Rpower_1 1) at 2 by lra.
    replace (Rpower 1 1) with (Rpower 1 ((k - 1) / k)).
    - apply Rle_Rpower_l; [exact He | split; assumption].
    - unfold Rpower. rewrite ln_1, !Rmult_0_r. reflexivity. }
  apply Rmult_le_pos; [apply Rlt_le, Rdiv_lt_0_compat; lra | lra].
Qed.

(** C2.  For every input with [P0 > 0], [V0 <> 0] and [k > 1], [CP_Seidel]
    returns [(R*T0*Ab*pp*r - P0*At*H*sqrt(2*R*T0)) / V0], where [H] is the
    choked closed form [sqrt(k/(k+1)) * (2/(k+1))^(1/(k-1))] when
    [Pe/P0 <= (2/(k+1))^(k/(k-1))] and
    [(Pe/P0)^(1/k) * sqrt((k/(k-1)) * (1 - (Pe/P0)^((k-1)/k)))] otherwise;
    where a radicand is negative the formula and the code alike have no
    real value.  When [R*T0 >= 0] and [Pe <= P0] every square root is real
    and the result is the real number the formula gives. *)
Theorem CP_Seidel_formula (P0 Pe Ab V0 At pp k Rg T0 r : R) :
  0 < P0 -> V0 <> 0 -> 1 < k ->
  IbFunctions.CP_Seidel P0 Pe Ab V0 At pp k Rg T0 r
  = seidel_rate P0 Pe Ab V0 At pp k Rg T0 r
  /\ (0 <= Rg * T0 -> Pe <= P0 ->
      IbFunctions.CP_Seidel P0 Pe Ab V0 At pp k Rg T0 r
      = Ok ((Rg * T0 * Ab * pp * r
             - P0 * At
               * (if Rle_dec (Pe / P0) (Rpower (2 / (k + 1)) (k / (k - 1)))
                  then sqrt (k / (k + 1)) * Rpower (2 / (k + 1)) (1 / (k - 1))
                  else Rpower (Pe / P0) (1 / k)
                       * sqrt (k / (k - 1) * (1 - Rpower (Pe / P0) ((k - 1) / k))))
               * sqrt (2 * Rg * T0)) / V0)).
Proof.
  intros HP HV Hk.
  assert (HP0 : P0 <> 0) by lra.
  split; [now apply CP_Seidel_eq_rate | ].
  intros HRT HPe.
  rewrite CP_Seidel_eq_rate by assumption.
  unfold seidel_rate, flow_coefficient. fold (critical_ratio k).
  destruct (Rle_dec (Pe / P0) (critical_ratio k)) as [Hle | Hgt]; simpl.
  - rewrite real_sqrt_ok by lra. reflexivity.
  - assert (Hr : 0 < Pe / P0) by (pose proof (critical_ratio_pos k); lra).
    assert (Hr1 : Pe / P0 <= 1).
    { apply (Rmult_le_reg_r P0); [exact HP | ].
      unfold Rdiv. rewrite Rmult_assoc, Rinv_l by exact HP0. lra. }
    rewrite real_sqrt_ok by (apply subsonic_radicand_nonneg; [exact Hk | split; assumption]).
    simpl. rewrite real_sqrt_ok by lra. reflexivity.
Qed.

Lemma CP_Seidel_formula_witness :
  IbFunctions.CP_Seidel 2 1 0 1 0.75 1 2 3 1 1 = seidel_rate 2 1 0 1 0.75 1 2 3 1 1
  /\ (0 <= 3 * 1 -> 1 <= 2 ->
      IbFunctions.CP_Seidel 2 1 0 1 0.75 1 2 3 1 1
      = Ok ((3 * 1 * 0 * 1 * 1
             - 2 * 0.75
               * (if Rle_dec (1 / 2) (Rpower (2 / (2 + 1)) (2 / (2 - 1)))
                  then sqrt (2 / (2 + 1)) * Rpower (2 / (2 + 1)) (1 / (2 - 1))
                  else Rpower (1 / 2) (1 / 2)
                       * sqrt (2 / (2 - 1) * (1 - Rpower (1 / 2) ((2 - 1) / 2))))
               * sqrt (2 * 3 * 1)) / 1)).
Proof.
  apply (CP_Seidel_formula 2 1 0 1 0.75 1 2 3 1 1); lra.
Defined.

(** With [k = 2], [R*T0 = 3], [At = 0.75], [V0 = 1], no burn area and a
    vacuum outside, the equation is [dP0/dt = -P0]. *)
Lemma CP_Seidel_decay (P0 pp r : R) :
  0 < P0 -> IbFunctions.CP_Seidel P0 0 0 1 0.75 pp 2 3 1 r = Ok (- P0).
Proof.
  intros HP.
  rewrite CP_Seidel_eq_rate by lra.
  unfold seidel_rate, flow_coefficient.
  destruct (Rle_dec (0 / P0) (critical_ratio 2)) as [_ | Hn]; cbn [bind].
  - rewrite real_sqrt_ok by lra. cbn [bind]. f_equal.
    replace (1 / (2 - 1)) with 1 by lra.
    rewrite Rpower_1 by lra.
    replace (2 / (2 + 1)) with (2 / 3) by lra.
    replace (2 * 3 * 1) with 6 by lra.
    replace (P0 * 0.75 * (sqrt (2 / 3) * (2 / 3)) * sqrt 6)
      with (P0 * (1 / 2) * (sqrt (2 / 3) * sqrt 6))
      by (replace 0.75 with (3 / 4) by lra; field).
    rewrite <- sqrt_mult by lra.
    replace (2 / 3 * 6) with (2 * 2) by lra.
    rewrite sqrt_square by lra. lra.
  - exfalso. apply Hn. unfold Rdiv at 1. rewrite Rmult_0_l.
    apply Rlt_le. apply critical_ratio_pos.
Qed.

(** On real-valued stages the flow coefficient is a real number. *)
Lemma flow_coefficient_real (Pe P0 k : R) :
  1 < k -> Pe / P0 <= 1 -> exists H, flow_coefficient Pe P0 k = Ok H.
Proof.
  intros Hk Hr1. unfold flow_coefficient.
  destruct (Rle_dec (Pe / P0) (critical_ratio k)) as [Hle | Hgt].
  - eexists; reflexivity.
  - assert (Hr : 0 < Pe / P0) by (pose proof (critical_ratio_pos k); lra).
    rewrite real_sqrt_ok by (apply subsonic_radicand_nonneg; [exact Hk | split; assumption]).
    simpl. eexists; reflexivity.
Qed.

(** *** Python floats and NumPy scalars *)

Lemma np_div_zero (x : R) : np_div x 0 = NonReal.
Proof. unfold np_div. destruct (Req_dec_T 0 0); [reflexivity | now elim n]. Qed.

Lemma py_div_np_div (x y q : R) : py_div x y = Ok q -> np_div x y = Ok q.
Proof.
  unfold py_div, np_div. destruct (Req_dec_T y 0); [discriminate | trivial].
Qed.

Lemma py_pow_np_pow (x y q : R) : py_pow x y = Ok q -> np_pow x y = Ok q.
Proof.
  unfold py_pow, np_pow.
  destruct (Rlt_dec 0 x); [trivial | ].
  destruct (Req_dec_T x 0); [ | trivial].
  destruct (Rlt_dec y 0); [discriminate | trivial].
Qed.

Lemma np_div_never_raises (x y : R) (e : exn) : np_div x y <> Raise e.
Proof. unfold np_div. destruct (Req_dec_T y 0); discriminate. Qed.

Lemma np_pow_never_raises (x y : R) (e : exn) : np_pow x y <> Raise e.
Proof.
  unfold np_pow.
  destruct (Rlt_dec 0 x); [discriminate | ].
  destruct (Req_dec_T x 0).
  - destruct (Rlt_dec y 0); [discriminate | ].
    destruct (Req_dec_T y 0); discriminate.
  - destruct (Req_dec_T y (IZR (Int_part y))); discriminate.
Qed.

Lemma bind_never_raises {A B : Type} (m : outcome A) (f : A -> outcome B) :
  (forall e, m <> Raise e) -> (forall a e, f a <> Raise e) ->
  forall e, bind m f <> Raise e.
Proof.
  intros Hm Hf e. destruct m as [a | e' | ]; cbn [bind].
  - apply Hf.
  - now elim (Hm e').
  - discriminate.
Qed.

Ltac never_raises :=
  repeat (apply bind_never_raises;
          [intros ?; first [apply np_div_never_raises | apply np_pow_never_raises]
          | intros ? ]);
  intros ?;
  first [apply np_div_never_raises | apply np_pow_never_raises | discriminate].

Lemma CP_Seidel_numpy_never_raises (P0 Pe Ab V0 At pp k Rg T0 r : R) (e : exn) :
  IbFunctions.CP_Seidel_numpy P0 Pe Ab V0 At pp k Rg T0 r <> Raise e.
Proof.
  revert e. unfold IbFunctions.CP_Seidel_numpy.
  do 4 (apply bind_never_raises;
        [intros ?; first [apply np_div_never_raises | apply np_pow_never_raises]
        | intros ? ]).
  apply bind_never_raises.
  - destruct (Rle_dec a2 a1); never_raises.
  - intros H. never_raises.
Qed.

Lemma bind_agrees {A B : Type} (m m' : outcome A) (f f' : A -> outcome B) :
  (forall a, m = Ok a -> m' = Ok a) ->
  (forall a b, f a = Ok b -> f' a = Ok b) ->
  forall b, bind m f = Ok b -> bind m' f' = Ok b.
Proof.
  intros Hm Hf b H. apply bind_ok in H. destruct H as [a [Ha H]].
  rewrite (Hm a Ha). cbn [bind]. now apply Hf.
Qed.

Ltac agrees :=
  repeat (apply bind_agrees;
          [intros ?; first [apply py_div_np_div | apply py_pow_np_pow]
          | intros ? ]);
  intros ?;
  first [apply py_div_np_div | apply py_pow_np_pow | trivial].

(** Where the run on Python floats returns a value, the run on NumPy
    scalars returns the same value. *)
Lemma CP_Seidel_numpy_agrees (P0 Pe Ab V0 At pp k Rg T0 r v : R) :
  IbFunctions.CP_Seidel P0 Pe Ab V0 At pp k Rg T0 r = Ok v ->
  IbFunctions.CP_Seidel_numpy P0 Pe Ab V0 At pp k Rg T0 r = Ok v.
Proof.
  revert v. unfold IbFunctions.CP_Seidel, IbFunctions.CP_Seidel_numpy.
  do 4 (apply bind_agrees;
        [intros ?; first [apply py_div_np_div | apply py_pow_np_pow]
        | intros ? ]).
  apply bind_agrees.
  - destruct (Rle_dec a2 a1); agrees.
  - intros H. agrees.
Qed.

(** On Python floats a zero free volume never yields a value. *)
Lemma CP_Seidel_zero_volume_no_value (P0 Pe Ab At pp k Rg T0 r v : R) :
  IbFunctions.CP_Seidel P0 Pe Ab 0 At pp k Rg T0 r <> Ok v.
Proof.
  unfold IbFunctions.CP_Seidel. intros H.
  repeat (apply bind_ok in H; destruct H as [? [_ H]]).
  rewrite py_div_zero in H. discriminate.
Qed.

Lemma CP_Seidel_zero_volume (P0 Pe Ab At pp k Rg T0 r : R) :
  P0 <> 0 -> 1 < k -> 0 <= Rg * T0 -> Pe / P0 <= 1 ->
  IbFunctions.CP_Seidel P0 Pe Ab 0 At pp k Rg T0 r = Raise ZeroDivisionError.
Proof.
  intros HP Hk HRT Hr1.
  rewrite CP_Seidel_steps by assumption.
  destruct (flow_coefficient_real Pe P0 k Hk Hr1) as [H HH].
  rewrite HH. simpl. rewrite real_sqrt_ok by lra. simpl.
  apply py_div_zero.
Qed.

Lemma CP_Seidel_nonzero_volume (P0 Pe Ab V0 At pp k Rg T0 r : R) :
  P0 <> 0 -> 1 < k -> 0 <= Rg * T0 -> Pe / P0 <= 1 -> V0 <> 0 ->
  exists v, IbFunctions.CP_Seidel P0 Pe Ab V0 At pp k Rg T0 r = Ok v.
Proof.
  intros HP Hk HRT Hr1 HV.
  rewrite CP_Seidel_steps by assumption.
  destruct (flow_coefficient_real Pe P0 k Hk Hr1) as [H HH].
  rewrite HH. simpl. rewrite real_sqrt_ok by lra. simpl.
  rewrite py_div_ok by exact HV. eexists; reflexivity.
Qed.

(** C6, as the code has it.  Whether [CP_Seidel] can raise depends on the
    scalars it is given.  On NumPy scalars it raises nothing, whatever the
    input: a zero divisor, the free volume [V0] among them, gives [inf] or
    [nan].  On Python floats, the type its signature names, a zero [V0]
    never yields a value; for every input with [P0 <> 0], [k > 1],
    [R*T0 >= 0] and [Pe/P0 <= 1] it raises [ZeroDivisionError] there,
    where the NumPy run ends outside the real numbers, and for [V0 <> 0],
    a negative volume and a zero burn area included, both runs return one
    and the same real number. *)
Theorem CP_Seidel_raises_by_scalar_type (P0 Pe Ab V0 At pp k Rg T0 r : R) :
  (forall e, IbFunctions.CP_Seidel_numpy P0 Pe Ab V0 At pp k Rg T0 r <> Raise e)
  /\ (forall v, IbFunctions.CP_Seidel P0 Pe Ab V0 At pp k Rg T0 r = Ok v ->
                IbFunctions.CP_Seidel_numpy P0 Pe Ab V0 At pp k Rg T0 r = Ok v)
  /\ (forall v, IbFunctions.CP_Seidel P0 Pe Ab 0 At pp k Rg T0 r <> Ok v)
  /\ (P0 <> 0 -> 1 < k -> 0 <= Rg * T0 -> Pe / P0 <= 1 ->
      IbFunctions.CP_Seidel P0 Pe Ab 0 At pp k Rg T0 r = Raise ZeroDivisionError
      /\ IbFunctions.CP_Seidel_numpy P0 Pe Ab 0 At pp k Rg T0 r = NonReal
      /\ (V0 <> 0 ->
          exists v,
            IbFunctions.CP_Seidel P0 Pe Ab V0 At pp k Rg T0 r = Ok v
            /\ IbFunctions.CP_Seidel_numpy P0 Pe Ab V0 At pp k Rg T0 r = Ok v)).
Proof.
  split; [intros e; apply CP_Seidel_numpy_never_raises | ].
  split; [intros v; apply CP_Seidel_numpy_agrees | ].
  split; [intros v; apply CP_Seidel_zero_volume_no_value | ].
  intros HP Hk HRT Hr1.
  split; [now apply CP_Seidel_zero_volume | ].
  split.
  - destruct (IbFunctions.CP_Seidel_numpy P0 Pe Ab 0 At pp k Rg T0 r)
      as [v | e | ] eqn:Hnp; [ | | reflexivity].
    + exfalso. revert Hnp. unfold IbFunctions.CP_Seidel_numpy. intros H.
      repeat (apply bind_ok in H; destruct H as [? [_ H]]).
      rewrite np_div_zero in H. discriminate.
    + now elim (CP_Seidel_numpy_never_raises P0 Pe Ab 0 At pp k Rg T0 r e).
  - intros HV.
    destruct (CP_Seidel_nonzero_volume P0 Pe Ab V0 At pp k Rg T0 r) as [v Hv];
      try assumption.
    exists v. split; [exact Hv | now apply CP_Seidel_numpy_agrees].
Qed.

(** C6, as stated, fails: on Python floats a zero free volume makes the
    last division of [CP_Seidel] raise. *)
Lemma CP_Seidel_zero_volume_raises :
  IbFunctions.CP_Seidel 1 0 0 0 0.75 1 2 3 1 1 = Raise ZeroDivisionError
  /\ ~ (forall P0 Pe Ab V0 At pp k Rg T0 r e,
          IbFunctions.CP_Seidel P0 Pe Ab V0 At pp k Rg T0 r <> Raise e).
Proof.
  assert (H : IbFunctions.CP_Seidel 1 0 0 0 0.75 1 2 3 1 1 = Raise ZeroDivisionError)
    by (apply CP_Seidel_zero_volume; lra).
  split; [exact H | ].
  intros Hall. exact (Hall _ _ _ _ _ _ _ _ _ _ _ H).
Qed.

(** ** The Runge-Kutta step *)

(** The step of the code and the classic step on the equation
    [dP0/dt = -P0], from pressure 1 with [dt = 1]. *)
Lemma solve_decay :
  SrmSolver.solve IbFunctions.CP_Seidel 1 0 0 1 0.75 1 2 3 1 1 1 = Ok [5 / 16].
Proof.
  unfold SrmSolver.solve.
  rewrite (CP_Seidel_decay 1) by lra. simpl.
  rewrite (CP_Seidel_decay (1 + 0.5 * - (1) * 1)) by lra. simpl.
  rewrite (CP_Seidel_decay (1 + 0.5 * - (1 + 0.5 * - (1) * 1) * 1)) by lra. simpl.
  rewrite (CP_Seidel_decay
             (1 + 0.5 * - (1 + 0.5 * - (1 + 0.5 * - (1) * 1) * 1) * 1)) by lra.
  simpl. do 2 f_equal. lra.
Qed.

Lemma classic_rk4_step_decay :
  SrmSolver.classic_rk4_step IbFunctions.CP_Seidel 1 0 0 1 0.75 1 2 3 1 1 1
  = Ok [3 / 8].
Proof.
  unfold SrmSolver.classic_rk4_step.
  rewrite (CP_Seidel_decay 1) by lra. simpl.
  rewrite (CP_Seidel_decay (1 + 0.5 * - (1) * 1)) by lra. simpl.
  rewrite (CP_Seidel_decay (1 + 0.5 * - (1 + 0.5 * - (1) * 1) * 1)) by lra. simpl.
  rewrite (CP_Seidel_decay
             (1 + - (1 + 0.5 * - (1 + 0.5 * - (1) * 1) * 1) * 1)) by lra.
  simpl. do 2 f_equal. lra.
Qed.

(** C1.  At chamber pressure 1, a vacuum outside, no burn area, free volume
    1, throat area 0.75, [k = 2], [R = 3], [T0 = 1] and [dt = 1] the
    equation is [dP0/dt = -P0].  [solve] evaluates the fourth derivative at
    [pressure + 0.5*k3*dt] and returns 5/16; the classic Runge-Kutta step,
    with the fourth evaluation at [pressure + k3*dt], gives 3/8. *)
Theorem solve_fourth_stage_at_half_step :
  SrmSolver.solve IbFunctions.CP_Seidel 1 0 0 1 0.75 1 2 3 1 1 1 = Ok [5 / 16]
  /\ SrmSolver.classic_rk4_step IbFunctions.CP_Seidel 1 0 0 1 0.75 1 2 3 1 1 1
     = Ok [3 / 8]
  /\ 5 / 16 <> 3 / 8.
Proof.
  split; [exact solve_decay | split; [exact classic_rk4_step_decay | lra]].
Qed.

(** C10.  Whenever [solve] returns, it returns a tuple of exactly one
    element, the pressure [P + (1/6)*(k1 + 2*(k2 + k3) + k4)*dt] combined
    from the four derivative values the code computed; and it does return
    whenever the derivative function returns at every pressure. *)
Theorem solve_returns_one_element_tuple
  (f : R -> R -> R -> R -> R -> R -> R -> R -> R -> R -> outcome R)
  (P Pe Ab V At pp k Rg T0 r dt : R) :
  (forall v, SrmSolver.solve f P Pe Ab V At pp k Rg T0 r dt = Ok v ->
     List.length v = 1%nat
     /\ exists k1 k2 k3 k4,
          f P Pe Ab V At pp k Rg T0 r = Ok k1
          /\ f (P + 0.5 * k1 * dt) Pe Ab V At pp k Rg T0 r = Ok k2
          /\ f (P + 0.5 * k2 * dt) Pe Ab V At pp k Rg T0 r = Ok k3
          /\ f (P + 0.5 * k3 * dt) Pe Ab V At pp k Rg T0 r = Ok k4
          /\ v = [P + (1 / 6) * (k1 + 2 * (k2 + k3) + k4) * dt])
  /\ ((forall p, exists d, f p Pe Ab V At pp k Rg T0 r = Ok d) ->
      exists p', SrmSolver.solve f P Pe Ab V At pp k Rg T0 r dt = Ok [p']).
Proof.
  split.
  - intros v Hv. unfold SrmSolver.solve in Hv.
    apply bind_ok in Hv. destruct Hv as [k1 [H1 Hv]].
    apply bind_ok in Hv. destruct Hv as [k2 [H2 Hv]].
    apply bind_ok in Hv. destruct Hv as [k3 [H3 Hv]].
    apply bind_ok in Hv. destruct Hv as [k4 [H4 Hv]].
    injection Hv as Hv. subst v.
    split; [reflexivity | ].
    exists k1, k2, k3, k4. repeat split; assumption.
  - intros Htotal. unfold SrmSolver.solve.
    destruct (Htotal P) as [k1 H1]. rewrite H1. simpl.
    destruct (Htotal (P + 0.5 * k1 * dt)) as [k2 H2]. rewrite H2. simpl.
    destruct (Htotal (P + 0.5 * k2 * dt)) as [k3 H3]. rewrite H3. simpl.
    destruct (Htotal (P + 0.5 * k3 * dt)) as [k4 H4]. rewrite H4. simpl.
    eexists; reflexivity.
Qed.

Lemma solve_returns_one_element_tuple_witness :
  List.length [5 / 16] = 1%nat
  /\ exists k1 k2 k3 k4,
       IbFunctions.CP_Seidel 1 0 0 1 0.75 1 2 3 1 1 = Ok k1
       /\ IbFunctions.CP_Seidel (1 + 0.5 * k1 * 1) 0 0 1 0.75 1 2 3 1 1 = Ok k2
       /\ IbFunctions.CP_Seidel (1 + 0.5 * k2 * 1) 0 0 1 0.75 1 2 3 1 1 = Ok k3
       /\ IbFunctions.CP_Seidel (1 + 0.5 * k3 * 1) 0 0 1 0.75 1 2 3 1 1 = Ok k4
       /\ [5 / 16] = [1 + (1 / 6) * (k1 + 2 * (k2 + k3) + k4) * 1].
Proof.
  exact (proj1 (solve_returns_one_element_tuple
                  IbFunctions.CP_Seidel 1 0 0 1 0.75 1 2 3 1 1 1)
               [5 / 16] solve_decay).
Defined.

(** ** Web thickness of BATES segments *)

(** Decides the comparisons of reals a goal branches on, by linear
    arithmetic. *)
Ltac decide_reals :=
  repeat match goal with
    | |- context [Rlt_dec ?a ?b] => destruct (Rlt_dec a b); try lra
    | |- context [Rle_dec ?a ?b] => destruct (Rle_dec a b); try lra
    | |- context [Rgt_dec ?a ?b] => destruct (Rgt_dec a b); try lra
    | |- context [Rge_dec ?a ?b] => destruct (Rge_dec a b); try lra
    | |- context [Req_dec_T ?a ?b] => destruct (Req_dec_T a b); try lra
    end.

Lemma ltb_true (x y : R) : Np.ltb x y = true <-> x < y.
Proof.
  unfold Np.ltb. destruct (Rlt_dec x y); split; intros H;
    try reflexivity; try assumption; try discriminate; contradiction.
Qed.

Lemma ltb_false (x y : R) : Np.ltb x y = false <-> ~ x < y.
Proof.
  unfold Np.ltb. destruct (Rlt_dec x y); split; intros H;
    try reflexivity; try assumption; try discriminate; contradiction.
Qed.

(** What a segment that passes [validate] satisfies. *)
Lemma validate_ok (s : Bates.BatesSegment) :
  Bates.validate s = Ok tt ->
  0 < Bates.core_diameter s < Bates.outer_diameter s
  /\ 0 < Bates.length s /\ 0 <= Bates.spacing s.
Proof.
  unfold Bates.validate, Bates.base_valid. intros H.
  destruct (Np.ltb 0 (Bates.outer_diameter s)) eqn:HD; simpl in H; try discriminate.
  destruct (Np.ltb 0 (Bates.length s)) eqn:HL; simpl in H; try discriminate.
  destruct (Np.ltb (Bates.spacing s) 0) eqn:HS; simpl in H; try discriminate.
  destruct (Rgt_dec (Bates.outer_diameter s) (Bates.core_diameter s)); try discriminate.
  destruct (Rgt_dec (Bates.core_diameter s) 0); try discriminate.
  apply ltb_true in HL. apply ltb_false in HS. lra.
Qed.

Lemma last_linspace (a b d : R) (n : nat) :
  last (Np.linspace a b (S (S n))) d = b.
Proof.
  unfold Np.linspace.
  rewrite (seq_S (S n) 0), map_app. simpl map at 2.
  rewrite last_last.
  replace (S (S n) - 1)%nat with (S n) by lia.
  simpl Nat.add.
  assert (Hn : INR (S n) <> 0) by (apply not_0_INR; lia).
  field. exact Hn.
Qed.

(** The last entry of the web array [BATES.web] builds for one segment. *)
Lemma legacy_web_last (D d L : R) (n : nat) :
  exists row,
    IbFunctions.web
      {| IbFunctions.wr := S (S n); IbFunctions.N := 1;
         IbFunctions.D_grain := D;
         IbFunctions.D_core := [d];
         IbFunctions.L_grain := [L] |} = Ok [row]
    /\ last row 0 = if Rgt_dec (0.5 * (D - d)) L then L / 2 else 0.5 * (D - d).
Proof.
  unfold IbFunctions.web, IbFunctions.web_row. cbn [seq mapM IbFunctions.N].
  cbn [IbFunctions.D_core IbFunctions.L_grain IbFunctions.D_grain IbFunctions.wr
       py_index nth_error bind].
  destruct (Rgt_dec (0.5 * (D - d)) L) as [Hgt | Hle].
  - cbn [bind]. eexists. split; [reflexivity | apply last_linspace].
  - destruct (Rle_dec (0.5 * (D - d)) L) as [_ | Hn]; [ | lra].
    cbn [bind]. eexists. split; [reflexivity | apply last_linspace].
Qed.

(** C4, as the code has it.  [BatesSegment.get_web_thickness] is the radial
    half-gap [0.5*(D - d)] whatever the length: it is the minimum of the
    half-gap and the half-length exactly when the half-gap does not exceed
    the half-length.  The legacy [BATES.web], run with at least two web
    steps on a segment whose length is not negative, ends the web array at
    the minimum of the two in both modes: at the half-gap when that does
    not exceed the half-length (radially limited), at the half-length
    when the half-gap exceeds the length (length limited). *)
Theorem bates_web_thickness_radially_limited (s : Bates.BatesSegment) (n : nat) :
  Bates.get_web_thickness s
  = 0.5 * (Bates.outer_diameter s - Bates.core_diameter s)
  /\ (Bates.get_web_thickness s
      = Rmin (0.5 * (Bates.outer_diameter s - Bates.core_diameter s))
             (Bates.length s / 2)
      <-> 0.5 * (Bates.outer_diameter s - Bates.core_diameter s)
          <= Bates.length s / 2)
  /\ (0 <= Bates.length s ->
      0.5 * (Bates.outer_diameter s - Bates.core_diameter s) <= Bates.length s / 2
      \/ Bates.length s < 0.5 * (Bates.outer_diameter s - Bates.core_diameter s) ->
      exists row,
        IbFunctions.web
          {| IbFunctions.wr := S (S n); IbFunctions.N := 1;
             IbFunctions.D_grain := Bates.outer_diameter s;
             IbFunctions.D_core := [Bates.core_diameter s];
             IbFunctions.L_grain := [Bates.length s] |} = Ok [row]
        /\ last row 0
           = Rmin (0.5 * (Bates.outer_diameter s - Bates.core_diameter s))
                  (Bates.length s / 2)).
Proof.
  unfold Bates.get_web_thickness.
  set (gap := 0.5 * (Bates.outer_diameter s - Bates.core_diameter s)).
  split; [reflexivity | split].
  - split.
    + intros H. rewrite H. apply Rmin_r.
    + intros H. symmetry. now apply Rmin_left.
  - intros HL Hmode.
    destruct (legacy_web_last (Bates.outer_diameter s) (Bates.core_diameter s)
                (Bates.length s) n) as [row [Hrow Hlast]].
    exists row. split; [exact Hrow | ].
    rewrite Hlast. fold gap.
    destruct (Rgt_dec gap (Bates.length s)) as [Hgt | Hle].
    + symmetry. apply Rmin_right. lra.
    + symmetry. apply Rmin_left. destruct Hmode as [H | H]; lra.
Qed.

Lemma bates_web_thickness_radially_limited_witness :
  (exists row,
     IbFunctions.web
       {| IbFunctions.wr := 2; IbFunctions.N := 1;
          IbFunctions.D_grain := 117e-3;
          IbFunctions.D_core := [45e-3];
          IbFunctions.L_grain := [200e-3] |} = Ok [row]
     /\ last row 0 = Rmin (0.5 * (117e-3 - 45e-3)) (200e-3 / 2))
  /\ (exists row,
        IbFunctions.web
          {| IbFunctions.wr := 2; IbFunctions.N := 1;
             IbFunctions.D_grain := 100e-3;
             IbFunctions.D_core := [30e-3];
             IbFunctions.L_grain := [20e-3] |} = Ok [row]
        /\ last row 0 = Rmin (0.5 * (100e-3 - 30e-3)) (20e-3 / 2)).
Proof.
  split.
  - apply (bates_web_thickness_radially_limited Grain.bates_segment_olympus_45 0).
    + simpl. lra.
    + left. simpl. lra.
  - apply (bates_web_thickness_radially_limited
             {| Bates.outer_diameter := 100e-3; Bates.core_diameter := 30e-3;
                Bates.length := 20e-3; Bates.spacing := 10e-3 |} 0).
    + simpl. lra.
    + right. simpl. lra.
Defined.

(** C4, as stated, fails: a valid segment 100 mm wide with a 30 mm core and
    40 mm long has web thickness 35 mm, not the half-length 20 mm. *)
Lemma bates_web_thickness_ignores_length :
  let s := {| Bates.outer_diameter := 100e-3; Bates.core_diameter := 30e-3;
              Bates.length := 40e-3; Bates.spacing := 10e-3 |} in
  Bates.validate s = Ok tt
  /\ Bates.get_web_thickness s = 35e-3
  /\ Rmin (0.5 * (Bates.outer_diameter s - Bates.core_diameter s))
          (Bates.length s / 2) = 20e-3
  /\ Bates.get_web_thickness s
     <> Rmin (0.5 * (Bates.outer_diameter s - Bates.core_diameter s))
             (Bates.length s / 2).
Proof.
  cbv zeta.
  assert (Hmin : Rmin (0.5 * (100e-3 - 30e-3)) (40e-3 / 2) = 20e-3)
    by (rewrite Rmin_right; lra).
  split; [ | split; [ | split]].
  - unfold Bates.validate, Bates.base_valid, Np.ltb. simpl.
    decide_reals. simpl. decide_reals. reflexivity.
  - unfold Bates.get_web_thickness. simpl. lra.
  - simpl. exact Hmin.
  - unfold Bates.get_web_thickness. simpl. rewrite Hmin. lra.
Qed.

(** The legacy [BATES.web] compares the half-gap with the length, not the
    half-length: for the same dimensions (half-gap 35 mm between the
    half-length 20 mm and the length 40 mm) its web array ends at 35 mm. *)
Example legacy_web_between_half_and_full_length :
  exists row,
    IbFunctions.web
      {| IbFunctions.wr := 2; IbFunctions.N := 1;
         IbFunctions.D_grain := 100e-3;
         IbFunctions.D_core := [30e-3];
         IbFunctions.L_grain := [40e-3] |} = Ok [row]
    /\ last row 0 = 35e-3.
Proof.
  unfold IbFunctions.web, IbFunctions.web_row. cbn [seq mapM IbFunctions.N].
  cbn [IbFunctions.D_core IbFunctions.L_grain IbFunctions.D_grain IbFunctions.wr
       py_index nth_error bind].
  destruct (Rgt_dec (0.5 * (100e-3 - 30e-3)) 40e-3) as [Hgt | _]; [lra | ].
  destruct (Rle_dec (0.5 * (100e-3 - 30e-3)) 40e-3) as [_ | Hn]; [ | lra].
  cbn [bind]. eexists. split; [reflexivity | ].
  rewrite last_linspace. lra.
Qed.

(** ** Total length of a grain *)

Lemma fold_left_total_length (grain : Grain.Grain) (acc : R) :
  fold_left (fun total_length segment =>
               total_length + (Bates.length segment + Bates.spacing segment))
            grain acc
  = acc + Np.sum (map (fun s => Bates.length s + Bates.spacing s) grain).
Proof.
  revert acc. induction grain as [ | s grain IH]; intros acc; simpl.
  - lra.
  - rewrite IH. lra.
Qed.

(** ** Thrust-coefficient losses *)

Section LossesAboveCriticalRatio.

Variables (P0 : list R) (Pe : R) (P0psi : list R).
Variables (Isp_frozen Isp_shifting : R) (E : list R) (Dt qsi : R).
Variables (critical_pressure_ratio C1 C2 : R) (V0 : list R) (M : R) (t : list R).

Let step := IbFunctions.correction_step P0 Pe P0psi Isp_frozen Isp_shifting E
              Dt qsi critical_pressure_ratio C1 C2 V0 M t.
Let loop := IbFunctions.correction_loop P0 Pe P0psi Isp_frozen Isp_shifting E
              Dt qsi critical_pressure_ratio C1 C2 V0 M t.
Let kinetic := IbFunctions.kinetic_loss P0psi Isp_frozen Isp_shifting.

(** The entries the loop stores at a position are those its body computed
    for the index at that position. *)
Lemma correction_loop_entry (indices : list nat) :
  forall (st : IbFunctions.locals) (n_kin n_tp n_bl : list R),
    loop indices st = Ok (n_kin, n_tp, n_bl) ->
    forall (j i : nat), nth_error indices j = Some i ->
      exists st_in nk ntp nbl st_out,
        step i st_in = Ok (nk, ntp, nbl, st_out)
        /\ nth_error n_kin j = Some nk
        /\ nth_error n_tp j = Some ntp
        /\ nth_error n_bl j = Some nbl.
Proof.
  induction indices as [ | i0 rest IH]; intros st n_kin n_tp n_bl Hloop j i Hj.
  - destruct j; discriminate.
  - unfold loop in Hloop. simpl in Hloop.
    apply bind_ok in Hloop. destruct Hloop as [[[[nk ntp] nbl] st1] [Hstep Hloop]].
    apply bind_ok in Hloop. destruct Hloop as [[[nks ntps] nbls] [Hrest Hloop]].
    simpl in Hloop. injection Hloop as Hk Ht Hb. subst n_kin n_tp n_bl.
    destruct j as [ | j].
    + simpl in Hj. injection Hj as Hj. subst i0.
      exists st, nk, ntp, nbl, st1. repeat split. exact Hstep.
    + simpl in Hj. simpl.
      exact (IH st1 nks ntps nbls Hrest j i Hj).
Qed.

(** Above the critical pressure ratio the body of the loop stores the
    kinetic loss and two zeros, and leaves the locals alone. *)
Lemma correction_step_above (i : nat) (p : R) (st : IbFunctions.locals) :
  nth_error P0 i = Some p -> p <> 0 -> Pe / p > critical_pressure_ratio ->
  step i st = (nk <- kinetic i ;; Ok (nk, 0, 0, st)).
Proof.
  intros Hp Hp0 Habove.
  unfold step, IbFunctions.correction_step, kinetic.
  destruct (IbFunctions.kinetic_loss P0psi Isp_frozen Isp_shifting i) as [nk | e | ];
    simpl; try reflexivity.
  unfold py_index. rewrite Hp. simpl.
  rewrite py_div_ok by exact Hp0. simpl.
  destruct (Rle_dec (Pe / p) critical_pressure_ratio); [lra | reflexivity].
Qed.

Lemma kinetic_loss_value (i : nat) (psi nk : R) :
  nth_error P0psi i = Some psi -> kinetic i = Ok nk ->
  nk = (if Rge_dec psi 200
        then 33.3 * 200 * (Isp_frozen / Isp_shifting) / psi
        else 0).
Proof.
  intros Hpsi. unfold kinetic, IbFunctions.kinetic_loss, py_index.
  rewrite Hpsi. simpl.
  destruct (Rge_dec psi 200) as [Hge | Hlt].
  - unfold py_div.
    destruct (Req_dec_T Isp_shifting 0); simpl; try discriminate.
    destruct (Req_dec_T psi 0); simpl; try discriminate.
    intros H. injection H as H. symmetry. exact H.
  - intros H. injection H as H. symmetry. exact H.
Qed.

(** C7, as the code has it.  At every index [i] where [Pe/P0[i]] is above
    the critical pressure ratio, the two-phase loss [n_tp[i]] and the
    boundary-layer loss [n_bl[i]] are zero.  The kinetic loss [n_kin[i]]
    does not depend on the pressure ratio: it is zero only where
    [P0psi[i] < 200], and [33.3 * 200 * (Isp_frozen / Isp_shifting) /
    P0psi[i]] elsewhere. *)
Theorem losses_above_critical_ratio (index i : nat) (p psi : R) :
  (i < index)%nat ->
  nth_error P0 i = Some p -> nth_error P0psi i = Some psi ->
  p <> 0 -> Pe / p > critical_pressure_ratio ->
  (forall st, step i st = (nk <- kinetic i ;; Ok (nk, 0, 0, st)))
  /\ forall n_kin n_tp n_bl,
       IbFunctions.operational_correction_factors P0 Pe P0psi Isp_frozen
         Isp_shifting E Dt qsi critical_pressure_ratio C1 C2 V0 M t index
       = Ok (n_kin, n_tp, n_bl) ->
       nth_error n_tp i = Some 0
       /\ nth_error n_bl i = Some 0
       /\ nth_error n_kin i
          = Some (if Rge_dec psi 200
                  then 33.3 * 200 * (Isp_frozen / Isp_shifting) / psi
                  else 0).
Proof.
  intros Hi Hp Hpsi Hp0 Habove.
  split; [intros st; now apply (correction_step_above i p) | ].
  intros n_kin n_tp n_bl Hrun.
  unfold IbFunctions.operational_correction_factors in Hrun.
  destruct (correction_loop_entry (seq 0 index) _ _ _ _ Hrun i i)
    as [st_in [nk [ntp [nbl [st_out [Hstep [Hk [Ht Hb]]]]]]]].
  { rewrite nth_error_nth' with (d := 0%nat) by (rewrite length_seq; exact Hi).
    rewrite seq_nth by exact Hi. reflexivity. }
  rewrite (correction_step_above i p st_in Hp Hp0 Habove) in Hstep.
  apply bind_ok in Hstep. destruct Hstep as [nk' [Hkin Hstep]].
  injection Hstep as Hnk Hntp Hnbl _. subst nk ntp nbl.
  rewrite Ht, Hb, Hk.
  rewrite (kinetic_loss_value i psi nk' Hpsi Hkin). repeat split.
Qed.

End LossesAboveCriticalRatio.

Lemma losses_above_critical_ratio_witness :
  (forall st,
     IbFunctions.correction_step [1] 1 [100] 1 1 [1] 1 1 0.5 1 1 [1; 1] 1 [0] 0 st
     = (nk <- IbFunctions.kinetic_loss [100] 1 1 0 ;; Ok (nk, 0, 0, st)))
  /\ forall n_kin n_tp n_bl,
       IbFunctions.operational_correction_factors
         [1] 1 [100] 1 1 [1] 1 1 0.5 1 1 [1; 1] 1 [0] 1
       = Ok (n_kin, n_tp, n_bl) ->
       nth_error n_tp 0 = Some 0
       /\ nth_error n_bl 0 = Some 0
       /\ nth_error n_kin 0
          = Some (if Rge_dec 100 200 then 33.3 * 200 * (1 / 1) / 100 else 0).
Proof.
  apply (losses_above_critical_ratio
           [1] 1 [100] 1 1 [1] 1 1 0.5 1 1 [1; 1] 1 [0] 1 0 1 100).
  - lia.
  - reflexivity.
  - reflexivity.
  - lra.
  - lra.
Defined.

(** C7, as stated, fails: with [Pe/P0[0] = 1] above the critical ratio 0.5
    and [P0psi[0] = 200], the function returns and the kinetic loss is
    33.3, not zero. *)
Lemma kinetic_loss_above_critical_ratio :
  IbFunctions.operational_correction_factors
    [1] 1 [200] 1 1 [1] 1 1 0.5 1 1 [1; 1] 1 [0] 1
  = Ok ([33.3 * 200 * (1 / 1) / 200], [0], [0])
  /\ 1 / 1 > 0.5
  /\ 33.3 * 200 * (1 / 1) / 200 <> 0.
Proof.
  split; [ | split; lra].
  unfold IbFunctions.operational_correction_factors. simpl seq.
  unfold IbFunctions.correction_loop, IbFunctions.correction_step,
    IbFunctions.kinetic_loss, py_index.
  cbn [nth_error bind].
  destruct (Rge_dec 200 200) as [_ | Hn]; [ | lra].
  repeat (rewrite py_div_ok by lra; cbn [bind]).
  destruct (Rle_dec (1 / 1) 0.5) as [Hle | _]; [lra | ].
  reflexivity.
Qed.

(** ** Contour length *)

Lemma last_nth_pred {A : Type} (l : list A) (d d' : A) :
  l <> [] -> last l d = nth (List.length l - 1) l d'.
Proof.
  induction l as [ | a l IH]; intros Hne; [now elim Hne | ].
  destruct l as [ | b l]; [reflexivity | ].
  change (last (a :: b :: l) d) with (last (b :: l) d).
  rewrite IH by discriminate. simpl. now rewrite Nat.sub_0_r.
Qed.

Lemma nth_removelast {A : Type} (l : list A) (j : nat) (d : A) :
  (j < List.length l - 1)%nat -> nth j (removelast l) d = nth j l d.
Proof.
  revert j. induction l as [ | a l IH]; intros j Hj; [simpl in Hj; lia | ].
  destruct l as [ | b l]; [simpl in Hj; lia | ].
  change (removelast (a :: b :: l)) with (a :: removelast (b :: l)).
  destruct j as [ | j]; [reflexivity | ].
  simpl nth. apply IH. simpl in Hj |- *. lia.
Qed.

Lemma length_removelast {A : Type} (l : list A) :
  List.length (removelast l) = (List.length l - 1)%nat.
Proof.
  induction l as [ | a l IH]; [reflexivity | ].
  destruct l as [ | b l]; [reflexivity | ].
  change (removelast (a :: b :: l)) with (a :: removelast (b :: l)).
  simpl List.length in *. rewrite IH. lia.
Qed.

Lemma length_roll1 {A : Type} (l : list A) :
  List.length (Np.roll1 l) = List.length l.
Proof.
  destruct l as [ | a l]; [reflexivity | ].
  unfold Np.roll1. cbn [List.length]. rewrite length_removelast. simpl. lia.
Qed.

(** Entry [j] of the rolled contour is the point before point [j]. *)
Lemma nth_roll1 {A : Type} (l : list A) (j : nat) (d : A) :
  (j < List.length l)%nat ->
  nth j (Np.roll1 l) d = nth (previous_index (List.length l) j) l d.
Proof.
  intros Hj. destruct l as [ | a l]; [simpl in Hj; lia | ].
  unfold Np.roll1. destruct j as [ | j].
  - change (last (a :: l) a = nth (List.length (a :: l) - 1) (a :: l) d).
    apply last_nth_pred. discriminate.
  - change (nth j (removelast (a :: l)) d = nth j (a :: l) d).
    apply nth_removelast. lia.
Qed.

(** A masked sum adds the entries whose mask is true. *)
Lemma sum_select_map {A : Type} (g : A -> R) (v : A -> bool) (z : list A) :
  Np.sum (Np.select (map g z) (map v z))
  = Np.sum (map (fun a => if v a then g a else 0) z).
Proof.
  unfold Np.select. induction z as [ | a z IH]; [reflexivity | ].
  simpl. destruct (v a); simpl; rewrite IH; lra.
Qed.

Lemma get_length_interior (contour : list (R * R)) (map_size : Z) (tolerance : R) :
  Geometric.get_length contour map_size tolerance
  = interior_length contour map_size tolerance.
Proof.
  unfold Geometric.get_length, Geometric.segment_lengths, Geometric.radii,
    interior_length.
  rewrite map_map.
  set (z := combine contour (Np.roll1 contour)).
  assert (Hz : z = map (fun j => (point contour j,
                                  point contour
                                    (previous_index (List.length contour) j)))
                       (seq 0 (List.length contour))).
  { apply (nth_ext _ _ ((0, 0), (0, 0)) ((0, 0), (0, 0))).
    - unfold z. rewrite length_combine, length_roll1, length_map, length_seq.
      apply Nat.min_id.
    - intros j Hj. unfold z in Hj |- *.
      rewrite length_combine, length_roll1, Nat.min_id in Hj.
      rewrite combine_nth by (now rewrite length_roll1).
      rewrite nth_roll1 by exact Hj.
      rewrite (nth_indep _ _ (point contour 0, point contour
                                (previous_index (List.length contour) 0)))
        by (rewrite length_map, length_seq; exact Hj).
      rewrite (map_nth (fun j => (point contour j,
                                  point contour
                                    (previous_index (List.length contour) j)))).
      rewrite seq_nth by exact Hj. reflexivity. }
  assert (Hc : contour = map fst z).
  { rewrite Hz, map_map. simpl.
    apply (nth_ext _ _ (0, 0) (point contour 0)).
    - now rewrite length_map, length_seq.
    - intros j Hj.
      rewrite (map_nth (fun j => point contour j)).
      rewrite seq_nth by exact Hj. reflexivity. }
  rewrite Hc at 1. rewrite map_map.
  rewrite (sum_select_map
             (fun pq => Np.norm2 (Np.sub2 (fst pq) (snd pq)))
             (fun pq => Np.ltb (Np.norm2 (Np.sub2 (fst pq)
                                   (IZR map_size / 2, IZR map_size / 2)))
                               (IZR map_size / 2 - tolerance))).
  rewrite Hz, map_map. f_equal.
  apply map_ext. intros j. cbn [fst snd].
  unfold Np.ltb, distance, map_centre, Np.norm2, Np.sub2. cbn [fst snd].
  destruct (Rlt_dec _ _); reflexivity.
Qed.

(** C9.  For every contour, map size and tolerance, [get_length] sums the
    lengths of exactly those segments between consecutive points (the
    closing segment from the last point to the first included) whose end
    point lies strictly inside the circle of radius [map_size/2 -
    tolerance] about the centre of the map; the tolerance defaults to 3
    cells, and [get_core_perimeter] adds up these lengths, with that
    default, over the contours at the normalised web distance. *)
Theorem get_length_sums_interior_segments
  (contour : list (R * R)) (map_size : Z) (tolerance : R)
  (self : Fmm2D.FMMGrainSegment2D) (normalize : R -> R)
  (regression_map : list (list R))
  (find_contours : list (list R) -> R -> list (list (R * R)))
  (web_distance : R) :
  Geometric.get_length contour map_size tolerance
  = interior_length contour map_size tolerance
  /\ Geometric.default_tolerance = 3
  /\ Fmm2D.get_core_perimeter self normalize regression_map find_contours
       web_distance
     = (parts <-
          mapM (fun c =>
                  Fmm2D.map_to_length self
                    (interior_length c (Z.of_nat (Fmm2D.map_dim self)) 3))
               (find_contours regression_map (normalize web_distance)) ;;
        Ok (Np.sum parts)).
Proof.
  split; [apply get_length_interior | ].
  split; [unfold Geometric.default_tolerance; lra | ].
  unfold Fmm2D.get_core_perimeter, Fmm2D.get_contours.
  f_equal.
  induction (find_contours regression_map (normalize web_distance)) as [ | c cs IH];
    [reflexivity | ].
  simpl. rewrite IH, get_length_interior.
  replace Geometric.default_tolerance with 3
    by (unfold Geometric.default_tolerance; lra).
  reflexivity.
Qed.

(** A square contour well inside a map of 100 cells: all four sides count;
    the same square at the edge of a map of 12 cells: none does. *)
Example interior_length_square :
  interior_length [(49, 49); (49, 51); (51, 51); (51, 49)] 100 3 = 8
  /\ interior_length [(0, 0); (0, 2); (2, 2); (2, 0)] 12 3 = 0.
Proof.
  assert (H4 : sqrt 4 = 2).
  { replace 4 with (2 * 2) by lra. apply sqrt_square. lra. }
  assert (H2 : 1 < sqrt 2 < 2).
  { split.
    - rewrite <- sqrt_1 at 1. apply sqrt_lt_1; lra.
    - rewrite <- H4. apply sqrt_lt_1; lra. }
  assert (H72 : 7 < sqrt 72).
  { replace 7 with (sqrt (7 * 7)) by (apply sqrt_square; lra).
    apply sqrt_lt_1; lra. }
  assert (H52 : 7 < sqrt 52).
  { replace 7 with (sqrt (7 * 7)) by (apply sqrt_square; lra).
    apply sqrt_lt_1; lra. }
  assert (H32 : 5 < sqrt 32).
  { replace 5 with (sqrt (5 * 5)) by (apply sqrt_square; lra).
    apply sqrt_lt_1; lra. }
  split.
  - unfold interior_length, distance, point, map_centre, previous_index.
    cbn [List.length seq map nth fst snd Nat.sub Np.sum fold_right].
    replace ((49 - 100 / 2) * (49 - 100 / 2) + (49 - 100 / 2) * (49 - 100 / 2))
      with 2 by lra.
    replace ((49 - 100 / 2) * (49 - 100 / 2) + (51 - 100 / 2) * (51 - 100 / 2))
      with 2 by lra.
    replace ((51 - 100 / 2) * (51 - 100 / 2) + (51 - 100 / 2) * (51 - 100 / 2))
      with 2 by lra.
    replace ((51 - 100 / 2) * (51 - 100 / 2) + (49 - 100 / 2) * (49 - 100 / 2))
      with 2 by lra.
    destruct (Rlt_dec (sqrt 2) (100 / 2 - 3)) as [_ | Hn]; [ | lra].
    replace ((49 - 51) * (49 - 51) + (49 - 49) * (49 - 49)) with 4 by lra.
    replace ((49 - 49) * (49 - 49) + (51 - 49) * (51 - 49)) with 4 by lra.
    replace ((51 - 49) * (51 - 49) + (51 - 51) * (51 - 51)) with 4 by lra.
    replace ((51 - 51) * (51 - 51) + (49 - 51) * (49 - 51)) with 4 by lra.
    rewrite H4. lra.
  - unfold interior_length, distance, point, map_centre, previous_index.
    cbn [List.length seq map nth fst snd Nat.sub Np.sum fold_right].
    replace ((0 - 12 / 2) * (0 - 12 / 2) + (0 - 12 / 2) * (0 - 12 / 2))
      with 72 by lra.
    replace ((0 - 12 / 2) * (0 - 12 / 2) + (2 - 12 / 2) * (2 - 12 / 2))
      with 52 by lra.
    replace ((2 - 12 / 2) * (2 - 12 / 2) + (2 - 12 / 2) * (2 - 12 / 2))
      with 32 by lra.
    replace ((2 - 12 / 2) * (2 - 12 / 2) + (0 - 12 / 2) * (0 - 12 / 2))
      with 52 by lra.
    destruct (Rlt_dec (sqrt 72) (12 / 2 - 3)); [lra | ].
    destruct (Rlt_dec (sqrt 52) (12 / 2 - 3)); [lra | ].
    destruct (Rlt_dec (sqrt 32) (12 / 2 - 3)); [lra | ].
    lra.
Qed.

Lemma get_length_sums_interior_segments_witness :
  Geometric.get_length [(49, 49); (49, 51); (51, 51); (51, 49)] 100 3 = 8.
Proof.
  rewrite (proj1 (get_length_sums_interior_segments
                    [(49, 49); (49, 51); (51, 51); (51, 49)] 100 3
                    corner_segment (fun v => v) [] (fun _ _ => []) 0)).
  exact (proj1 interior_length_square).
Defined.

(** ** The raster segment: centre of gravity *)

Lemma in_where_row (r : nat) (row : list bool) (r' c : nat) :
  In (r', c) (Np.where_row r row) <-> r' = r /\ nth c row false = true.
Proof.
  unfold Np.where_row. rewrite in_map_iff. split.
  - intros [c0 [Heq Hin]]. injection Heq as Hr Hc. subst r' c0.
    apply filter_In in Hin. destruct Hin as [_ Hc]. split; [reflexivity | exact Hc].
  - intros [Hr Hc]. subst r'. exists c. split; [reflexivity | ].
    apply filter_In. split; [ | exact Hc].
    apply in_seq. split; [lia | ]. simpl.
    destruct (Nat.lt_ge_cases c (List.length row)) as [Hlt | Hge]; [exact Hlt | ].
    rewrite nth_overflow in Hc by exact Hge. discriminate.
Qed.

(** [np.where] lists exactly the cells that are true. *)
Lemma in_where_from (mask : list (list bool)) :
  forall r r' c,
    In (r', c) (Np.where_from r mask)
    <-> (r <= r')%nat /\ nth c (nth (r' - r) mask []) false = true.
Proof.
  induction mask as [ | row rest IH]; intros r r' c.
  - simpl. split; [intros [] | ].
    intros [_ H]. destruct (r' - r)%nat; destruct c; discriminate.
  - simpl Np.where_from. rewrite in_app_iff, in_where_row, IH. split.
    + intros [[Hr Hc] | [Hle Hc]].
      * subst r'. split; [lia | ]. now rewrite Nat.sub_diag.
      * split; [lia | ].
        replace (r' - r)%nat with (S (r' - S r)) by lia. exact Hc.
    + intros [Hle Hc].
      destruct (Nat.eq_dec r' r) as [Heq | Hne].
      * left. subst r'. rewrite Nat.sub_diag in Hc. split; [reflexivity | exact Hc].
      * right. split; [lia | ].
        replace (r' - r)%nat with (S (r' - S r)) in Hc by lia. exact Hc.
Qed.

Lemma combine_fst_snd {A B : Type} (l : list (A * B)) :
  combine (map fst l) (map snd l) = l.
Proof.
  induction l as [ | [a b] l IH]; [reflexivity | ]. simpl. now rewrite IH.
Qed.

Lemma eqb_true (x y : R) : Np.eqb x y = true <-> x = y.
Proof.
  unfold Np.eqb. destruct (Req_dec_T x y); split; intros H;
    try reflexivity; try assumption; try discriminate; contradiction.
Qed.

(** A cell of the mask [face_map == 1] is true exactly when the cell of the
    face map is 1. *)
Lemma nth_active_mask (face_map : list (list R)) (r c : nat) :
  nth c (nth r (map (map (fun v => Np.eqb v 1)) face_map) []) false = true
  <-> nth c (nth r face_map []) 0 = 1.
Proof.
  change (@nil bool) with (map (fun v => Np.eqb v 1) []).
  rewrite map_nth.
  destruct (Nat.lt_ge_cases c (List.length (nth r face_map []))) as [Hlt | Hge].
  - rewrite (nth_indep _ false (Np.eqb 0 1)) by (now rewrite length_map).
    rewrite (map_nth (fun v => Np.eqb v 1)). apply eqb_true.
  - rewrite !nth_overflow by (try rewrite length_map; exact Hge).
    split; [discriminate | lra].
Qed.

(** *** Sums over the active cells *)

Lemma sum_app (l l' : list R) : Np.sum (l ++ l') = Np.sum l + Np.sum l'.
Proof.
  unfold Np.sum. induction l as [ | x l IH]; cbn [app fold_right]; [lra | ].
  rewrite IH. lra.
Qed.

(** The columns [np.where] finds in a row, from column [c0] on, add up to
    the total of the row read cell by cell. *)
Lemma filter_seq_total (weight : nat -> R) (row : list R) :
  forall c0,
    Np.sum (map weight
              (filter (fun c => nth (c - c0) (map (fun v => Np.eqb v 1) row) false)
                      (seq c0 (List.length row))))
    = row_total weight c0 row.
Proof.
  induction row as [ | v rest IH]; intros c0; [reflexivity | ].
  cbn [List.length seq filter map row_total].
  rewrite Nat.sub_diag. cbn [nth]. unfold Np.eqb at 1.
  rewrite (filter_ext_in
             (fun c => nth (c - c0) (Np.eqb v 1 :: map (fun v0 => Np.eqb v0 1) rest)
                           false)
             (fun c => nth (c - S c0) (map (fun v0 => Np.eqb v0 1) rest) false)).
  - destruct (Req_dec_T v 1); cbn [map]; unfold Np.sum in *; cbn [fold_right];
      rewrite IH; lra.
  - intros c Hc. apply in_seq in Hc.
    replace (c - c0)%nat with (S (c - S c0)) by lia. reflexivity.
Qed.

Lemma where_from_total (weight : nat -> nat -> R) (face_map : list (list R)) :
  forall r0,
    Np.sum (map (fun rc => weight (fst rc) (snd rc))
                (Np.where_from r0 (map (map (fun v => Np.eqb v 1)) face_map)))
    = map_total weight r0 face_map.
Proof.
  induction face_map as [ | row rest IH]; intros r0; [reflexivity | ].
  cbn [map Np.where_from map_total]. rewrite map_app, sum_app, IH. f_equal.
  unfold Np.where_row. rewrite map_map, length_map. cbn [fst snd].
  rewrite <- (filter_seq_total (weight r0) row 0). do 2 f_equal.
  apply filter_ext. intros c. now rewrite Nat.sub_0_r.
Qed.

Lemma sum_map_offset {A : Type} (f : A -> R) (a : R) (l : list A) :
  Np.sum (map (fun x => f x - a) l) = Np.sum (map f l) - INR (List.length l) * a.
Proof.
  induction l as [ | x l IH]; [simpl; lra | ].
  change (List.length (x :: l)) with (S (List.length l)). rewrite S_INR.
  unfold Np.sum in *. cbn [map fold_right]. rewrite IH. lra.
Qed.

Lemma sum_map_one {A : Type} (l : list A) :
  Np.sum (map (fun _ => 1) l) = INR (List.length l).
Proof.
  induction l as [ | x l IH]; [reflexivity | ].
  change (List.length (x :: l)) with (S (List.length l)). rewrite S_INR.
  unfold Np.sum in *. cbn [map fold_right]. rewrite IH. lra.
Qed.

(** The mean offset of the active cells from the middle of the grid is
    their centroid in grid coordinates less [map_dim / 2]: along the
    columns and along the rows. *)
Lemma mean_offsets_centroid (face_map : list (list R)) (a : R) :
  Np.where_from 0 (map (map (fun v => Np.eqb v 1)) face_map) <> [] ->
  Np.mean (map (fun i => INR i - a)
               (map snd (Np.where_from 0 (map (map (fun v => Np.eqb v 1)) face_map))))
  = fst (grid_centroid face_map) - a
  /\ Np.mean (map (fun i => INR i - a)
                  (map fst (Np.where_from 0
                              (map (map (fun v => Np.eqb v 1)) face_map))))
     = snd (grid_centroid face_map) - a.
Proof.
  intros Hne.
  set (cells := Np.where_from 0 (map (map (fun v => Np.eqb v 1)) face_map)) in *.
  assert (Hcount : solid_cell_count face_map = INR (List.length cells)).
  { unfold solid_cell_count.
    rewrite <- (where_from_total (fun _ _ => 1) face_map 0). fold cells.
    apply sum_map_one. }
  assert (Hpos : INR (List.length cells) <> 0).
  { apply not_0_INR. destruct cells; [now elim Hne | discriminate]. }
  unfold grid_centroid, Np.mean. cbn [fst snd].
  rewrite Hcount, !length_map, !map_map, !sum_map_offset.
  rewrite <- (where_from_total (fun _ c => INR c) face_map 0).
  rewrite <- (where_from_total (fun r _ => INR r) face_map 0).
  fold cells. cbn [fst snd].
  split; field; exact Hpos.
Qed.

Section CentreOfGravity.

Variable self : Fmm2D.FMMGrainSegment2D.
Variable get_web_thickness : R.
Variable get_face_map : R -> list (list R).

Let cog := Fmm2D.get_center_of_gravity self get_web_thickness get_face_map.
Let y_indices (x : R) := fst (Fmm2D.active_cells get_face_map x).
Let x_indices (x : R) := snd (Fmm2D.active_cells get_face_map x).
Let shift (i : nat) : R := INR i - INR (Fmm2D.map_dim self) / 2.

(** The index lists name exactly the cells of the face map that are 1. *)
Lemma active_cells_spec (x : R) (r c : nat) :
  In (r, c) (combine (y_indices x) (x_indices x))
  <-> nth c (nth r (get_face_map x) []) 0 = 1.
Proof.
  unfold y_indices, x_indices, Fmm2D.active_cells, Np.where2. cbn [fst snd].
  rewrite combine_fst_snd, in_where_from, Nat.sub_0_r, nth_active_mask.
  split; [intros [_ H]; exact H | intros H; split; [lia | exact H]].
Qed.

Lemma x_indices_nil (x : R) :
  x_indices x = [] <-> forall r c, nth c (nth r (get_face_map x) []) 0 <> 1.
Proof.
  split.
  - intros Hnil r c Hcell. apply active_cells_spec in Hcell.
    rewrite Hnil in Hcell. destruct (y_indices x); destruct Hcell.
  - intros Hnone.
    destruct (combine (y_indices x) (x_indices x)) as [ | [r c] l] eqn:Hcells.
    + unfold y_indices, x_indices, Fmm2D.active_cells, Np.where2 in Hcells |- *.
      cbn [fst snd] in Hcells |- *. rewrite combine_fst_snd in Hcells.
      now rewrite Hcells.
    + exfalso. apply (Hnone r c). apply active_cells_spec.
      rewrite Hcells. now left.
Qed.

Lemma length_indices (x : R) :
  List.length (y_indices x) = List.length (x_indices x).
Proof.
  unfold y_indices, x_indices, Fmm2D.active_cells, Np.where2. cbn [fst snd].
  now rewrite !length_map.
Qed.

(** The three cases of [get_center_of_gravity]. *)
Lemma cog_cases (x : R) :
  cog x
  = if Rgt_dec x get_web_thickness then Raise GrainGeometryError
    else match x_indices x with
         | [] => Raise GrainGeometryError
         | _ :: _ =>
             x_cog <- Fmm2D.map_to_length self (Np.mean (map shift (x_indices x))) ;;
             y_cog <- Fmm2D.map_to_length self (Np.mean (map shift (y_indices x))) ;;
             Ok (x_cog, y_cog, Fmm2D.length self / 2)
         end.
Proof.
  unfold cog, Fmm2D.get_center_of_gravity.
  destruct (Rgt_dec x get_web_thickness); [reflexivity | ].
  pose proof (length_indices x) as Hlen.
  unfold y_indices, x_indices in *.
  destruct (Fmm2D.active_cells get_face_map x) as [ys xs]. cbn [fst snd] in *.
  destruct xs as [ | x0 xs]; [reflexivity | ].
  destruct ys as [ | y0 ys]; [discriminate | ].
  reflexivity.
Qed.

(** C8.  [get_center_of_gravity(x)] raises [GrainGeometryError] if and only
    if [x] exceeds the web thickness or no cell of the face map at [x]
    holds active material.  Otherwise, on a map with at least one cell a
    side, it returns the area-weighted centroid of the active cells, taken
    in grid coordinates (column, row) and brought to physical units: the
    origin at the middle [map_dim / 2] of the grid, a cell
    [outer_diameter / map_dim] wide; the axial coordinate is [length / 2].
    The cells averaged are exactly the cells of the face map equal to 1. *)
Theorem center_of_gravity_contract (x : R) :
  (0 < Fmm2D.map_dim self)%nat ->
  (cog x = Raise GrainGeometryError
   <-> x > get_web_thickness
       \/ forall r c, nth c (nth r (get_face_map x) []) 0 <> 1)
  /\ (~ x > get_web_thickness ->
      (exists r c, nth c (nth r (get_face_map x) []) 0 = 1) ->
      cog x
      = Ok (denormalized (Fmm2D.outer_diameter self) (Fmm2D.map_dim self)
              (fst (grid_centroid (get_face_map x))),
            denormalized (Fmm2D.outer_diameter self) (Fmm2D.map_dim self)
              (snd (grid_centroid (get_face_map x))),
            Fmm2D.length self / 2))
  /\ forall r c,
       In (r, c) (combine (y_indices x) (x_indices x))
       <-> nth c (nth r (get_face_map x) []) 0 = 1.
Proof.
  intros Hdim.
  assert (Hmd : INR (Fmm2D.map_dim self) <> 0) by (apply not_0_INR; lia).
  split; [ | split; [ | intros r c; apply active_cells_spec]].
  - rewrite cog_cases. split.
    + destruct (Rgt_dec x get_web_thickness) as [Hgt | Hle]; [now left | ].
      destruct (x_indices x) as [ | x0 xs] eqn:Hxs.
      * intros _. right. exact (proj1 (x_indices_nil x) Hxs).
      * unfold Fmm2D.map_to_length. rewrite !np_div_ok by exact Hmd.
        simpl. discriminate.
    + intros [Hgt | Hnone].
      * destruct (Rgt_dec x get_web_thickness); [reflexivity | contradiction].
      * rewrite (proj2 (x_indices_nil x) Hnone).
        destruct (Rgt_dec x get_web_thickness); reflexivity.
  - intros Hle [r [c Hcell]].
    assert (Hne : Np.where_from 0 (map (map (fun v => Np.eqb v 1)) (get_face_map x))
                  <> []).
    { intros Hnil. apply (proj1 (x_indices_nil x)) with (r := r) (c := c);
        [ | exact Hcell].
      unfold x_indices, Fmm2D.active_cells, Np.where2. cbn [snd].
      now rewrite Hnil. }
    destruct (mean_offsets_centroid (get_face_map x)
                (INR (Fmm2D.map_dim self) / 2) Hne) as [Hmx Hmy].
    rewrite cog_cases.
    destruct (Rgt_dec x get_web_thickness); [contradiction | ].
    destruct (x_indices x) as [ | x0 xs] eqn:Hxs.
    + exfalso. exact (proj1 (x_indices_nil x) Hxs r c Hcell).
    + rewrite <- Hxs. unfold Fmm2D.map_to_length.
      rewrite !np_div_ok by exact Hmd. cbn [bind].
      unfold x_indices, y_indices, shift, Fmm2D.active_cells, Np.where2.
      cbn [fst snd]. rewrite Hmx, Hmy. reflexivity.
Qed.

End CentreOfGravity.

Lemma corner_active_cells (x : R) :
  Fmm2D.active_cells corner_face_map x = ([0%nat], [0%nat]).
Proof.
  unfold Fmm2D.active_cells, corner_face_map, Np.where2, Np.eqb.
  cbn [map].
  destruct (Req_dec_T 1 1) as [_ | Hn]; [ | now elim Hn].
  destruct (Req_dec_T 0 1) as [H | _]; [lra | ].
  reflexivity.
Qed.

Lemma three_cell_centroid (x : R) :
  grid_centroid (three_cell_face_map x) = (2 / 3, 1 / 3).
Proof.
  unfold grid_centroid, solid_cell_count, three_cell_face_map.
  cbn [map_total row_total].
  destruct (Req_dec_T 1 1) as [_ | Hn]; [ | now elim Hn].
  destruct (Req_dec_T 0 1) as [H | _]; [lra | ].
  cbn [INR]. f_equal; field.
Qed.

Lemma center_of_gravity_contract_witness :
  Fmm2D.get_center_of_gravity wide_segment 1 three_cell_face_map 0
  = Ok (-1, -2, 2)
  /\ Fmm2D.get_center_of_gravity wide_segment 1 three_cell_face_map 2
     = Raise GrainGeometryError.
Proof.
  assert (Hdim : (0 < Fmm2D.map_dim wide_segment)%nat) by (simpl; lia).
  split.
  - destruct (center_of_gravity_contract wide_segment 1 three_cell_face_map 0 Hdim)
      as [_ [Hvalue _]].
    rewrite Hvalue.
    + rewrite three_cell_centroid. unfold denormalized, wide_segment.
      cbn [fst snd Fmm2D.outer_diameter Fmm2D.map_dim Fmm2D.length INR].
      do 2 f_equal; [f_equal | ]; field.
    + lra.
    + exists 0%nat, 0%nat. reflexivity.
  - destruct (center_of_gravity_contract wide_segment 1 three_cell_face_map 2 Hdim)
      as [[_ Hraise] _].
    apply Hraise. left. lra.
Defined.

(** ** The control segment *)

Lemma control_segment_valid : Bates.validate control_segment = Ok tt.
Proof.
  unfold Bates.validate, Bates.base_valid, Np.ltb. simpl.
  decide_reals. simpl. decide_reals. reflexivity.
Qed.

(** * Further properties *)

(** ** Loops that stop at the first exception *)

Lemma mapM_length {A B : Type} (f : A -> outcome B) (l : list A) :
  forall bs, mapM f l = Ok bs -> List.length bs = List.length l.
Proof.
  induction l as [ | a l IH]; intros bs H; simpl in H.
  - injection H as H. now subst bs.
  - apply bind_ok in H. destruct H as [b [_ H]].
    apply bind_ok in H. destruct H as [bs' [Hrest H]].
    injection H as H. subst bs. simpl. now rewrite (IH bs' Hrest).
Qed.

Lemma mapM_nth {A B : Type} (f : A -> outcome B) (l : list A) :
  forall bs, mapM f l = Ok bs ->
    forall j a, nth_error l j = Some a ->
      exists b, f a = Ok b /\ nth_error bs j = Some b.
Proof.
  induction l as [ | a0 l IH]; intros bs H j a Hj.
  - destruct j; discriminate.
  - simpl in H.
    apply bind_ok in H. destruct H as [b0 [Hb0 H]].
    apply bind_ok in H. destruct H as [bs' [Hrest H]].
    injection H as H. subst bs.
    destruct j as [ | j]; simpl in Hj |- *.
    + injection Hj as Hj. subst a0. exists b0. split; [exact Hb0 | reflexivity].
    + exact (IH bs' Hrest j a Hj).
Qed.

(** ** Burn profile *)

Lemma getBurnProfile_nonempty (a : R) (l : list R) :
  IbFunctions.getBurnProfile (a :: l)
  = (q <- py_div a (last (a :: l) a) ;;
     if Rgt_dec q 1.02 then Ok IbFunctions.Regressive
     else if Rlt_dec q 0.98 then Ok IbFunctions.Progressive
          else Ok IbFunctions.Neutral).
Proof.
  unfold IbFunctions.getBurnProfile, py_index, py_last.
  cbn [nth_error bind].
  destruct (py_div a (last (a :: l) a)) as [q | e | ]; cbn [bind]; reflexivity.
Qed.

(** X1.  [getBurnProfile] raises [IndexError] on an empty list.  When the
    last burn area is not zero it returns 'Regressive' when first/last
    exceeds 1.02, 'Progressive' when it is below 0.98 and 'Neutral' in
    between, both bounds included.  (A zero last entry is left out: it
    raises on Python floats and gives [inf] or [nan] on NumPy scalars.) *)
Theorem getBurnProfile_cases :
  IbFunctions.getBurnProfile [] = Raise IndexError
  /\ forall (a : R) (l : list R),
       last (a :: l) a <> 0 ->
       (a / last (a :: l) a > 1.02 ->
        IbFunctions.getBurnProfile (a :: l) = Ok IbFunctions.Regressive)
       /\ (a / last (a :: l) a < 0.98 ->
           IbFunctions.getBurnProfile (a :: l) = Ok IbFunctions.Progressive)
       /\ (0.98 <= a / last (a :: l) a <= 1.02 ->
           IbFunctions.getBurnProfile (a :: l) = Ok IbFunctions.Neutral).
Proof.
  split; [reflexivity | ].
  intros a l Hne. rewrite getBurnProfile_nonempty.
  rewrite py_div_ok by exact Hne. cbn [bind].
  repeat split; intros H; decide_reals; reflexivity.
Qed.

Lemma hd_rev_last (a : R) (l : list R) :
  exists l', rev (a :: l) = last (a :: l) a :: l' /\ last (rev (a :: l)) (last (a :: l) a) = a.
Proof.
  destruct (rev (a :: l)) as [ | b l'] eqn:Hrev.
  - apply (f_equal (@List.length R)) in Hrev. rewrite length_rev in Hrev. discriminate.
  - assert (Hb : b = last (a :: l) a).
    { rewrite (last_nth_pred (a :: l) a a) by discriminate.
      assert (H0 : nth 0 (rev (a :: l)) a = b) by (now rewrite Hrev).
      rewrite rev_nth in H0 by (simpl; lia).
      rewrite <- H0. simpl List.length. f_equal; lia. }
    subst b. exists l'. split; [reflexivity | ].
    rewrite <- Hrev. simpl rev. apply last_last.
Qed.

(** X2.  Read backwards, a 'Progressive' list of positive burn areas is
    'Regressive'.  The converse fails, the thresholds 0.98 and 1.02 not
    being inverse to each other: 102.01 followed by 100 is 'Regressive'
    and, read backwards, 'Neutral'. *)
Theorem getBurnProfile_reversed (A_burn : list R) :
  (forall x, In x A_burn -> 0 < x) ->
  IbFunctions.getBurnProfile A_burn = Ok IbFunctions.Progressive ->
  IbFunctions.getBurnProfile (rev A_burn) = Ok IbFunctions.Regressive
  /\ IbFunctions.getBurnProfile [102.01; 100] = Ok IbFunctions.Regressive
  /\ IbFunctions.getBurnProfile (rev [102.01; 100]) = Ok IbFunctions.Neutral.
Proof.
  intros Hpos Hprog. split.
  - destruct A_burn as [ | a l]; [discriminate | ].
    assert (Ha : 0 < a) by (apply Hpos; now left).
    assert (Hz : 0 < last (a :: l) a).
    { apply Hpos. destruct (hd_rev_last a l) as [l' [Hrev _]].
      apply in_rev. rewrite Hrev. now left. }
    rewrite getBurnProfile_nonempty in Hprog.
    rewrite py_div_ok in Hprog by lra. cbn [bind] in Hprog.
    destruct (Rgt_dec (a / last (a :: l) a) 1.02); [discriminate | ].
    destruct (Rlt_dec (a / last (a :: l) a) 0.98) as [Hlt | ]; [ | discriminate].
    destruct (hd_rev_last a l) as [l' [Hrev Hlast]].
    rewrite Hrev, getBurnProfile_nonempty. rewrite <- Hrev, Hlast.
    rewrite py_div_ok by lra. cbn [bind].
    assert (Hq : last (a :: l) a / a > 1.02).
    { apply (Rmult_lt_reg_r a); [exact Ha | ].
      unfold Rdiv at 1. rewrite Rmult_assoc, Rinv_l, Rmult_1_r by lra.
      assert (Hal : a < 0.98 * last (a :: l) a).
      { apply (Rmult_lt_compat_r (last (a :: l) a)) in Hlt; [ | exact Hz].
        unfold Rdiv in Hlt. rewrite Rmult_assoc, Rinv_l, Rmult_1_r in Hlt by lra.
        exact Hlt. }
      lra. }
    destruct (Rgt_dec (last (a :: l) a / a) 1.02); [reflexivity | contradiction].
  - split.
    + rewrite getBurnProfile_nonempty. simpl last.
      rewrite py_div_ok by lra. cbn [bind].
      destruct (Rgt_dec (102.01 / 100) 1.02); [reflexivity | lra].
    + simpl rev. rewrite getBurnProfile_nonempty. simpl last.
      rewrite py_div_ok by lra. cbn [bind].
      destruct (Rgt_dec (100 / 102.01) 1.02) as [H | _]; [lra | ].
      destruct (Rlt_dec (100 / 102.01) 0.98) as [H | _]; [ | reflexivity].
      exfalso. apply (Rmult_lt_compat_r 102.01) in H; [ | lra].
      unfold Rdiv in H. rewrite Rmult_assoc, Rinv_l, Rmult_1_r in H by lra. lra.
Qed.

Lemma getBurnProfile_reversed_witness :
  IbFunctions.getBurnProfile (rev [1; 2]) = Ok IbFunctions.Regressive
  /\ IbFunctions.getBurnProfile [102.01; 100] = Ok IbFunctions.Regressive
  /\ IbFunctions.getBurnProfile (rev [102.01; 100]) = Ok IbFunctions.Neutral.
Proof.
  apply (getBurnProfile_reversed [1; 2]).
  - intros x [Hx | [Hx | []]]; subst x; lra.
  - rewrite getBurnProfile_nonempty. simpl last.
    rewrite py_div_ok by lra. cbn [bind].
    destruct (Rgt_dec (1 / 2) 1.02) as [H | _]; [lra | ].
    destruct (Rlt_dec (1 / 2) 0.98) as [_ | H]; [reflexivity | lra].
Defined.

(** ** The smallest core diameter *)

Lemma fold_left_Rmin_le (xs : list R) :
  forall x, fold_left Rmin xs x <= x
            /\ forall y, In y xs -> fold_left Rmin xs x <= y.
Proof.
  induction xs as [ | z xs IH]; intros x; simpl.
  - split; [lra | intros y []].
  - destruct (IH (Rmin x z)) as [Hle Hall]. split.
    + pose proof (Rmin_l x z). lra.
    + intros y [Hy | Hy].
      * subst y. pose proof (Rmin_r x z). lra.
      * now apply Hall.
Qed.

Lemma fold_left_Rmin_in (xs : list R) :
  forall x, fold_left Rmin xs x = x \/ In (fold_left Rmin xs x) xs.
Proof.
  induction xs as [ | z xs IH]; intros x; simpl.
  - now left.
  - destruct (IH (Rmin x z)) as [Heq | Hin].
    + rewrite Heq. unfold Rmin. destruct (Rle_dec x z); [now left | right; now left].
    + right. now right.
Qed.

Lemma first_occurrence (m : R) (D : list R) :
  In m D ->
  exists j0, (j0 < List.length D)%nat /\ nth j0 D 0 = m
             /\ forall i, (i < j0)%nat -> nth i D 0 <> m.
Proof.
  induction D as [ | d D IH]; intros Hin; [destruct Hin | ].
  destruct (Req_dec_T d m) as [Heq | Hne].
  - exists 0%nat. simpl. repeat split; [lia | exact Heq | intros i Hi; lia].
  - destruct Hin as [Hd | Hin]; [contradiction | ].
    destruct (IH Hin) as [j0 [Hlt [Hj0 Hfirst]]].
    exists (S j0). simpl. repeat split; [lia | exact Hj0 | ].
    intros [ | i] Hi; [exact Hne | apply Hfirst; lia].
Qed.

(** The loop finds the first occurrence when its range reaches it, and
    nothing otherwise. *)
Lemma first_minimal_range (D : list R) (m : R) (j0 : nat) :
  (j0 < List.length D)%nat -> nth j0 D 0 = m ->
  (forall i, (i < j0)%nat -> nth i D 0 <> m) ->
  forall n s, (s <= j0)%nat ->
    IbFunctions.first_minimal D m (seq s n)
    = if (j0 <? s + n)%nat then Ok (Some j0) else Ok None.
Proof.
  intros Hlt Hj0 Hfirst n. induction n as [ | n IH]; intros s Hs.
  - simpl. destruct (Nat.ltb_spec j0 (s + 0)); [lia | reflexivity].
  - simpl. unfold py_index.
    rewrite (nth_error_nth' D 0) by lia. cbn [bind].
    destruct (Req_dec_T (nth s D 0) m) as [Heq | Hne].
    + assert (s = j0).
      { destruct (Nat.eq_dec s j0) as [ | Hd]; [assumption | ].
        exfalso. apply (Hfirst s); [lia | exact Heq]. }
      subst s. destruct (Nat.ltb_spec j0 (j0 + S n)); [reflexivity | lia].
    + assert (s <> j0) by (intros ->; contradiction).
      rewrite IH by lia.
      replace (S s + n)%nat with (s + S n)%nat by lia. reflexivity.
Qed.

(** X3.  For a non-empty array of core diameters, [minCoreDiamIndex]
    returns the first index of the smallest core diameter when that index
    is below [N], and raises [UnboundLocalError] when it is not (for
    [N = 0] in particular).  It never raises [IndexError], even when [N]
    exceeds the length of the array: the loop stops at the minimum before
    it runs past the end. *)
Theorem minCoreDiamIndex_first_minimum (b : IbFunctions.BATES) :
  IbFunctions.D_core b <> [] ->
  exists j0,
    (j0 < List.length (IbFunctions.D_core b))%nat
    /\ (forall i v, nth_error (IbFunctions.D_core b) i = Some v ->
                    nth j0 (IbFunctions.D_core b) 0 <= v)
    /\ (forall i, (i < j0)%nat ->
                  nth j0 (IbFunctions.D_core b) 0 < nth i (IbFunctions.D_core b) 0)
    /\ IbFunctions.minCoreDiamIndex b
       = if (j0 <? IbFunctions.N b)%nat then Ok j0 else Raise UnboundLocalError.
Proof.
  intros Hne. unfold IbFunctions.minCoreDiamIndex.
  destruct (IbFunctions.D_core b) as [ | d D] eqn:HD; [now elim Hne | ].
  cbn [Np.amin bind].
  set (m := fold_left Rmin D d).
  assert (Hin : In m (d :: D)).
  { destruct (fold_left_Rmin_in D d) as [Heq | Hin];
      [left; symmetry; exact Heq | right; exact Hin]. }
  assert (Hlow : forall v, In v (d :: D) -> m <= v).
  { intros v [Hv | Hv].
    - subst v. exact (proj1 (fold_left_Rmin_le D d)).
    - exact (proj2 (fold_left_Rmin_le D d) v Hv). }
  destruct (first_occurrence m (d :: D) Hin) as [j0 [Hlt [Hj0 Hfirst]]].
  exists j0. split; [exact Hlt | ]. rewrite Hj0.
  split; [ | split].
  - intros i v Hv. apply Hlow. eapply nth_error_In. exact Hv.
  - intros i Hi.
    assert (Hmi : m <= nth i (d :: D) 0) by (apply Hlow, nth_In; lia).
    pose proof (Hfirst i Hi). lra.
  - rewrite (first_minimal_range (d :: D) m j0 Hlt Hj0 Hfirst) by lia.
    simpl Nat.add. destruct (j0 <? IbFunctions.N b)%nat; reflexivity.
Qed.

Lemma minCoreDiamIndex_first_minimum_witness :
  exists j0,
    (j0 < 3)%nat
    /\ (forall i v, nth_error [60e-3; 45e-3; 45e-3] i = Some v ->
                    nth j0 [60e-3; 45e-3; 45e-3] 0 <= v)
    /\ (forall i, (i < j0)%nat ->
                  nth j0 [60e-3; 45e-3; 45e-3] 0 < nth i [60e-3; 45e-3; 45e-3] 0)
    /\ IbFunctions.minCoreDiamIndex
         {| IbFunctions.wr := 2; IbFunctions.N := 3; IbFunctions.D_grain := 117e-3;
            IbFunctions.D_core := [60e-3; 45e-3; 45e-3];
            IbFunctions.L_grain := [200e-3; 200e-3; 200e-3] |}
       = if (j0 <? 3)%nat then Ok j0 else Raise UnboundLocalError.
Proof.
  apply (minCoreDiamIndex_first_minimum
           {| IbFunctions.wr := 2; IbFunctions.N := 3; IbFunctions.D_grain := 117e-3;
              IbFunctions.D_core := [60e-3; 45e-3; 45e-3];
              IbFunctions.L_grain := [200e-3; 200e-3; 200e-3] |}).
  discriminate.
Defined.

(** ** Burn area and volume of a tube-burning segment *)

(** X4.  The legacy burn area of a segment is its two end faces plus its
    core surface, and the legacy grain volume is one end face times the
    remaining length, with the face area [BatesSegment.get_face_area] and
    the cylinder surface [get_cylinder_surface_area] of the newer modules;
    a segment index outside the arrays raises [IndexError]. *)
Theorem legacy_burn_area_is_faces_plus_core (s : Bates.BatesSegment) (x : R) :
  IbFunctions.burnArea (legacy_grain s) x 0
  = Ok (2 * Bates.get_face_area s x
        + Geometric.get_cylinder_surface_area
            (Bates.length s - 2 * x) (Bates.core_diameter s + 2 * x))
  /\ IbFunctions.grainVolume (legacy_grain s) x 0
     = Ok (Bates.get_face_area s x * (Bates.length s - 2 * x))
  /\ forall j, (0 < j)%nat ->
       IbFunctions.burnArea (legacy_grain s) x j = Raise IndexError
       /\ IbFunctions.grainVolume (legacy_grain s) x j = Raise IndexError.
Proof.
  split; [ | split].
  - unfold IbFunctions.burnArea, legacy_grain, py_index. cbn.
    f_equal. unfold Bates.get_face_area, Geometric.get_cylinder_surface_area.
    field.
  - unfold IbFunctions.grainVolume, legacy_grain, py_index. cbn.
    f_equal. unfold Bates.get_face_area. field.
  - intros j Hj. destruct j as [ | j]; [lia | ].
    unfold IbFunctions.burnArea, IbFunctions.grainVolume, legacy_grain, py_index.
    cbn [IbFunctions.D_core nth_error].
    destruct j; split; reflexivity.
Qed.

(** X5.  While a valid segment burns, from web distance 0 up to the point
    where either the radial gap or the length is used up, the legacy grain
    volume never increases and never becomes negative, and the legacy burn
    area is never negative. *)
Theorem grain_volume_decreases (s : Bates.BatesSegment) (x y : R) :
  Bates.validate s = Ok tt ->
  0 <= x <= y ->
  y <= Bates.get_web_thickness s ->
  y <= Bates.length s / 2 ->
  exists vx vy ay,
    IbFunctions.grainVolume (legacy_grain s) x 0 = Ok vx
    /\ IbFunctions.grainVolume (legacy_grain s) y 0 = Ok vy
    /\ IbFunctions.burnArea (legacy_grain s) y 0 = Ok ay
    /\ 0 <= vy <= vx
    /\ 0 <= ay.
Proof.
  intros Hvalid [Hx Hxy] Hweb Hlen.
  apply validate_ok in Hvalid. destruct Hvalid as [[Hd HD] [HL _]].
  unfold Bates.get_web_thickness in Hweb.
  unfold IbFunctions.grainVolume, IbFunctions.burnArea, legacy_grain, py_index.
  cbn [IbFunctions.D_core IbFunctions.L_grain IbFunctions.D_grain nth_error bind].
  do 3 eexists. repeat (split; [reflexivity | ]).
  set (D := Bates.outer_diameter s) in *.
  set (d := Bates.core_diameter s) in *.
  set (L := Bates.length s) in *.
  pose proof PI_RGT_0 as Hpi.
  assert (HAy : 0 <= D ^ 2 - (d + 2 * y) ^ 2).
  { replace (D ^ 2 - (d + 2 * y) ^ 2) with ((D - (d + 2 * y)) * (D + (d + 2 * y)))
      by ring.
    apply Rmult_le_pos; lra. }
  assert (HAxy : D ^ 2 - (d + 2 * y) ^ 2 <= D ^ 2 - (d + 2 * x) ^ 2).
  { replace (D ^ 2 - (d + 2 * x) ^ 2)
      with (D ^ 2 - (d + 2 * y) ^ 2 + (2 * (y - x)) * (2 * d + 2 * x + 2 * y))
      by ring.
    assert (0 <= (2 * (y - x)) * (2 * d + 2 * x + 2 * y))
      by (apply Rmult_le_pos; lra).
    lra. }
  assert (HBy : 0 <= L - 2 * y) by lra.
  assert (HBxy : L - 2 * y <= L - 2 * x) by lra.
  assert (Hprod : (D ^ 2 - (d + 2 * y) ^ 2) * (L - 2 * y)
                  <= (D ^ 2 - (d + 2 * x) ^ 2) * (L - 2 * x))
    by (apply Rmult_le_compat; assumption).
  assert (Hprod0 : 0 <= (D ^ 2 - (d + 2 * y) ^ 2) * (L - 2 * y))
    by (apply Rmult_le_pos; assumption).
  repeat split.
  - apply Rmult_le_pos; [lra | exact Hprod0].
  - apply Rmult_le_compat_l; [lra | exact Hprod].
  - apply Rmult_le_pos; [lra | ].
    assert (0 <= (L - 2 * y) * (d + 2 * y)) by (apply Rmult_le_pos; lra).
    lra.
Qed.

Lemma grain_volume_decreases_witness :
  exists vx vy ay,
    IbFunctions.grainVolume (legacy_grain control_segment) 10e-3 0 = Ok vx
    /\ IbFunctions.grainVolume (legacy_grain control_segment) 20e-3 0 = Ok vy
    /\ IbFunctions.burnArea (legacy_grain control_segment) 20e-3 0 = Ok ay
    /\ 0 <= vy <= vx
    /\ 0 <= ay.
Proof.
  apply (grain_volume_decreases control_segment 10e-3 20e-3).
  - exact control_segment_valid.
  - lra.
  - unfold Bates.get_web_thickness. simpl. lra.
  - simpl. lra.
Defined.

Lemma volume_derivative (D d L x : R) :
  derivable_pt_lim (fun y => PI / 4 * ((D ^ 2 - (d + 2 * y) ^ 2) * (L - 2 * y))) x
    (- (PI * ((D ^ 2 - (d + 2 * x) ^ 2) / 2 + (L - 2 * x) * (d + 2 * x)))).
Proof.
  set (core := (fct_cte d + mult_real_fct 2 id)%F).
  set (A := (fct_cte (D ^ 2) - comp (fun z => z ^ 2) core)%F).
  set (B := (fct_cte L - mult_real_fct 2 id)%F).
  change (derivable_pt_lim (mult_real_fct (PI / 4) (A * B)%F) x
            (- (PI * ((D ^ 2 - (d + 2 * x) ^ 2) / 2 + (L - 2 * x) * (d + 2 * x))))).
  assert (Hcore : derivable_pt_lim core x (0 + 2 * 1)).
  { apply derivable_pt_lim_plus; [apply derivable_pt_lim_const | ].
    apply derivable_pt_lim_scal, derivable_pt_lim_id. }
  assert (HA : derivable_pt_lim A x (0 - INR 2 * core x ^ 1 * (0 + 2 * 1))).
  { apply derivable_pt_lim_minus; [apply derivable_pt_lim_const | ].
    apply derivable_pt_lim_comp; [exact Hcore | ].
    apply (derivable_pt_lim_pow (core x) 2). }
  assert (HB : derivable_pt_lim B x (0 - 2 * 1)).
  { apply derivable_pt_lim_minus; [apply derivable_pt_lim_const | ].
    apply derivable_pt_lim_scal, derivable_pt_lim_id. }
  replace (- (PI * ((D ^ 2 - (d + 2 * x) ^ 2) / 2 + (L - 2 * x) * (d + 2 * x))))
    with (PI / 4 * ((0 - INR 2 * core x ^ 1 * (0 + 2 * 1)) * B x + A x * (0 - 2 * 1))).
  - apply derivable_pt_lim_scal, derivable_pt_lim_mult; assumption.
  - unfold A, B, core, comp, minus_fct, plus_fct, fct_cte, mult_real_fct, id.
    simpl INR. field.
Qed.

(** X6.  The legacy burn area is the rate at which the legacy grain volume
    shrinks with web distance: at every web distance the derivative of
    [grainVolume] is minus [burnArea]. *)
Theorem burn_area_is_volume_rate (s : Bates.BatesSegment) :
  exists volume area : R -> R,
    (forall x, IbFunctions.grainVolume (legacy_grain s) x 0 = Ok (volume x))
    /\ (forall x, IbFunctions.burnArea (legacy_grain s) x 0 = Ok (area x))
    /\ forall x, derivable_pt_lim volume x (- area x).
Proof.
  exists (fun y => PI / 4 * ((Bates.outer_diameter s ^ 2
                              - (Bates.core_diameter s + 2 * y) ^ 2)
                             * (Bates.length s - 2 * y))).
  exists (fun x => PI * ((Bates.outer_diameter s ^ 2
                          - (Bates.core_diameter s + 2 * x) ^ 2) / 2
                         + (Bates.length s - 2 * x)
                           * (Bates.core_diameter s + 2 * x))).
  split; [intros x; reflexivity | ].
  split; [intros x; reflexivity | ].
  intros x. apply volume_derivative.
Qed.

(** X7.  A segment whose length is [get_optimal_length] divided by its
    factor [1e3], that is [0.5 * (3*D + d)], burns neutrally: the legacy
    burn area at web distance 0 equals the one at the web thickness, and
    [getBurnProfile] of the two calls them 'Neutral' when the segment is
    valid.  The legacy [optimalLength] gives the same length. *)
Theorem optimal_length_burns_neutrally (s : Bates.BatesSegment) :
  Bates.validate s = Ok tt ->
  Bates.length s = Bates.get_optimal_length s / 1e3 ->
  exists a,
    IbFunctions.burnArea (legacy_grain s) 0 0 = Ok a
    /\ IbFunctions.burnArea (legacy_grain s) (Bates.get_web_thickness s) 0 = Ok a
    /\ IbFunctions.getBurnProfile [a; a] = Ok IbFunctions.Neutral
    /\ IbFunctions.optimalLength (legacy_grain s) = [Bates.get_optimal_length s].
Proof.
  intros Hvalid HL.
  apply validate_ok in Hvalid. destruct Hvalid as [[Hd HD] _].
  unfold Bates.get_optimal_length in HL.
  assert (HL' : Bates.length s
                = 0.5 * (3 * Bates.outer_diameter s + Bates.core_diameter s))
    by (rewrite HL; field).
  unfold IbFunctions.burnArea, legacy_grain, py_index, Bates.get_web_thickness.
  cbn [IbFunctions.D_core IbFunctions.L_grain IbFunctions.D_grain nth_error bind].
  eexists. split; [reflexivity | ].
  rewrite HL'.
  set (D := Bates.outer_diameter s) in *.
  set (d := Bates.core_diameter s) in *.
  assert (Heq : PI * ((D ^ 2 - (d + 2 * (0.5 * (D - d))) ^ 2) / 2
                      + (0.5 * (3 * D + d) - 2 * (0.5 * (D - d)))
                        * (d + 2 * (0.5 * (D - d))))
                = PI * ((D ^ 2 - (d + 2 * 0) ^ 2) / 2
                        + (0.5 * (3 * D + d) - 2 * 0) * (d + 2 * 0))).
  { replace 0.5 with (1 / 2) by lra. field. }
  split; [now rewrite Heq | ].
  split; [ | reflexivity].
  rewrite getBurnProfile_nonempty. cbn [last].
  assert (Harea : 0 < PI * ((D ^ 2 - (d + 2 * 0) ^ 2) / 2
                            + (0.5 * (3 * D + d) - 2 * 0) * (d + 2 * 0))).
  { pose proof PI_RGT_0 as Hpi. apply Rmult_lt_0_compat; [exact Hpi | ].
    replace ((D ^ 2 - (d + 2 * 0) ^ 2) / 2 + (0.5 * (3 * D + d) - 2 * 0) * (d + 2 * 0))
      with ((D - d) * (D + d) / 2 + (0.5 * (3 * D + d)) * d)
      by (replace 0.5 with (1 / 2) by lra; field).
    assert (0 < (D - d) * (D + d)) by (apply Rmult_lt_0_compat; lra).
    assert (0 < (0.5 * (3 * D + d)) * d) by (apply Rmult_lt_0_compat; lra).
    lra. }
  set (a := PI * ((D ^ 2 - (d + 2 * 0) ^ 2) / 2
                  + (0.5 * (3 * D + d) - 2 * 0) * (d + 2 * 0))) in *.
  rewrite py_div_ok by lra. cbn [bind].
  assert (Hq : a / a = 1) by (unfold Rdiv; apply Rinv_r; lra).
  rewrite Hq. decide_reals. reflexivity.
Qed.

Lemma optimal_length_burns_neutrally_witness :
  exists a,
    IbFunctions.burnArea
      (legacy_grain {| Bates.outer_diameter := 100e-3; Bates.core_diameter := 30e-3;
                       Bates.length := 165e-3; Bates.spacing := 10e-3 |}) 0 0 = Ok a
    /\ IbFunctions.burnArea
         (legacy_grain {| Bates.outer_diameter := 100e-3; Bates.core_diameter := 30e-3;
                          Bates.length := 165e-3; Bates.spacing := 10e-3 |})
         (Bates.get_web_thickness
            {| Bates.outer_diameter := 100e-3; Bates.core_diameter := 30e-3;
               Bates.length := 165e-3; Bates.spacing := 10e-3 |}) 0 = Ok a
    /\ IbFunctions.getBurnProfile [a; a] = Ok IbFunctions.Neutral
    /\ IbFunctions.optimalLength
         (legacy_grain {| Bates.outer_diameter := 100e-3; Bates.core_diameter := 30e-3;
                          Bates.length := 165e-3; Bates.spacing := 10e-3 |})
       = [Bates.get_optimal_length
            {| Bates.outer_diameter := 100e-3; Bates.core_diameter := 30e-3;
               Bates.length := 165e-3; Bates.spacing := 10e-3 |}].
Proof.
  apply (optimal_length_burns_neutrally
           {| Bates.outer_diameter := 100e-3; Bates.core_diameter := 30e-3;
              Bates.length := 165e-3; Bates.spacing := 10e-3 |}).
  - unfold Bates.validate, Bates.base_valid, Np.ltb. simpl.
    decide_reals. simpl. decide_reals. reflexivity.
  - unfold Bates.get_optimal_length. simpl. lra.
Defined.

(** ** Nozzle flow *)

Lemma Rpower_one (e : R) : Rpower 1 e = 1.
Proof. unfold Rpower. rewrite ln_1, Rmult_0_r. apply exp_0. Qed.

Lemma np_sqrt_ok (x : R) : 0 <= x -> Np.sqrt x = Ok (sqrt x).
Proof.
  intros Hx. unfold Np.sqrt. destruct (Rle_dec 0 x); [reflexivity | contradiction].
Qed.

Lemma py_pow_zero_base (y : R) : 0 < y -> py_pow 0 y = Ok 0.
Proof.
  intros Hy. unfold py_pow.
  destruct (Rlt_dec 0 0); [lra | ].
  destruct (Req_dec_T 0 0) as [_ | H]; [ | now elim H].
  destruct (Rlt_dec y 0); [lra | ].
  destruct (Req_dec_T y 0); [lra | reflexivity].
Qed.

(** X8.  For [k_ex > 1] and a positive chamber pressure, the thrust
    coefficient is zero when the external pressure equals the chamber
    pressure; below it (from zero pressure on) it is a positive ideal
    coefficient times the correction [n_cf]; above it the square root has
    a negative argument and the result is [nan]. *)
Theorem thrust_coefficient_cases (P0 P_external k_ex : R) :
  1 < k_ex -> 0 < P0 -> 0 <= P_external ->
  (P_external = P0 ->
   forall n_cf, IbFunctions.thrust_coefficient P0 P_external k_ex n_cf = Ok 0)
  /\ (P_external < P0 ->
      exists Cf_ideal, 0 < Cf_ideal
        /\ forall n_cf,
             IbFunctions.thrust_coefficient P0 P_external k_ex n_cf
             = Ok (Cf_ideal * n_cf))
  /\ (P0 < P_external ->
      forall n_cf, IbFunctions.thrust_coefficient P0 P_external k_ex n_cf = NonReal).
Proof.
  intros Hk HP HPe.
  assert (Hb : 0 < 2 / (k_ex + 1)) by (apply Rdiv_lt_0_compat; lra).
  assert (He : 0 < (k_ex - 1) / k_ex) by (apply Rdiv_lt_0_compat; lra).
  assert (Ha : 0 < 2 * k_ex ^ 2 / (k_ex - 1)).
  { apply Rdiv_lt_0_compat; [ | lra].
    assert (0 < k_ex ^ 2) by (apply pow_lt; lra). lra. }
  set (c := Rpower (2 / (k_ex + 1)) ((k_ex + 1) / (k_ex - 1))).
  assert (Hc : 0 < c) by (unfold c, Rpower; apply exp_pos).
  assert (Hac : 0 < 2 * k_ex ^ 2 / (k_ex - 1) * c) by (apply Rmult_lt_0_compat; assumption).
  assert (Hsteps : forall n_cf,
             IbFunctions.thrust_coefficient P0 P_external k_ex n_cf
             = (p <- py_pow (P_external / P0) ((k_ex - 1) / k_ex) ;;
                Cf_ideal <- Np.sqrt (2 * k_ex ^ 2 / (k_ex - 1) * c * (1 - p)) ;;
                Ok (Cf_ideal * n_cf))).
  { intros n_cf. unfold IbFunctions.thrust_coefficient.
    rewrite (py_div_ok _ P0) by lra. cbn [bind].
    rewrite !(py_div_ok _ (k_ex - 1)) by lra.
    rewrite (py_div_ok _ (k_ex + 1)) by lra.
    rewrite (py_div_ok _ k_ex) by lra. cbn [bind].
    rewrite (py_pow_pos _ _ Hb). cbn [bind]. reflexivity. }
  split; [ | split].
  - intros Heq n_cf. rewrite Hsteps. subst P_external.
    unfold Rdiv at 1. rewrite Rinv_r by lra.
    rewrite py_pow_pos by lra. cbn [bind]. rewrite Rpower_one.
    replace (2 * k_ex ^ 2 / (k_ex - 1) * c * (1 - 1)) with 0 by ring.
    rewrite np_sqrt_ok by lra. cbn [bind]. rewrite sqrt_0. f_equal. ring.
  - intros Hlt.
    assert (Hp : exists p, py_pow (P_external / P0) ((k_ex - 1) / k_ex) = Ok p
                           /\ p < 1).
    { destruct (Req_dec_T P_external 0) as [H0 | Hn0].
      - subst P_external. exists 0. unfold Rdiv at 1. rewrite Rmult_0_l.
        split; [now apply py_pow_zero_base | lra].
      - assert (Hr : 0 < P_external / P0) by (apply Rdiv_lt_0_compat; lra).
        assert (Hr1 : P_external / P0 < 1).
        { apply (Rmult_lt_reg_r P0); [exact HP | ].
          unfold Rdiv. rewrite Rmult_assoc, Rinv_l by lra. lra. }
        exists (Rpower (P_external / P0) ((k_ex - 1) / k_ex)).
        split; [now apply py_pow_pos | ].
        pose proof (Rlt_Rpower_l (P_external / P0) 1 ((k_ex - 1) / k_ex) He
                      (conj Hr Hr1)) as Hmono.
        now rewrite Rpower_one in Hmono. }
    destruct Hp as [p [Hp Hp1]].
    assert (Hrad : 0 < 2 * k_ex ^ 2 / (k_ex - 1) * c * (1 - p))
      by (apply Rmult_lt_0_compat; [exact Hac | lra]).
    exists (sqrt (2 * k_ex ^ 2 / (k_ex - 1) * c * (1 - p))).
    split; [now apply sqrt_lt_R0 | ].
    intros n_cf. rewrite Hsteps, Hp. cbn [bind].
    rewrite np_sqrt_ok by lra. reflexivity.
  - intros Hgt n_cf. rewrite Hsteps.
    assert (Hr1 : 1 < P_external / P0).
    { apply (Rmult_lt_reg_r P0); [exact HP | ].
      unfold Rdiv. rewrite Rmult_assoc, Rinv_l by lra. lra. }
    rewrite py_pow_pos by lra. cbn [bind].
    assert (Hp : 1 < Rpower (P_external / P0) ((k_ex - 1) / k_ex)).
    { pose proof (Rlt_Rpower_l 1 (P_external / P0) ((k_ex - 1) / k_ex) He
                    (conj Rlt_0_1 Hr1)) as Hmono.
      now rewrite Rpower_one in Hmono. }
    unfold Np.sqrt.
    destruct (Rle_dec 0 (2 * k_ex ^ 2 / (k_ex - 1) * c
                         * (1 - Rpower (P_external / P0) ((k_ex - 1) / k_ex))))
      as [Hle | _]; [ | reflexivity].
    exfalso.
    assert (Hneg : 2 * k_ex ^ 2 / (k_ex - 1) * c
                   * (Rpower (P_external / P0) ((k_ex - 1) / k_ex) - 1) > 0)
      by (apply Rmult_lt_0_compat; [exact Hac | lra]).
    lra.
Qed.

Lemma thrust_coefficient_cases_witness :
  (1e5 = 1e6 ->
   forall n_cf, IbFunctions.thrust_coefficient 1e6 1e5 1.2 n_cf = Ok 0)
  /\ (1e5 < 1e6 ->
      exists Cf_ideal, 0 < Cf_ideal
        /\ forall n_cf,
             IbFunctions.thrust_coefficient 1e6 1e5 1.2 n_cf = Ok (Cf_ideal * n_cf))
  /\ (1e6 < 1e5 ->
      forall n_cf, IbFunctions.thrust_coefficient 1e6 1e5 1.2 n_cf = NonReal).
Proof.
  apply (thrust_coefficient_cases 1e6 1e5 1.2); lra.
Defined.

(** At the critical pressure ratio the formula of [expansion_ratio] gives
    an expansion ratio of 1. *)
Lemma expansion_ratio_at_critical (Pe : R) (P0 : list R) (k p : R) (i : nat) :
  1 < k -> nth_error P0 i = Some p -> p <> 0 -> Pe / p = critical_ratio k ->
  IbFunctions.expansion_ratio_at Pe P0 k (critical_ratio k) i = Ok 1.
Proof.
  intros Hk Hp Hp0 Hratio.
  assert (Hb : 0 < 2 / (k + 1)) by (apply Rdiv_lt_0_compat; lra).
  assert (Hh : 0 < (k + 1) / 2) by lra.
  pose proof (critical_ratio_pos k) as Hcrit.
  unfold IbFunctions.expansion_ratio_at, py_index. rewrite Hp. cbn [bind].
  rewrite !(py_div_ok _ p) by exact Hp0. cbn [bind]. rewrite Hratio.
  destruct (Rle_dec (critical_ratio k) (critical_ratio k)) as [_ | Hn]; [ | lra].
  rewrite !(py_div_ok _ (k - 1)) by lra. cbn [bind].
  rewrite (py_pow_pos _ _ Hh). cbn [bind].
  rewrite !(py_div_ok _ k) by lra. cbn [bind].
  rewrite !(py_pow_pos _ _ Hcrit). cbn [bind].
  assert (Hthroat : Rpower (critical_ratio k) (1 / k) = Rpower (2 / (k + 1)) (1 / (k - 1))).
  { unfold critical_ratio. rewrite Rpower_mult. f_equal. field. lra. }
  assert (Hp2 : Rpower (critical_ratio k) ((k - 1) / k) = 2 / (k + 1)).
  { unfold critical_ratio. rewrite Rpower_mult.
    replace (k / (k - 1) * ((k - 1) / k)) with 1 by (field; lra).
    now apply Rpower_1. }
  rewrite Hthroat, Hp2.
  replace ((k + 1) / (k - 1) * (1 - 2 / (k + 1))) with 1 by (field; lra).
  rewrite py_pow_half by lra. cbn [bind]. rewrite sqrt_1.
  rewrite Rpower_mult_distr by assumption.
  replace ((k + 1) / 2 * (2 / (k + 1))) with 1 by (field; lra).
  rewrite Rpower_one.
  unfold py_pow_int. destruct (Req_dec_T (1 * 1) 0) as [H | _]; [lra | ].
  f_equal. simpl. field.
Qed.

(** X9.  At and above the critical pressure ratio [(2/(k+1))^(k/(k-1))]
    the optimal expansion ratio [expansion_ratio] stores is 1: the formula
    used at the critical ratio itself gives 1 too, so the array is
    continuous where the code switches branch. *)
Theorem expansion_ratio_one_from_critical
  (Pe : R) (P0 : list R) (k p : R) (index i : nat) (E : list R) :
  1 < k -> (i < index)%nat -> nth_error P0 i = Some p -> p <> 0 ->
  critical_ratio k <= Pe / p ->
  IbFunctions.expansion_ratio_at Pe P0 k (critical_ratio k) i = Ok 1
  /\ (IbFunctions.expansion_ratio Pe P0 k index (critical_ratio k) = Ok E ->
      nth_error E i = Some 1).
Proof.
  intros Hk Hi Hp Hp0 Hratio.
  assert (Hstep : IbFunctions.expansion_ratio_at Pe P0 k (critical_ratio k) i = Ok 1).
  { destruct (Req_dec_T (Pe / p) (critical_ratio k)) as [Heq | Hne].
    - now apply (expansion_ratio_at_critical Pe P0 k p i).
    - unfold IbFunctions.expansion_ratio_at, py_index. rewrite Hp. cbn [bind].
      rewrite (py_div_ok _ p) by exact Hp0. cbn [bind].
      destruct (Rle_dec (Pe / p) (critical_ratio k)); [lra | reflexivity]. }
  split; [exact Hstep | ].
  intros Hrun. unfold IbFunctions.expansion_ratio in Hrun.
  destruct (mapM_nth _ _ _ Hrun i i) as [e [He Hnth]].
  { rewrite nth_error_nth' with (d := 0%nat) by (rewrite length_seq; exact Hi).
    now rewrite seq_nth. }
  rewrite Hstep in He. injection He as He. now subst e.
Qed.

Lemma expansion_ratio_one_from_critical_witness :
  IbFunctions.expansion_ratio_at 1 [1] 2 (critical_ratio 2) 0 = Ok 1
  /\ (IbFunctions.expansion_ratio 1 [1] 2 1 (critical_ratio 2) = Ok [1] ->
      nth_error [1] 0 = Some 1).
Proof.
  apply (expansion_ratio_one_from_critical 1 [1] 2 1 1 0 [1]).
  - lra.
  - lia.
  - reflexivity.
  - lra.
  - assert (Hcrit : critical_ratio 2 = 4 / 9).
    { unfold critical_ratio. replace (2 / (2 - 1)) with (INR 2) by (simpl; lra).
      rewrite Rpower_pow by lra. lra. }
    rewrite Hcrit. lra.
Defined.

(** X10.  In the choked regime the pressure equation does not feel the exit
    pressure: for [k > 1] and [P0 <> 0], two exit pressures whose ratio to
    the chamber pressure is at most the critical ratio give the same
    result, the raised exception of a zero free volume included. *)
Theorem CP_Seidel_choked_ignores_exit_pressure
  (P0 Pe Pe' Ab V0 At pp k Rg T0 r : R) :
  P0 <> 0 -> 1 < k ->
  Pe / P0 <= critical_ratio k -> Pe' / P0 <= critical_ratio k ->
  IbFunctions.CP_Seidel P0 Pe Ab V0 At pp k Rg T0 r
  = IbFunctions.CP_Seidel P0 Pe' Ab V0 At pp k Rg T0 r.
Proof.
  intros HP Hk Hc Hc'. rewrite !CP_Seidel_steps by assumption.
  unfold flow_coefficient.
  destruct (Rle_dec (Pe / P0) (critical_ratio k)); [ | contradiction].
  destruct (Rle_dec (Pe' / P0) (critical_ratio k)); [reflexivity | contradiction].
Qed.

Lemma CP_Seidel_choked_ignores_exit_pressure_witness :
  IbFunctions.CP_Seidel 1e6 0 1 1 0.75 1 2 3 1 1
  = IbFunctions.CP_Seidel 1e6 1e5 1 1 0.75 1 2 3 1 1.
Proof.
  assert (Hcrit : critical_ratio 2 = 4 / 9).
  { unfold critical_ratio. replace (2 / (2 - 1)) with (INR 2) by (simpl; lra).
    rewrite Rpower_pow by lra. lra. }
  apply (CP_Seidel_choked_ignores_exit_pressure 1e6 0 1e5 1 1 0.75 1 2 3 1 1);
    try rewrite Hcrit; lra.
Defined.

(** ** The Runge-Kutta step on a constant rate *)

(** X11.  When the pressure equation returns one and the same rate [c] at
    the pressures the step visits, [solve] returns [P + c*dt], the exact
    solution: its weights [1/6 * (1 + 2 + 2 + 1)] add up to one.  On such
    input it agrees with the classic step. *)
Theorem solve_constant_rate
  (f : R -> R -> R -> R -> R -> R -> R -> R -> R -> R -> outcome R)
  (P Pe Ab V At pp k Rg T0 r dt c : R) :
  f P Pe Ab V At pp k Rg T0 r = Ok c ->
  f (P + 0.5 * c * dt) Pe Ab V At pp k Rg T0 r = Ok c ->
  f (P + c * dt) Pe Ab V At pp k Rg T0 r = Ok c ->
  SrmSolver.solve f P Pe Ab V At pp k Rg T0 r dt = Ok [P + c * dt]
  /\ SrmSolver.classic_rk4_step f P Pe Ab V At pp k Rg T0 r dt = Ok [P + c * dt].
Proof.
  intros H0 Hhalf Hfull.
  unfold SrmSolver.solve, SrmSolver.classic_rk4_step.
  rewrite H0. cbn [bind]. rewrite Hhalf. cbn [bind].
  rewrite Hhalf. cbn [bind]. rewrite Hhalf, Hfull. cbn [bind].
  split; do 2 f_equal; field.
Qed.

(** With a closed throat the Seidel equation is the constant
    [R*T0*Ab*pp*r / V0]. *)
Lemma CP_Seidel_closed_throat (P0 : R) :
  0 < P0 -> IbFunctions.CP_Seidel P0 0 1 1 0 1 2 3 1 1 = Ok 3.
Proof.
  intros HP.
  rewrite CP_Seidel_eq_rate by lra.
  unfold seidel_rate, flow_coefficient.
  destruct (Rle_dec (0 / P0) (critical_ratio 2)) as [_ | Hgt]; cbn [bind].
  - rewrite real_sqrt_ok by lra. cbn [bind]. f_equal. field.
  - assert (Hr : 0 < 0 / P0) by (pose proof (critical_ratio_pos 2); lra).
    unfold Rdiv in Hr. rewrite Rmult_0_l in Hr. lra.
Qed.

Lemma solve_constant_rate_witness :
  SrmSolver.solve IbFunctions.CP_Seidel 1 0 1 1 0 1 2 3 1 1 1 = Ok [1 + 3 * 1]
  /\ SrmSolver.classic_rk4_step IbFunctions.CP_Seidel 1 0 1 1 0 1 2 3 1 1 1
     = Ok [1 + 3 * 1].
Proof.
  apply (solve_constant_rate IbFunctions.CP_Seidel 1 0 1 1 0 1 2 3 1 1 1 3);
    apply CP_Seidel_closed_throat; lra.
Defined.

(** ** Impulse and chamber volume *)

(** X12.  [impulse] raises [IndexError] when the time list or the
    propellant-mass list is empty.  When the initial propellant mass is
    not zero, the total impulse is the mean thrust times the last time,
    and the specific impulse times the initial propellant weight
    [m_prop[0] * 9.81] gives the total impulse back.  (A zero initial mass
    is left out: it raises on Python floats and gives [inf] or [nan] on
    NumPy scalars.) *)
Theorem impulse_contract (F_avg : R) (t m_prop : list R) :
  (t = [] -> IbFunctions.impulse F_avg t m_prop = Raise IndexError)
  /\ (t <> [] -> m_prop = [] ->
      IbFunctions.impulse F_avg t m_prop = Raise IndexError)
  /\ (forall t0 m0 ms, t <> [] -> m_prop = m0 :: ms -> m0 <> 0 ->
        exists I_sp,
          IbFunctions.impulse F_avg t m_prop = Ok (F_avg * last t t0, I_sp)
          /\ I_sp * (m0 * 9.81) = F_avg * last t t0).
Proof.
  split; [intros ->; reflexivity | ].
  split.
  - intros Ht ->. destruct t as [ | t0 ts]; [now elim Ht | reflexivity].
  - intros t0 m0 ms Ht -> Hm. destruct t as [ | t1 ts]; [now elim Ht | ].
    unfold IbFunctions.impulse, py_last, py_index. cbn [bind nth_error].
    assert (Hlast : last (t1 :: ts) t1 = last (t1 :: ts) t0).
    { rewrite (last_nth_pred (t1 :: ts) t1 t0) by discriminate.
      rewrite (last_nth_pred (t1 :: ts) t0 t0) by discriminate. reflexivity. }
    rewrite py_div_ok by lra. cbn [bind]. rewrite Hlast.
    eexists. split; [reflexivity | ]. field. split; [lra | exact Hm].
Qed.

(** X13.  [chamber_volume] returns one free volume per propellant volume;
    each free volume plus its propellant volume is the empty volume, and
    the empty volume is the cylinder volume [get_cylinder_volume] that
    [CombustionChamber.get_empty_volume] returns for a chamber of the same
    inner diameter and length. *)
Theorem chamber_volume_complements (self : Structure.CombustionChamber)
  (V_prop : list R) :
  let result :=
    IbFunctions.chamber_volume (Structure.length self)
      (Structure.inner_diameter self) V_prop in
  List.length (fst result) = List.length V_prop
  /\ snd result = Structure.get_empty_volume self
  /\ forall i v, nth_error V_prop i = Some v ->
       exists v0, nth_error (fst result) i = Some v0
                  /\ v0 + v = Structure.get_empty_volume self.
Proof.
  cbv zeta. unfold IbFunctions.chamber_volume. cbn [fst snd].
  assert (Hempty : PI * Structure.length self * Structure.inner_diameter self ^ 2 / 4
                   = Structure.get_empty_volume self) by reflexivity.
  split; [apply length_map | ].
  split; [exact Hempty | ].
  intros i v Hv. rewrite nth_error_map, Hv. cbn.
  eexists. split; [reflexivity | ]. rewrite <- Hempty. field.
Qed.

(** ** The loss correlations: array sizes and unassigned constants *)

Lemma correction_loop_length
  (P0 : list R) (Pe : R) (P0psi : list R) (Isp_frozen Isp_shifting : R)
  (E : list R) (Dt qsi critical_pressure_ratio C1 C2 : R) (V0 : list R) (M : R)
  (t : list R) (indices : list nat) :
  forall st n_kin n_tp n_bl,
    IbFunctions.correction_loop P0 Pe P0psi Isp_frozen Isp_shifting E Dt qsi
      critical_pressure_ratio C1 C2 V0 M t indices st = Ok (n_kin, n_tp, n_bl) ->
    List.length n_kin = List.length indices
    /\ List.length n_tp = List.length indices
    /\ List.length n_bl = List.length indices.
Proof.
  induction indices as [ | i rest IH]; intros st n_kin n_tp n_bl H; simpl in H.
  - injection H as H1 H2 H3. subst n_kin n_tp n_bl. repeat split.
  - apply bind_ok in H. destruct H as [r [_ H]].
    apply bind_ok in H. destruct H as [[[nks ntps] nbls] [Hrest H]].
    injection H as H1 H2 H3. subst n_kin n_tp n_bl. simpl.
    destruct (IH _ _ _ _ Hrest) as [Hk [Ht Hb]].
    rewrite Hk, Ht, Hb. repeat split.
Qed.

(** X14.  When [operational_correction_factors] returns, each of its three
    arrays has exactly [index] entries, and the lists [P0] and [P0psi]
    have at least [index] entries: a shorter list makes the loop raise. *)
Theorem correction_factors_sizes
  (P0 : list R) (Pe : R) (P0psi : list R) (Isp_frozen Isp_shifting : R)
  (E : list R) (Dt qsi critical_pressure_ratio C1 C2 : R) (V0 : list R) (M : R)
  (t : list R) (index : nat) (n_kin n_tp n_bl : list R) :
  IbFunctions.operational_correction_factors P0 Pe P0psi Isp_frozen
    Isp_shifting E Dt qsi critical_pressure_ratio C1 C2 V0 M t index
  = Ok (n_kin, n_tp, n_bl) ->
  List.length n_kin = index /\ List.length n_tp = index
  /\ List.length n_bl = index
  /\ (index <= List.length P0)%nat /\ (index <= List.length P0psi)%nat.
Proof.
  intros Hrun. unfold IbFunctions.operational_correction_factors in Hrun.
  destruct (correction_loop_length _ _ _ _ _ _ _ _ _ _ _ _ _ _ _ _ _ _ _ Hrun)
    as [Hk [Ht Hb]].
  rewrite length_seq in Hk, Ht, Hb.
  repeat (split; [assumption | ]).
  destruct index as [ | n]; [split; lia | ].
  destruct (correction_loop_entry _ _ _ _ _ _ _ _ _ _ _ _ _ _ _ _ _ _ _ Hrun n n)
    as [st_in [nk [ntp [nbl [st_out [Hstep _]]]]]].
  { rewrite nth_error_nth' with (d := 0%nat) by (rewrite length_seq; lia).
    rewrite seq_nth by lia. reflexivity. }
  unfold IbFunctions.correction_step in Hstep.
  apply bind_ok in Hstep. destruct Hstep as [k0 [Hkin Hstep]].
  apply bind_ok in Hstep. destruct Hstep as [p0 [Hp0 _]].
  unfold IbFunctions.kinetic_loss in Hkin.
  apply bind_ok in Hkin. destruct Hkin as [psi [Hpsi _]].
  unfold py_index in Hp0, Hpsi.
  split.
  - destruct (nth_error P0 n) eqn:Hn; [ | discriminate].
    assert (n < List.length P0)%nat by (apply nth_error_Some; congruence). lia.
  - destruct (nth_error P0psi n) eqn:Hn; [ | discriminate].
    assert (n < List.length P0psi)%nat by (apply nth_error_Some; congruence). lia.
Qed.

Lemma correction_factors_one_index :
  IbFunctions.operational_correction_factors
    [1] 1 [200] 1 1 [1] 1 1 0.5 1 1 [1; 1] 1 [0] 1
  = Ok ([33.3 * 200 * (1 / 1) / 200], [0], [0]).
Proof.
  unfold IbFunctions.operational_correction_factors. simpl seq.
  unfold IbFunctions.correction_loop, IbFunctions.correction_step,
    IbFunctions.kinetic_loss, py_index.
  cbn [nth_error bind].
  destruct (Rge_dec 200 200) as [_ | Hn]; [ | lra].
  repeat (rewrite py_div_ok by lra; cbn [bind]).
  destruct (Rle_dec (1 / 1) 0.5) as [Hle | _]; [lra | ].
  reflexivity.
Qed.

Lemma correction_factors_sizes_witness :
  List.length [33.3 * 200 * (1 / 1) / 200] = 1%nat
  /\ List.length [0] = 1%nat /\ List.length [0] = 1%nat
  /\ (1 <= List.length [1])%nat /\ (1 <= List.length [200])%nat.
Proof.
  apply (correction_factors_sizes
           [1] 1 [200] 1 1 [1] 1 1 0.5 1 1 [1; 1] 1 [0] 1
           [33.3 * 200 * (1 / 1) / 200] [0] [0]).
  exact correction_factors_one_index.
Defined.

Lemma py_index_some {A : Type} (l : list A) (i : nat) (a : A) :
  nth_error l i = Some a -> py_index l i = Ok a.
Proof. intros H. unfold py_index. now rewrite H. Qed.

(** With [1/M < 0.9] and a throat between 24.5 mm and 25.4 mm, no branch
    assigns [C3], [C5] and [C6]: the first test divides by 0.0245, the
    other two by 0.0254. *)
Lemma two_phase_constants_gap (Dt M c7 : R) (st : IbFunctions.locals) :
  M <> 0 -> 1 / M < 0.9 -> 0.0245 <= Dt < 0.0254 ->
  IbFunctions.two_phase_constants Dt M c7 st = Ok (IbFunctions.assign_C4 1 st).
Proof.
  intros HM Hm [Hlo Hhi]. unfold IbFunctions.two_phase_constants.
  rewrite !py_div_ok by exact HM. cbn [bind].
  destruct (Rge_dec (1 / M) 0.9); [lra | ].
  destruct (Rlt_dec (1 / M) 0.9); [ | lra].
  destruct (Rlt_dec (Dt / 0.0245) 1); [lra | ].
  destruct (Rle_dec 1 (Dt / 0.0254)); [lra | ].
  destruct (Rge_dec (Dt / 0.0254) 2); [lra | reflexivity].
Qed.

(** X15.  With [1/M < 0.9] and a throat diameter from 0.0245 up to, but
    not including, 0.0254, a first time index below the critical pressure
    ratio makes [operational_correction_factors] raise
    [UnboundLocalError]: the branch for small throats tests
    [Dt / 0.0245 < 1], the next ones [Dt / 0.0254], and for such a throat
    none of them assigns [C3], which the two-phase loss then reads. *)
Theorem correction_factors_unassigned_constants
  (P0 : list R) (Pe : R) (P0psi : list R) (Isp_frozen Isp_shifting : R)
  (E : list R) (Dt qsi critical_pressure_ratio C1 C2 : R) (V0 : list R) (M : R)
  (t : list R) (n : nat) (p psi e ti v1 : R) :
  nth_error P0 0 = Some p -> p <> 0 -> Pe / p <= critical_pressure_ratio ->
  nth_error P0psi 0 = Some psi -> 0 < psi -> Isp_shifting <> 0 ->
  nth_error t 0 = Some ti -> nth_error E 0 = Some e -> e <> 0 ->
  nth_error V0 1 = Some v1 -> 0 < qsi ->
  M <> 0 -> 1 / M < 0.9 -> 0.0245 <= Dt < 0.0254 ->
  IbFunctions.operational_correction_factors P0 Pe P0psi Isp_frozen
    Isp_shifting E Dt qsi critical_pressure_ratio C1 C2 V0 M t (S n)
  = Raise UnboundLocalError.
Proof.
  intros Hp Hp0 Hbelow Hpsi Hpsi0 Hisp Hti He He0 Hv1 Hqsi HM Hm HDt.
  assert (Hthroat : 0 < Dt / 0.0254) by lra.
  assert (Harea : IbFunctions.circle_area Dt <> 0).
  { unfold IbFunctions.circle_area. pose proof PI_RGT_0 as Hpi.
    assert (0 < Dt ^ 2) by (apply pow_lt; lra).
    assert (0 < PI * 0.25 * Dt ^ 2)
      by (apply Rmult_lt_0_compat; [apply Rmult_lt_0_compat; lra | assumption]).
    lra. }
  assert (Hkin : exists nk, IbFunctions.kinetic_loss P0psi Isp_frozen Isp_shifting 0
                            = Ok nk).
  { unfold IbFunctions.kinetic_loss. rewrite (py_index_some _ _ _ Hpsi). cbn [bind].
    destruct (Rge_dec psi 200); [ | eexists; reflexivity].
    rewrite py_div_ok by exact Hisp. cbn [bind].
    rewrite py_div_ok by lra. eexists; reflexivity. }
  destruct Hkin as [nk Hkin].
  assert (Hstep : IbFunctions.below_critical_losses P0psi E Dt qsi C1 C2 V0 M t 0
                    IbFunctions.unbound = Raise UnboundLocalError).
  { unfold IbFunctions.below_critical_losses.
    rewrite (py_index_some _ _ _ Hpsi), (py_index_some _ _ _ Hti),
      (py_index_some _ _ _ He), (py_index_some _ _ _ Hv1).
    cbn [bind].
    rewrite !(py_pow_pos psi) by exact Hpsi0. cbn [bind].
    rewrite !(py_pow_pos (Dt / 0.0254)) by exact Hthroat. cbn [bind].
    assert (Hd02 : Rpower (Dt / 0.0254) 0.2 <> 0)
      by (unfold Rpower; pose proof (exp_pos (0.2 * ln (Dt / 0.0254))); lra).
    rewrite !(py_div_ok _ (Rpower (Dt / 0.0254) 0.2)) by exact Hd02. cbn [bind].
    unfold py_pow_int. destruct (Req_dec_T e 0); [contradiction | ]. cbn [bind].
    rewrite (py_pow_pos qsi) by exact Hqsi. cbn [bind].
    rewrite py_div_ok by exact Harea. cbn [bind].
    rewrite two_phase_constants_gap by assumption. cbn [bind].
    reflexivity. }
  unfold IbFunctions.operational_correction_factors. cbn [seq].
  cbn [IbFunctions.correction_loop]. unfold IbFunctions.correction_step.
  rewrite Hkin. cbn [bind]. rewrite (py_index_some _ _ _ Hp). cbn [bind].
  rewrite py_div_ok by exact Hp0. cbn [bind].
  destruct (Rle_dec (Pe / p) critical_pressure_ratio); [ | contradiction].
  rewrite Hstep. reflexivity.
Qed.

Lemma correction_factors_unassigned_constants_witness :
  IbFunctions.operational_correction_factors
    [1e6] 1e5 [145] 1 1 [8] 0.025 0.5 0.5 1 1 [1; 1] 2 [0] 1
  = Raise UnboundLocalError.
Proof.
  apply (correction_factors_unassigned_constants
           [1e6] 1e5 [145] 1 1 [8] 0.025 0.5 0.5 1 1 [1; 1] 2 [0] 0
           1e6 145 8 0 1); try reflexivity; lra.
Defined.

(** ** Nozzle wall thickness *)

(** X16.  [Nozzle.get_nozzle_thickness] of [structure.py], which takes the
    chamber pressures of a whole run, is [Nozzle.get_nozzle_thickness] of
    [structure/nozzle.py] at the largest of them, errors included: an
    empty pressure array raises [ValueError] before anything else, a zero
    safety factor raises [ZeroDivisionError]. *)
Theorem nozzle_thickness_at_max_pressure (self : Structure.Nozzle)
  (chamber_pressure : list R) (safety_factor : R)
  (chamber : Structure.CombustionChamber) :
  Structure.get_nozzle_thickness self chamber_pressure safety_factor chamber
  = (p_max <- Np.max chamber_pressure ;;
     MachwaveNozzle.get_nozzle_thickness self p_max safety_factor chamber)
  /\ (chamber_pressure = [] ->
      Structure.get_nozzle_thickness self chamber_pressure safety_factor chamber
      = Raise ValueError)
  /\ (chamber_pressure <> [] -> safety_factor = 0 ->
      Structure.get_nozzle_thickness self chamber_pressure safety_factor chamber
      = Raise ZeroDivisionError).
Proof.
  split; [ | split].
  - unfold Structure.get_nozzle_thickness, MachwaveNozzle.get_nozzle_thickness,
      MachwaveNozzle.get_nozzle_wall_thickness.
    destruct (Np.max chamber_pressure) as [p | e | ]; cbn [bind]; try reflexivity.
    destruct (py_div (Structure.yield_strength (Structure.material self))
                     safety_factor) as [a | e | ]; cbn [bind]; reflexivity.
  - intros ->. reflexivity.
  - intros Hne ->. unfold Structure.get_nozzle_thickness.
    destruct chamber_pressure as [ | p ps]; [now elim Hne | ].
    cbn [Np.max bind]. now rewrite py_div_zero.
Qed.

(** X17.  Thin-wall thickness of a nozzle wall: when the allowable stress
    [yield_strength / safety_factor] exceeds 0.6 times a positive chamber
    pressure, the thickness for a positive chamber diameter is a positive
    real number, and at least the thickness [p * D / (2 * allowable)] of a
    wall with no pressure term, for every wall angle from -90 to 90
    degrees; when the allowable stress equals the pressure term the
    division has no real value. *)
Theorem nozzle_wall_thickness_positive (self : Structure.Nozzle)
  (chamber_pressure safety_factor chamber_inner_diameter wall_angle : R) :
  safety_factor <> 0 ->
  0 < chamber_pressure -> 0 < chamber_inner_diameter ->
  -90 <= wall_angle <= 90 ->
  let allowable :=
    Structure.yield_strength (Structure.material self) / safety_factor in
  (0.6 * chamber_pressure < allowable ->
   exists thickness,
     MachwaveNozzle.get_nozzle_wall_thickness self chamber_pressure
       safety_factor chamber_inner_diameter wall_angle = Ok thickness
     /\ 0 < thickness
     /\ chamber_pressure * chamber_inner_diameter / 2 / allowable <= thickness)
  /\ (allowable = 0.6 * chamber_pressure * cos (wall_angle * PI / 180) ->
      MachwaveNozzle.get_nozzle_wall_thickness self chamber_pressure
        safety_factor chamber_inner_diameter wall_angle = NonReal).
Proof.
  intros Hsf Hp HD Hangle allowable.
  unfold MachwaveNozzle.get_nozzle_wall_thickness.
  rewrite py_div_ok by exact Hsf. cbn [bind]. fold allowable.
  pose proof PI_RGT_0 as Hpi.
  assert (Hcos : 0 <= cos (wall_angle * PI / 180) <= 1).
  { split; [ | apply COS_bound].
    apply cos_ge_0.
    - apply Rmult_le_reg_r with (r := 180); [lra | ].
      unfold Rdiv. rewrite Rmult_assoc, Rinv_l, Rmult_1_r by lra. nra.
    - apply Rmult_le_reg_r with (r := 180); [lra | ].
      unfold Rdiv at 1. rewrite Rmult_assoc, Rinv_l, Rmult_1_r by lra. nra. }
  set (c := cos (wall_angle * PI / 180)) in *.
  split.
  - intros Hallow.
    assert (Hterm : 0 <= 0.6 * chamber_pressure * c <= 0.6 * chamber_pressure)
      by (split; nra).
    assert (Hden : 0 < allowable - 0.6 * chamber_pressure * c) by lra.
    assert (Hnum : 0 < chamber_pressure * chamber_inner_diameter / 2) by nra.
    eexists. split; [apply np_div_ok; lra | ].
    split; [now apply Rdiv_lt_0_compat | ].
    unfold Rdiv at 1 3. apply Rmult_le_compat_l; [lra | ].
    apply Rinv_le_contravar; lra.
  - intros ->. rewrite Rminus_diag. apply np_div_zero.
Qed.

Lemma nozzle_wall_thickness_positive_witness :
  (0.6 * 1 < Structure.yield_strength (Structure.material steel_nozzle) / 1 ->
   exists thickness,
     MachwaveNozzle.get_nozzle_wall_thickness steel_nozzle 1 1 2 0 = Ok thickness
     /\ 0 < thickness
     /\ 1 * 2 / 2 / (Structure.yield_strength (Structure.material steel_nozzle) / 1)
        <= thickness)
  /\ (Structure.yield_strength (Structure.material steel_nozzle) / 1
      = 0.6 * 1 * cos (0 * PI / 180) ->
      MachwaveNozzle.get_nozzle_wall_thickness steel_nozzle 1 1 2 0 = NonReal).
Proof.
  apply (nozzle_wall_thickness_positive steel_nozzle 1 1 2 0); lra.
Defined.

(** ** Contour length and the tolerance *)

Lemma sum_select_mono (l : list R) (r : list R) (f g : R -> bool) :
  Forall (fun x => 0 <= x) l ->
  (forall x, f x = true -> g x = true) ->
  0 <= Np.sum (Np.select l (map f r))
       <= Np.sum (Np.select l (map g r)).
Proof.
  intros Hl Hfg. revert r.
  induction Hl as [ | x l Hx Hl IH]; intros r; [simpl; lra | ].
  destruct r as [ | y r]; [simpl; lra | ].
  specialize (IH r). unfold Np.select in *. cbn [map combine filter snd].
  destruct (f y) eqn:Hf.
  - rewrite (Hfg y Hf). cbn [map fst Np.sum fold_right].
    unfold Np.sum in IH. lra.
  - destruct (g y); cbn [map fst fold_right]; unfold Np.sum in *;
      cbn [fold_right]; lra.
Qed.

Lemma sum_select_le (l : list R) (mask : list bool) :
  Forall (fun x => 0 <= x) l ->
  0 <= Np.sum (Np.select l mask) <= Np.sum l.
Proof.
  intros Hl. revert mask.
  induction Hl as [ | x l Hx Hl IH]; intros mask; [simpl; lra | ].
  destruct mask as [ | b mask]; [pose proof (IH []); simpl in *; lra | ].
  specialize (IH mask). unfold Np.select in *. cbn [combine filter snd].
  destruct b; cbn [map fst fold_right]; unfold Np.sum in *;
    cbn [fold_right]; lra.
Qed.

Lemma segment_lengths_nonneg (contour : list (R * R)) :
  Forall (fun x => 0 <= x) (Geometric.segment_lengths contour).
Proof.
  unfold Geometric.segment_lengths. apply Forall_forall. intros x Hx.
  apply in_map_iff in Hx. destruct Hx as [pq [<- _]].
  unfold Np.norm2. apply sqrt_pos.
Qed.

Lemma norm2_nonneg (v : R * R) : 0 <= Np.norm2 v.
Proof. unfold Np.norm2. apply sqrt_pos. Qed.

Lemma select_all_false {A B : Type} (l : list A) (r : list B) :
  Np.select l (map (fun _ => false) r) = [].
Proof.
  revert r. induction l as [ | a l IH]; intros [ | y r]; try reflexivity.
  unfold Np.select in *. cbn [map combine filter snd]. apply IH.
Qed.

(** X18.  [get_length] is never negative and never more than the whole
    perimeter of the contour (the tolerance only drops segments), it does
    not grow when the tolerance grows, an empty contour has length 0, and
    so has every contour on a map whose half size does not exceed the
    tolerance: with the default tolerance 3, every map of 6 cells a side
    or fewer. *)
Theorem get_length_tolerance (contour : list (R * R)) (map_size : Z) :
  (forall tolerance,
     0 <= Geometric.get_length contour map_size tolerance
       <= Np.sum (Geometric.segment_lengths contour))
  /\ (forall tolerance tolerance',
        tolerance <= tolerance' ->
        Geometric.get_length contour map_size tolerance'
        <= Geometric.get_length contour map_size tolerance)
  /\ (forall tolerance, Geometric.get_length [] map_size tolerance = 0)
  /\ (forall tolerance,
        IZR map_size / 2 <= tolerance ->
        Geometric.get_length contour map_size tolerance = 0)
  /\ ((map_size <= 6)%Z ->
      Geometric.get_length contour map_size Geometric.default_tolerance = 0).
Proof.
  assert (Hzero : forall tolerance, IZR map_size / 2 <= tolerance ->
                    Geometric.get_length contour map_size tolerance = 0).
  { intros tolerance Htol. unfold Geometric.get_length, Geometric.radii.
    rewrite map_map.
    rewrite (map_ext _ (fun _ => false)).
    - rewrite select_all_false. reflexivity.
    - intros p. apply ltb_false.
      pose proof (norm2_nonneg (Np.sub2 p (IZR map_size / 2, IZR map_size / 2))).
      lra. }
  split; [ | split; [ | split; [ | split]]].
  - intros tolerance. unfold Geometric.get_length.
    apply sum_select_le, segment_lengths_nonneg.
  - intros tolerance tolerance' Htol. unfold Geometric.get_length.
    apply (sum_select_mono (Geometric.segment_lengths contour)
             (Geometric.radii contour map_size)
             (fun rd => Np.ltb rd (IZR map_size / 2 - tolerance'))
             (fun rd => Np.ltb rd (IZR map_size / 2 - tolerance)));
      [apply segment_lengths_nonneg | ].
    intros x Hx. unfold Np.ltb in *.
    destruct (Rlt_dec x (IZR map_size / 2 - tolerance')); [ | discriminate].
    destruct (Rlt_dec x (IZR map_size / 2 - tolerance)); [reflexivity | lra].
  - reflexivity.
  - exact Hzero.
  - intros Hsmall. apply Hzero. unfold Geometric.default_tolerance.
    apply IZR_le in Hsmall. lra.
Qed.

(** ** Fasteners of a bolted chamber *)

Lemma fold_left_Rmax_ge (l : list R) (x : R) :
  x <= fold_left Rmax l x /\ forall y, In y l -> y <= fold_left Rmax l x.
Proof.
  revert x. induction l as [ | a l IH]; intros x; simpl.
  - split; [lra | intros y []].
  - destruct (IH (Rmax x a)) as [H1 H2].
    pose proof (Rmax_l x a). pose proof (Rmax_r x a).
    split; [lra | ].
    intros y [<- | Hy]; [lra | now apply H2].
Qed.

(** The scan of [np.argmax]: after a prefix [p] whose largest entry [best]
    stands first at [best_index], the scan of the rest [a] ends on the
    first index of the largest entry of [p ++ a]. *)
Lemma argmax_from_spec (a : list R) :
  forall (p : list R) (best : R) (best_index : nat),
    (best_index < List.length p)%nat ->
    nth best_index p 0 = best ->
    (forall j, (j < List.length p)%nat -> nth j p 0 <= best) ->
    (forall j, (j < best_index)%nat -> nth j p 0 < best) ->
    let n := Np.argmax_from best best_index (List.length p) a in
    (n < List.length (p ++ a))%nat
    /\ nth n (p ++ a) 0 = fold_left Rmax a best
    /\ (forall j, (j < List.length (p ++ a))%nat ->
          nth j (p ++ a) 0 <= nth n (p ++ a) 0)
    /\ (forall j, (j < n)%nat -> nth j (p ++ a) 0 < nth n (p ++ a) 0).
Proof.
  induction a as [ | x xs IH]; intros p best bi Hbi Hbest Hle Hlt; cbn zeta.
  - cbn [Np.argmax_from fold_left]. rewrite app_nil_r. rewrite Hbest.
    repeat split; assumption.
  - cbn [Np.argmax_from fold_left].
    replace (p ++ x :: xs) with ((p ++ [x]) ++ xs)
      by (rewrite <- app_assoc; reflexivity).
    replace (S (List.length p)) with (List.length (p ++ [x]))
      by (rewrite length_app; simpl; lia).
    assert (Hlast : nth (List.length p) (p ++ [x]) 0 = x)
      by (rewrite app_nth2 by lia; now rewrite Nat.sub_diag).
    destruct (Rlt_dec best x) as [Hgt | Hng].
    + replace (Rmax best x) with x by (symmetry; apply Rmax_right; lra).
      apply IH.
      * rewrite length_app. simpl. lia.
      * exact Hlast.
      * intros j Hj. rewrite length_app in Hj. simpl in Hj.
        destruct (Nat.eq_dec j (List.length p)) as [-> | Hne];
          [rewrite Hlast; lra | ].
        rewrite app_nth1 by lia.
        assert (nth j p 0 <= best) by (apply Hle; lia). lra.
      * intros j Hj. rewrite app_nth1 by lia. specialize (Hle j Hj). lra.
    + replace (Rmax best x) with best by (symmetry; apply Rmax_left; lra).
      apply IH.
      * rewrite length_app. simpl. lia.
      * rewrite app_nth1 by lia. exact Hbest.
      * intros j Hj. rewrite length_app in Hj. simpl in Hj.
        destruct (Nat.eq_dec j (List.length p)) as [-> | Hne];
          [rewrite Hlast; lra | ].
        rewrite app_nth1 by lia. apply Hle. lia.
      * intros j Hj. rewrite app_nth1 by lia. now apply Hlt.
Qed.

(** [np.max] and [np.argmax] of one non-empty array: the index is the
    first one that holds the maximum. *)
Lemma max_argmax (a : list R) (m : R) (n : nat) :
  Np.max a = Ok m -> Np.argmax a = Ok n ->
  (n < List.length a)%nat /\ nth n a 0 = m
  /\ (forall j, (j < List.length a)%nat -> nth j a 0 <= m)
  /\ (forall j, (j < n)%nat -> nth j a 0 < m).
Proof.
  destruct a as [ | x xs]; [discriminate | ].
  cbn [Np.max Np.argmax]. intros Hm Hn.
  injection Hm as Hm. injection Hn as Hn.
  destruct (argmax_from_spec xs [x] x 0) as [H1 [H2 [H3 H4]]].
  - simpl. lia.
  - reflexivity.
  - intros j Hj. simpl in Hj. assert (j = 0%nat) as -> by lia. simpl. lra.
  - intros j Hj. lia.
  - change (List.length [x]) with 1%nat in *.
    change ([x] ++ xs) with (x :: xs) in *.
    rewrite Hn in *. rewrite Hm in H2. rewrite H2 in *.
    repeat split; assumption.
Qed.

Lemma nth_error_nth_default {A : Type} (l : list A) (j : nat) (a d : A) :
  nth_error l j = Some a -> nth j l d = a.
Proof. intros H. now apply nth_error_nth. Qed.

Lemma nth_map_lt {A B : Type} (g : A -> B) (l : list A) (j : nat) (d : B) (d' : A) :
  (j < List.length l)%nat -> nth j (map g l) d = g (nth j l d').
Proof.
  intros Hj. rewrite (nth_indep _ d (g d')) by (rewrite length_map; exact Hj).
  apply map_nth.
Qed.

(** X19.  What [get_optimal_fasteners] returns when it returns: three
    arrays of [max_screw_count] safety factors, entry [j] for [j + 1]
    screws; the largest, over the screw counts, of the weakest of the
    three factors; and the first index [n] that reaches it, so the best
    screw count is [n + 1], one more than the number returned. *)
Theorem optimal_fasteners_contract (self : Structure.BoltedCombustionChamber)
  (chamber_pressure : list R) (n : nat) (m : R) (sh te co : list R) :
  Structure.get_optimal_fasteners self chamber_pressure = Ok (n, m, sh, te, co) ->
  let count := Structure.max_screw_count self in
  let weakest := fun j => Rmin (Rmin (nth j sh 0) (nth j te 0)) (nth j co 0) in
  List.length sh = count /\ List.length te = count /\ List.length co = count
  /\ (n < count)%nat
  /\ weakest n = m
  /\ (forall j, (j < count)%nat -> weakest j <= m)
  /\ (forall j, (j < n)%nat -> weakest j < m)
  /\ (forall j, (j < count)%nat ->
        Structure.fastener_safety_factors self chamber_pressure (S j)
        = Ok (nth j sh 0, nth j te 0, nth j co 0)).
Proof.
  intros Hrun count weakest. unfold Structure.get_optimal_fasteners in Hrun.
  apply bind_ok in Hrun. destruct Hrun as [factors [Hfactors Hrun]].
  apply bind_ok in Hrun. destruct Hrun as [m' [Hmax Hrun]].
  apply bind_ok in Hrun. destruct Hrun as [n' [Hargmax Hrun]].
  injection Hrun as Hn Hm Hsh Hte Hco. subst n' m'.
  assert (Hlen : List.length factors = count).
  { rewrite (mapM_length _ _ _ Hfactors). apply length_seq. }
  assert (Hweak : Np.min3 (map (fun f => fst (fst f)) factors)
                    (map (fun f => snd (fst f)) factors)
                    (map (fun f => snd f) factors)
                  = map (fun f => Rmin (Rmin (fst (fst f)) (snd (fst f))) (snd f))
                        factors).
  { unfold Np.min3. clear. induction factors as [ | f fs IH]; [reflexivity | ].
    cbn [map combine fst snd]. f_equal. exact IH. }
  rewrite Hweak in Hmax, Hargmax.
  destruct (max_argmax _ _ _ Hmax Hargmax) as [H1 [H2 [H3 H4]]].
  rewrite length_map in H1, H3.
  assert (Hnth : forall j, (j < count)%nat ->
            nth j (map (fun f => Rmin (Rmin (fst (fst f)) (snd (fst f))) (snd f))
                       factors) 0
            = weakest j).
  { intros j Hj. unfold weakest. subst sh te co.
    rewrite !(nth_map_lt _ _ _ _ (0, 0, 0)) by lia. reflexivity. }
  rewrite Hlen in H1, H3.
  split; [subst sh; now rewrite length_map | ].
  split; [subst te; now rewrite length_map | ].
  split; [subst co; now rewrite length_map | ].
  split; [exact H1 | ].
  split; [rewrite <- Hnth by exact H1; exact H2 | ].
  split; [intros j Hj; rewrite <- Hnth by exact Hj; now apply H3 | ].
  split; [intros j Hj; rewrite <- Hnth by lia; now apply H4 | ].
  intros j Hj.
  destruct (mapM_nth _ _ _ Hfactors j (S j)) as [f [Hf Hfj]].
  { rewrite nth_error_nth' with (d := 0%nat) by (rewrite length_seq; exact Hj).
    rewrite seq_nth by exact Hj. reflexivity. }
  rewrite Hf. f_equal. subst sh te co.
  rewrite !(nth_map_lt _ _ _ _ (0, 0, 0)) by lia.
  rewrite (nth_error_nth_default _ _ _ _ Hfj).
  destruct f as [[s t] c]. reflexivity.
Qed.

Lemma bolted_chamber_one_screw :
  exists s t c,
    Structure.fastener_safety_factors bolted_chamber [1] 1 = Ok (s, t, c).
Proof.
  pose proof PI_RGT_0 as Hpi.
  unfold Structure.fastener_safety_factors, bolted_chamber.
  cbn [Structure.chamber Structure.inner_diameter Structure.outer_diameter
       Structure.casing_material Structure.screw_material
       Structure.yield_strength Structure.ultimate_strength
       Structure.screw_clearance_diameter Structure.screw_diameter
       Np.max fold_left INR].
  rewrite !(py_div_ok _ 1) by lra. cbn [bind].
  rewrite py_div_ok by lra. cbn [bind].
  replace (2 / 2 / (2 / 2)) with 1 by field.
  destruct (Rlt_dec 1 (-1)); [lra | ].
  destruct (Rlt_dec 1 1); [lra | ]. cbn [bind].
  rewrite asin_1.
  assert (Hforce : 0 < 1 * (PI * (2 / 2) ^ 2) / 1) by (simpl; lra).
  assert (Hshear : 0 < 2 ^ 2 * PI * 0.25) by (simpl; lra).
  assert (Htear : 0 < PI * 0.25 * (4 ^ 2 - 2 ^ 2) / 1
                      - PI / 2 * 0.25 * (4 ^ 2 - 2 ^ 2)) by (simpl; lra).
  assert (Hcomp : 0 < (4 - 2) * 2 / 2) by lra.
  set (force := 1 * (PI * (2 / 2) ^ 2) / 1) in *.
  set (shear_area := 2 ^ 2 * PI * 0.25) in *.
  set (tear_area := PI * 0.25 * (4 ^ 2 - 2 ^ 2) / 1
                    - PI / 2 * 0.25 * (4 ^ 2 - 2 ^ 2)) in *.
  set (compression_area := (4 - 2) * 2 / 2) in *.
  rewrite (np_div_ok _ 1) by lra. cbn [bind]. fold force.
  assert (H1 : 0 < force / shear_area) by now apply Rdiv_lt_0_compat.
  assert (H2 : 0 < force / tear_area) by now apply Rdiv_lt_0_compat.
  assert (H3 : 0 < force / compression_area) by now apply Rdiv_lt_0_compat.
  rewrite (np_div_ok force shear_area) by lra. cbn [bind].
  rewrite (np_div_ok _ (force / shear_area)) by lra. cbn [bind].
  rewrite (np_div_ok force tear_area) by lra. cbn [bind].
  rewrite (np_div_ok _ (force / tear_area)) by lra. cbn [bind].
  rewrite (np_div_ok force compression_area) by lra. cbn [bind].
  rewrite (np_div_ok _ (force / compression_area)) by lra. cbn [bind].
  do 3 eexists. reflexivity.
Qed.

Lemma bolted_chamber_optimal_fasteners :
  exists s t c,
    Structure.get_optimal_fasteners bolted_chamber [1]
    = Ok (0%nat, Rmin (Rmin s t) c, [s], [t], [c]).
Proof.
  destruct bolted_chamber_one_screw as [s [t [c H]]].
  exists s, t, c. unfold Structure.get_optimal_fasteners.
  change (seq 1 (Structure.max_screw_count bolted_chamber)) with [1%nat].
  cbn [mapM]. rewrite H. reflexivity.
Qed.

Lemma optimal_fasteners_contract_witness :
  exists n m sh te co,
    Structure.get_optimal_fasteners bolted_chamber [1] = Ok (n, m, sh, te, co)
    /\ List.length sh = 1%nat /\ List.length te = 1%nat
    /\ List.length co = 1%nat /\ (n < 1)%nat
    /\ Rmin (Rmin (nth n sh 0) (nth n te 0)) (nth n co 0) = m
    /\ (forall j, (j < 1)%nat ->
          Rmin (Rmin (nth j sh 0) (nth j te 0)) (nth j co 0) <= m)
    /\ (forall j, (j < n)%nat ->
          Rmin (Rmin (nth j sh 0) (nth j te 0)) (nth j co 0) < m)
    /\ (forall j, (j < 1)%nat ->
          Structure.fastener_safety_factors bolted_chamber [1] (S j)
          = Ok (nth j sh 0, nth j te 0, nth j co 0)).
Proof.
  destruct bolted_chamber_optimal_fasteners as [s [t [c H]]].
  exists 0%nat, (Rmin (Rmin s t) c), [s], [t], [c].
  split; [exact H | ].
  exact (optimal_fasteners_contract bolted_chamber [1] 0
           (Rmin (Rmin s t) c) [s] [t] [c] H).
Defined.

(** ** Where the centre of gravity can lie *)

Lemma sum_bounds (l : list R) (a b : R) :
  (forall v, In v l -> a <= v <= b) ->
  INR (List.length l) * a <= Np.sum l <= INR (List.length l) * b.
Proof.
  induction l as [ | x l IH]; intros Hl.
  - simpl. lra.
  - assert (Hx : a <= x <= b) by (apply Hl; now left).
    assert (IH' : INR (List.length l) * a <= Np.sum l <= INR (List.length l) * b)
      by (apply IH; intros v Hv; apply Hl; now right).
    change (List.length (x :: l)) with (S (List.length l)). rewrite S_INR.
    unfold Np.sum in *. cbn [fold_right]. lra.
Qed.

Lemma mean_bounds (l : list R) (a b : R) :
  l <> [] -> (forall v, In v l -> a <= v <= b) -> a <= Np.mean l <= b.
Proof.
  intros Hne Hl. pose proof (sum_bounds l a b Hl) as [Hlo Hhi].
  assert (Hn : 0 < INR (List.length l)).
  { destruct l; [now elim Hne | ]. apply lt_0_INR. simpl. lia. }
  unfold Np.mean. split.
  - apply (Rmult_le_reg_r (INR (List.length l))); [exact Hn | ].
    unfold Rdiv. rewrite Rmult_assoc, Rinv_l, Rmult_1_r by lra. lra.
  - apply (Rmult_le_reg_r (INR (List.length l))); [exact Hn | ].
    unfold Rdiv. rewrite Rmult_assoc, Rinv_l, Rmult_1_r by lra. lra.
Qed.

Lemma in_combine_snd {A B : Type} (l : list A) (l' : list B) (b : B) :
  List.length l = List.length l' -> In b l' -> exists a, In (a, b) (combine l l').
Proof.
  revert l'. induction l as [ | a l IH]; intros [ | b' l'] Hlen Hin;
    try discriminate; try (now destruct Hin).
  destruct Hin as [-> | Hin].
  - exists a. now left.
  - destruct (IH l') as [a' Ha']; [simpl in Hlen; lia | exact Hin | ].
    exists a'. now right.
Qed.

Lemma in_combine_fst {A B : Type} (l : list A) (l' : list B) (a : A) :
  List.length l = List.length l' -> In a l -> exists b, In (a, b) (combine l l').
Proof.
  revert l'. induction l as [ | a' l IH]; intros [ | b' l'] Hlen Hin;
    try discriminate; try (now destruct Hin).
  destruct Hin as [-> | Hin].
  - exists b'. now left.
  - destruct (IH l') as [b Hb]; [simpl in Hlen; lia | exact Hin | ].
    exists b. now right.
Qed.

(** An active cell lies inside the face map. *)
Lemma active_cell_in_map (face_map : list (list R)) (n r c : nat) :
  (List.length face_map <= n)%nat ->
  (forall row, In row face_map -> (List.length row <= n)%nat) ->
  nth c (nth r face_map []) 0 = 1 -> (r < n)%nat /\ (c < n)%nat.
Proof.
  intros Hrows Hcols Hcell.
  destruct (Nat.lt_ge_cases r (List.length face_map)) as [Hr | Hr].
  - split; [lia | ].
    destruct (Nat.lt_ge_cases c (List.length (nth r face_map []))) as [Hc | Hc].
    + specialize (Hcols (nth r face_map []) (nth_In _ _ Hr)). lia.
    + rewrite (nth_overflow _ _ Hc) in Hcell. lra.
  - rewrite (nth_overflow _ _ Hr) in Hcell. destruct c; simpl in Hcell; lra.
Qed.

Lemma scaled_offset_bounds (D n mean : R) :
  0 < D -> 0 < n -> - (n / 2) <= mean <= n - 1 - n / 2 ->
  - (D / 2) <= D * (mean / n) <= D / 2 - D / n.
Proof.
  intros HD Hn [Hlo Hhi].
  assert (Hq : - (1 / 2) <= mean / n <= 1 / 2 - 1 / n).
  { split.
    - apply (Rmult_le_reg_r n); [exact Hn | ].
      unfold Rdiv at 2. rewrite Rmult_assoc, Rinv_l, Rmult_1_r by lra. lra.
    - apply (Rmult_le_reg_r n); [exact Hn | ].
      unfold Rdiv at 1. rewrite Rmult_assoc, Rinv_l, Rmult_1_r by lra.
      replace ((1 / 2 - 1 / n) * n) with (n / 2 - 1) by (field; lra). lra. }
  replace (D / 2 - D / n) with (D * (1 / 2 - 1 / n)) by (field; lra).
  replace (- (D / 2)) with (D * - (1 / 2)) by field.
  split; apply Rmult_le_compat_l; lra.
Qed.

(** X20.  On a face map that fits the [map_dim] x [map_dim] grid of a
    segment with a positive outer diameter [D], a centre of gravity that
    [get_center_of_gravity] returns lies within the grain's square: both
    coordinates are at least [-D/2] and at most [D/2 - D/map_dim], one
    cell short of [D/2] because a cell is placed at its index, not at its
    middle; the axial coordinate is half the segment length. *)
Theorem center_of_gravity_within_grain (self : Fmm2D.FMMGrainSegment2D)
  (get_web_thickness : R) (get_face_map : R -> list (list R))
  (x x_cog y_cog z_cog : R) :
  0 < Fmm2D.outer_diameter self ->
  (List.length (get_face_map x) <= Fmm2D.map_dim self)%nat ->
  (forall row, In row (get_face_map x) ->
               (List.length row <= Fmm2D.map_dim self)%nat) ->
  Fmm2D.get_center_of_gravity self get_web_thickness get_face_map x
  = Ok (x_cog, y_cog, z_cog) ->
  - (Fmm2D.outer_diameter self / 2) <= x_cog
    <= Fmm2D.outer_diameter self / 2
       - Fmm2D.outer_diameter self / INR (Fmm2D.map_dim self)
  /\ - (Fmm2D.outer_diameter self / 2) <= y_cog
       <= Fmm2D.outer_diameter self / 2
          - Fmm2D.outer_diameter self / INR (Fmm2D.map_dim self)
  /\ z_cog = Fmm2D.length self / 2.
Proof.
  intros HD Hrows Hcols Hrun.
  rewrite cog_cases in Hrun.
  destruct (Rgt_dec x get_web_thickness); [discriminate | ].
  pose proof (length_indices get_face_map x) as Hlen.
  assert (Hcells : forall r c,
            In (r, c) (combine (fst (Fmm2D.active_cells get_face_map x))
                               (snd (Fmm2D.active_cells get_face_map x))) ->
            (r < Fmm2D.map_dim self)%nat /\ (c < Fmm2D.map_dim self)%nat).
  { intros r c Hin. apply (active_cell_in_map (get_face_map x)); try assumption.
    now apply active_cells_spec. }
  set (ys := fst (Fmm2D.active_cells get_face_map x)) in *.
  set (xs := snd (Fmm2D.active_cells get_face_map x)) in *.
  destruct xs as [ | x0 xs'] eqn:Hxs; [discriminate | ].
  assert (Hys : ys <> []) by (destruct ys; [discriminate | discriminate]).
  assert (Hdim : (0 < Fmm2D.map_dim self)%nat).
  { destruct (in_combine_snd ys (x0 :: xs') x0 Hlen) as [r Hr]; [now left | ].
    destruct (Hcells r x0 Hr). lia. }
  assert (Hn : 0 < INR (Fmm2D.map_dim self)) by (now apply lt_0_INR).
  assert (Hshift : forall i, (i < Fmm2D.map_dim self)%nat ->
            - (INR (Fmm2D.map_dim self) / 2)
            <= INR i - INR (Fmm2D.map_dim self) / 2
            <= INR (Fmm2D.map_dim self) - 1 - INR (Fmm2D.map_dim self) / 2).
  { intros i Hi. pose proof (pos_INR i) as Hpos.
    assert (INR i <= INR (Fmm2D.map_dim self) - 1).
    { apply le_INR in Hi. rewrite S_INR in Hi. lra. }
    lra. }
  unfold Fmm2D.map_to_length in Hrun.
  rewrite !np_div_ok in Hrun by lra. cbn [bind] in Hrun.
  injection Hrun as Hx Hy Hz.
  split; [ | split; [ | now symmetry]].
  - rewrite <- Hx. apply scaled_offset_bounds; try assumption.
    apply mean_bounds; [discriminate | ].
    intros v Hv.
    change (In v (map (fun i : nat => INR i - INR (Fmm2D.map_dim self) / 2)
                      (x0 :: xs'))) in Hv.
    apply in_map_iff in Hv. destruct Hv as [c [<- Hc]].
    destruct (in_combine_snd ys (x0 :: xs') c Hlen Hc) as [r Hr].
    apply Hshift. now destruct (Hcells r c Hr).
  - rewrite <- Hy. apply scaled_offset_bounds; try assumption.
    apply mean_bounds; [destruct ys; [now elim Hys | discriminate] | ].
    intros v Hv. apply in_map_iff in Hv. destruct Hv as [r [<- Hr]].
    destruct (in_combine_fst ys (x0 :: xs') r Hlen Hr) as [c Hc].
    apply Hshift. now destruct (Hcells r c Hc).
Qed.

Lemma corner_center_of_gravity :
  Fmm2D.get_center_of_gravity corner_segment 1 corner_face_map 0 = Ok (-1, -1, 2).
Proof.
  rewrite cog_cases.
  destruct (Rgt_dec 0 1); [lra | ].
  rewrite corner_active_cells. cbn [fst snd].
  unfold Fmm2D.map_to_length, Np.mean, Np.sum, corner_segment.
  cbn [map fold_right List.length Fmm2D.map_dim Fmm2D.outer_diameter
       Fmm2D.length INR].
  rewrite !np_div_ok by lra. cbn [bind].
  do 2 f_equal; [f_equal | ]; lra.
Qed.

Lemma center_of_gravity_within_grain_witness :
  - (Fmm2D.outer_diameter corner_segment / 2) <= -1
    <= Fmm2D.outer_diameter corner_segment / 2
       - Fmm2D.outer_diameter corner_segment / INR (Fmm2D.map_dim corner_segment)
  /\ - (Fmm2D.outer_diameter corner_segment / 2) <= -1
       <= Fmm2D.outer_diameter corner_segment / 2
          - Fmm2D.outer_diameter corner_segment
            / INR (Fmm2D.map_dim corner_segment)
  /\ 2 = Fmm2D.length corner_segment / 2.
Proof.
  apply (center_of_gravity_within_grain corner_segment 1 corner_face_map
           0 (-1) (-1) 2).
  - simpl. lra.
  - simpl. lia.
  - intros row [<- | [<- | []]]; simpl; lia.
  - exact corner_center_of_gravity.
Defined.

(** ** The mask of the raster grid *)

Lemma combine_map_same {A B C : Type} (f : A -> B) (g : A -> C) (l : list A) :
  combine (map f l) (map g l) = map (fun a => (f a, g a)) l.
Proof. induction l as [ | a l IH]; [reflexivity | simpl; now rewrite IH]. Qed.

Lemma combine_map_r {A C : Type} (g : A -> C) (l : list A) :
  combine l (map g l) = map (fun a => (a, g a)) l.
Proof. induction l as [ | a l IH]; [reflexivity | simpl; now rewrite IH]. Qed.

(** The mask, row by row: row [y] holds, for each [x] of the axis, whether
    [(x, y)] is outside the unit circle. *)
Lemma get_mask_rows (self : Fmm2D.FMMGrainSegment2D) :
  Fmm2D.get_mask self
  = map (fun y => map (fun x => Np.ltb 1 (x ^ 2 + y ^ 2))
                      (Np.linspace (-1) 1 (Fmm2D.map_dim self)))
        (Np.linspace (-1) 1 (Fmm2D.map_dim self)).
Proof.
  unfold Fmm2D.get_mask, Fmm2D.get_maps.
  rewrite combine_map_same, map_map. apply map_ext. intros y. cbn [fst snd].
  rewrite combine_map_r, map_map. reflexivity.
Qed.

Lemma length_linspace (start stop : R) (num : nat) :
  List.length (Np.linspace start stop num) = num.
Proof. unfold Np.linspace. now rewrite length_map, length_seq. Qed.

Lemma nth_linspace (start stop : R) (num i : nat) :
  (i < num)%nat ->
  nth i (Np.linspace start stop num) 0
  = start + INR i * ((stop - start) / INR (num - 1)).
Proof.
  intros Hi. unfold Np.linspace.
  rewrite (nth_map_lt _ _ _ _ 0%nat) by (rewrite length_seq; exact Hi).
  rewrite seq_nth by exact Hi. reflexivity.
Qed.

(** X21.  [get_mask] is a [map_dim] x [map_dim] array; its cell in row [i]
    and column [j] is set exactly when the grid point
    [(-1 + 2j/(map_dim-1), -1 + 2i/(map_dim-1))] lies outside the unit
    circle.  The mask equals its transpose, and the first cell, a corner
    of the grid, is always masked: on a grid of one cell the mask leaves
    no cell for the grain. *)
Theorem get_mask_unit_circle (self : Fmm2D.FMMGrainSegment2D) :
  let n := Fmm2D.map_dim self in
  let mask := Fmm2D.get_mask self in
  let coord := fun i : nat => -1 + INR i * ((1 - -1) / INR (n - 1)) in
  List.length mask = n
  /\ (forall i, (i < n)%nat -> List.length (nth i mask []) = n)
  /\ (forall i j, (i < n)%nat -> (j < n)%nat ->
        nth j (nth i mask []) false = true <-> 1 < coord j ^ 2 + coord i ^ 2)
  /\ (forall i j, nth j (nth i mask []) false = nth i (nth j mask []) false)
  /\ ((0 < n)%nat -> nth 0 (nth 0 mask []) false = true)
  /\ (n = 1%nat -> mask = [[true]]).
Proof.
  intros n mask coord. subst mask. rewrite get_mask_rows. fold n.
  set (axis := Np.linspace (-1) 1 n).
  assert (Hlen : List.length axis = n) by apply length_linspace.
  assert (Hax : forall i, (i < n)%nat -> nth i axis 0 = coord i)
    by (intros i Hi; unfold axis; now rewrite nth_linspace by exact Hi).
  assert (Hrow : forall i, (i < n)%nat ->
            nth i (map (fun y => map (fun x => Np.ltb 1 (x ^ 2 + y ^ 2)) axis) axis) []
            = map (fun x => Np.ltb 1 (x ^ 2 + coord i ^ 2)) axis).
  { intros i Hi. rewrite (nth_map_lt _ _ _ _ 0) by lia.
    now rewrite Hax by exact Hi. }
  assert (Hcell : forall i j, (i < n)%nat -> (j < n)%nat ->
            nth j (nth i (map (fun y => map (fun x => Np.ltb 1 (x ^ 2 + y ^ 2)) axis)
                              axis) []) false
            = Np.ltb 1 (coord j ^ 2 + coord i ^ 2)).
  { intros i j Hi Hj. rewrite Hrow by exact Hi.
    rewrite (nth_map_lt _ _ _ _ 0) by lia.
    now rewrite Hax by exact Hj. }
  assert (Hout : forall i j, (n <= i)%nat \/ (n <= j)%nat ->
            nth j (nth i (map (fun y => map (fun x => Np.ltb 1 (x ^ 2 + y ^ 2)) axis)
                              axis) []) false
            = false).
  { intros i j Hij.
    destruct (Nat.lt_ge_cases i n) as [Hi | Hi].
    - rewrite Hrow by exact Hi. apply nth_overflow. rewrite length_map. lia.
    - rewrite (nth_overflow _ []) by (rewrite length_map; lia).
      now destruct j. }
  split; [now rewrite length_map | ].
  split; [intros i Hi; rewrite Hrow by exact Hi; now rewrite length_map | ].
  split; [intros i j Hi Hj; rewrite Hcell by assumption; apply ltb_true | ].
  split.
  - intros i j.
    destruct (Nat.lt_ge_cases i n) as [Hi | Hi];
      destruct (Nat.lt_ge_cases j n) as [Hj | Hj].
    + rewrite !Hcell by assumption. f_equal. lra.
    + rewrite (Hout i j), (Hout j i) by lia. reflexivity.
    + rewrite (Hout i j), (Hout j i) by lia. reflexivity.
    + rewrite (Hout i j), (Hout j i) by lia. reflexivity.
  - split.
    + intros Hn. rewrite Hcell by exact Hn. apply ltb_true.
      unfold coord. simpl. lra.
    + intros Hn1. unfold axis. rewrite Hn1. unfold Np.linspace.
      cbn [seq map INR]. f_equal. f_equal. apply ltb_true. simpl. lra.
Qed.

(** ** The face-area table of a raster segment *)

Lemma mapM_ok_map {A B : Type} (f : A -> outcome B) (g : A -> B) (l : list A) :
  (forall a, In a l -> f a = Ok (g a)) -> mapM f l = Ok (map g l).
Proof.
  induction l as [ | a l IH]; intros H; [reflexivity | ].
  cbn [mapM map]. rewrite (H a) by now left. cbn [bind].
  rewrite IH by (intros a' Ha'; apply H; now right). reflexivity.
Qed.

Lemma length_filter_map {A : Type} (g : A -> bool) (l : list A) :
  List.length (filter (fun b : bool => b) (map g l)) = List.length (filter g l).
Proof.
  induction l as [ | a l IH]; [reflexivity | ].
  cbn [map filter]. destruct (g a); cbn [List.length]; now rewrite IH.
Qed.

Lemma count_solid_cells (regression_map : list (list R)) (level : R)
  (valid : list (list bool)) :
  Np.count_nonzero (Fmm2D.solid_cells regression_map level valid)
  = List.length (filter (fun vb => Np.ltb level (fst vb) && snd vb)
                        (paired_cells regression_map valid)).
Proof.
  unfold Np.count_nonzero, Fmm2D.solid_cells, paired_cells.
  rewrite <- (map_map (fun rows : list R * list bool =>
                         combine (fst rows) (snd rows))
                      (map (fun vb : R * bool => Np.ltb level (fst vb) && snd vb))).
  rewrite <- concat_map. apply length_filter_map.
Qed.

Lemma length_filter_le {A : Type} (f g : A -> bool) (l : list A) :
  (forall a, In a l -> f a = true -> g a = true) ->
  (List.length (filter f l) <= List.length (filter g l))%nat.
Proof.
  induction l as [ | a l IH]; intros H; [simpl; lia | ].
  assert (IH' : (List.length (filter f l) <= List.length (filter g l))%nat)
    by (apply IH; intros a' Ha'; apply H; now right).
  cbn [filter]. destruct (f a) eqn:Hf.
  - rewrite (H a) by (now left || exact Hf). simpl. lia.
  - destruct (g a); simpl; lia.
Qed.

Lemma filter_none {A : Type} (f : A -> bool) (l : list A) :
  (forall a, In a l -> f a = false) -> filter f l = [].
Proof.
  induction l as [ | a l IH]; intros H; [reflexivity | ].
  cbn [filter]. rewrite (H a) by now left.
  apply IH. intros a' Ha'. apply H. now right.
Qed.

Lemma paired_cells_in (regression_map : list (list R)) (valid : list (list bool))
  (v : R) (b : bool) :
  In (v, b) (paired_cells regression_map valid) -> In v (concat regression_map).
Proof.
  unfold paired_cells. intros H. apply in_concat in H.
  destruct H as [row [Hrow Hv]]. apply in_map_iff in Hrow.
  destruct Hrow as [[r m] [<- Hrm]]. cbn [fst snd] in Hv.
  apply in_concat. exists r. split.
  - exact (in_combine_l _ _ _ _ Hrm).
  - exact (in_combine_l _ _ _ _ Hv).
Qed.

Lemma amax_ge (a : list (list R)) (m v : R) :
  Np.amax a = Ok m -> In v (concat a) -> v <= m.
Proof.
  unfold Np.amax. destruct (concat a) as [ | x xs]; [discriminate | ].
  intros H Hv. injection H as <-.
  destruct (fold_left_Rmax_ge xs x) as [H1 H2].
  destruct Hv as [<- | Hv]; [exact H1 | now apply H2].
Qed.

(** The last sample of the table lies beyond the largest distance. *)
Lemma last_sample_beyond (max_dist n : R) :
  0 < n -> 0 <= max_dist ->
  max_dist
  < INR (Z.to_nat (py_int (max_dist * n) + 2) - 1) / n.
Proof.
  intros Hn Hm.
  assert (Hx : 0 <= max_dist * n) by (apply Rmult_le_pos; lra).
  unfold py_int. destruct (Rle_dec 0 (max_dist * n)); [ | contradiction].
  destruct (base_Int_part (max_dist * n)) as [Hlo Hhi].
  assert (Hz : (0 <= Int_part (max_dist * n))%Z).
  { apply le_IZR.
    assert (Hgt : -1 < IZR (Int_part (max_dist * n))) by lra.
    apply lt_IZR in Hgt. apply IZR_le. lia. }
  replace (Z.to_nat (Int_part (max_dist * n) + 2) - 1)%nat
    with (Z.to_nat (Int_part (max_dist * n) + 1)) by lia.
  rewrite INR_IZR_INZ, Z2Nat.id by lia. rewrite plus_IZR.
  apply (Rmult_lt_reg_r n); [exact Hn | ].
  unfold Rdiv. rewrite Rmult_assoc, Rinv_l, Rmult_1_r by lra. lra.
Qed.

(** X22.  The table [get_face_area_interp_func] hands to the smoothing
    filter, for a [map_dim] x [map_dim] regression map whose largest
    distance [max_dist] is not negative: it has
    [int(max_dist * map_dim) + 2] samples, sample [i] taken at the
    normalised web distance [i / map_dim]; the face areas are never
    negative, never grow with the web distance, and the last one is 0,
    its web distance lying beyond [max_dist]. *)
Theorem face_area_table (self : Fmm2D.FMMGrainSegment2D)
  (regression_map : list (list R)) (max_dist : R) :
  (0 < Fmm2D.map_dim self)%nat ->
  List.length regression_map = Fmm2D.map_dim self ->
  (forall row, In row regression_map -> List.length row = Fmm2D.map_dim self) ->
  Np.amax regression_map = Ok max_dist ->
  0 <= max_dist ->
  exists web_distance_normalized face_area : list R,
    (forall savgol_filter interp1d,
       Fmm2D.get_face_area_interp_func self regression_map savgol_filter interp1d
       = (smooth <- savgol_filter face_area 31%Z 5%Z ;;
          interp1d web_distance_normalized smooth))
    /\ List.length web_distance_normalized
       = Z.to_nat (py_int (max_dist * INR (Fmm2D.map_dim self)) + 2)
    /\ List.length face_area = List.length web_distance_normalized
    /\ (forall i, (i < List.length web_distance_normalized)%nat ->
          nth i web_distance_normalized 0 = INR i / INR (Fmm2D.map_dim self))
    /\ (forall i, (i < List.length face_area)%nat -> 0 <= nth i face_area 0)
    /\ (forall i j, (i <= j)%nat -> (j < List.length face_area)%nat ->
          nth j face_area 0 <= nth i face_area 0)
    /\ max_dist < nth (List.length face_area - 1) web_distance_normalized 0
    /\ nth (List.length face_area - 1) face_area 0 = 0.
Proof.
  intros Hdim _ _ Hamax Hmax.
  assert (Hn : 0 < INR (Fmm2D.map_dim self)) by now apply lt_0_INR.
  assert (Hn2 : 0 < INR (Fmm2D.map_dim self) ^ 2) by now apply pow_lt.
  set (n := Fmm2D.map_dim self) in *.
  set (valid := map (map negb) (Fmm2D.get_mask self)).
  set (count := fun w : R =>
         List.length (filter (fun vb : R * bool => Np.ltb w (fst vb) && snd vb)
                             (paired_cells regression_map valid))).
  set (area := fun w : R => Fmm2D.outer_diameter self ^ 2 * (INR (count w) / INR n ^ 2)).
  set (len := Z.to_nat (py_int (max_dist * INR n) + 2)).
  set (ws := map (fun i : nat => INR i / INR n) (seq 0 len)).
  assert (Hlen : List.length ws = len)
    by (unfold ws; now rewrite length_map, length_seq).
  assert (Hws : forall i, (i < len)%nat -> nth i ws 0 = INR i / INR n).
  { intros i Hi. unfold ws.
    rewrite (nth_map_lt _ _ _ _ 0%nat) by (rewrite length_seq; exact Hi).
    now rewrite seq_nth by exact Hi. }
  assert (Htable : forall i, (i < len)%nat ->
            nth i (map area ws) 0 = area (INR i / INR n)).
  { intros i Hi. rewrite (nth_map_lt _ _ _ _ 0) by lia. now rewrite Hws. }
  assert (Hpos : (0 < len)%nat).
  { unfold len, py_int.
    assert (Hx : 0 <= max_dist * INR n) by (apply Rmult_le_pos; lra).
    destruct (Rle_dec 0 (max_dist * INR n)); [ | contradiction].
    destruct (base_Int_part (max_dist * INR n)) as [_ Hhi].
    assert (Hgt : -1 < IZR (Int_part (max_dist * INR n))) by lra.
    apply lt_IZR in Hgt. lia. }
  exists ws, (map area ws).
  rewrite length_map, Hlen.
  split; [ | split; [reflexivity | split; [reflexivity | split; [exact Hws | ]]]].
  - intros savgol_filter interp1d. unfold Fmm2D.get_face_area_interp_func.
    rewrite Hamax. cbn [bind]. fold n valid len.
    rewrite (mapM_ok_map _ (fun i : nat => INR i / INR n))
      by (intros i _; apply py_div_ok; lra).
    cbn [bind]. fold ws.
    rewrite (mapM_ok_map _ area); [reflexivity | ].
    intros w _. unfold Fmm2D.map_to_area. fold n.
    rewrite np_div_ok by lra. cbn [bind].
    unfold area, count. now rewrite count_solid_cells.
  - assert (Hmono : forall w w', w <= w' -> area w' <= area w).
    { intros w w' Hw. unfold area.
      apply Rmult_le_compat_l; [apply pow2_ge_0 | ].
      unfold Rdiv. apply Rmult_le_compat_r; [apply Rlt_le, Rinv_0_lt_compat, Hn2 | ].
      apply le_INR. unfold count. apply length_filter_le.
      intros [v b] _ Hvb. cbn [fst snd] in *.
      apply andb_true_iff in Hvb. destruct Hvb as [Hv Hb].
      apply andb_true_iff. split; [ | exact Hb].
      apply ltb_true in Hv. apply ltb_true. lra. }
    split; [ | split; [ | split]].
    + intros i Hi. rewrite Htable by exact Hi. unfold area.
      apply Rmult_le_pos; [apply pow2_ge_0 | ].
      apply Rmult_le_pos; [apply pos_INR | apply Rlt_le, Rinv_0_lt_compat, Hn2].
    + intros i j Hij Hj. rewrite !Htable by lia. apply Hmono.
      unfold Rdiv. apply Rmult_le_compat_r; [apply Rlt_le, Rinv_0_lt_compat, Hn | ].
      now apply le_INR.
    + rewrite Hws by lia. now apply last_sample_beyond.
    + rewrite Htable by lia. unfold area.
      pose proof (last_sample_beyond max_dist (INR n) Hn Hmax) as Hlast.
      fold len in Hlast.
      replace (count (INR (len - 1) / INR n)) with 0%nat;
        [simpl; unfold Rdiv; ring | ].
      unfold count. rewrite filter_none; [reflexivity | ].
      intros [v b] Hin. cbn [fst snd]. apply andb_false_iff. left.
      apply ltb_false.
      pose proof (amax_ge _ _ v Hamax (paired_cells_in _ _ _ _ Hin)). lra.
Qed.

Lemma face_area_table_witness :
  exists web_distance_normalized face_area : list R,
    (forall savgol_filter interp1d,
       Fmm2D.get_face_area_interp_func corner_segment flat_regression_map
         savgol_filter interp1d
       = (smooth <- savgol_filter face_area 31%Z 5%Z ;;
          interp1d web_distance_normalized smooth))
    /\ List.length web_distance_normalized
       = Z.to_nat (py_int (fold_left Rmax [0; 0; 0] 0
                           * INR (Fmm2D.map_dim corner_segment)) + 2)
    /\ List.length face_area = List.length web_distance_normalized
    /\ (forall i, (i < List.length web_distance_normalized)%nat ->
          nth i web_distance_normalized 0
          = INR i / INR (Fmm2D.map_dim corner_segment))
    /\ (forall i, (i < List.length face_area)%nat -> 0 <= nth i face_area 0)
    /\ (forall i j, (i <= j)%nat -> (j < List.length face_area)%nat ->
          nth j face_area 0 <= nth i face_area 0)
    /\ fold_left Rmax [0; 0; 0] 0
       < nth (List.length face_area - 1) web_distance_normalized 0
    /\ nth (List.length face_area - 1) face_area 0 = 0.
Proof.
  apply (face_area_table corner_segment flat_regression_map
           (fold_left Rmax [0; 0; 0] 0)).
  - simpl. lia.
  - reflexivity.
  - intros row [<- | [<- | []]]; reflexivity.
  - reflexivity.
  - exact (proj1 (fold_left_Rmax_ge [0; 0; 0] 0)).
Defined.

(** ** Chamber walls *)

(** X23.  The thin-wall formulas of the nozzle and of the casing are
    inverse to each other: a casing whose wall has the thickness
    [get_nozzle_wall_thickness] gives, at wall angle 0, for a chamber
    pressure [p] and a safety factor [s], has the casing safety factor
    [s] at the pressure [p]. *)
Theorem casing_of_nozzle_wall_thickness (nozzle : Structure.Nozzle)
  (chamber : Structure.CombustionChamber) (p s t : R) :
  0 < p -> 0 < s -> 0 < Structure.inner_diameter chamber ->
  0.6 * p < Structure.yield_strength (Structure.material nozzle) / s ->
  Structure.casing_material chamber = Structure.material nozzle ->
  MachwaveNozzle.get_nozzle_wall_thickness nozzle p s
    (Structure.inner_diameter chamber) 0 = Ok t ->
  Structure.outer_diameter chamber = Structure.inner_diameter chamber + 2 * t ->
  Structure.get_casing_safety_factor chamber [p] = Ok s.
Proof.
  intros Hp Hs HD Hallow Hmat Ht Hout.
  unfold MachwaveNozzle.get_nozzle_wall_thickness in Ht.
  rewrite py_div_ok in Ht by lra. cbn [bind] in Ht.
  replace (0 * PI / 180) with 0 in Ht by (unfold Rdiv; ring).
  rewrite cos_0, Rmult_1_r in Ht.
  rewrite np_div_ok in Ht by lra. injection Ht as Ht.
  unfold Structure.get_casing_safety_factor. rewrite Hout, Hmat.
  set (sigma := Structure.yield_strength (Structure.material nozzle)) in *.
  set (D := Structure.inner_diameter chamber) in *.
  assert (Hsigma : 0 < sigma).
  { assert (H : 0 < sigma / s) by lra.
    replace sigma with (sigma / s * s) by (field; lra).
    now apply Rmult_lt_0_compat. }
  assert (Hden : 0 < sigma / s - 0.6 * p) by lra.
  assert (Htpos : 0 < t).
  { rewrite <- Ht. apply Rdiv_lt_0_compat; [ | exact Hden].
    apply Rdiv_lt_0_compat; [now apply Rmult_lt_0_compat | lra]. }
  cbn [Np.max fold_left bind].
  replace ((D + 2 * t - D) / 2) with t by field.
  rewrite py_div_ok by lra. cbn [bind].
  rewrite np_div_ok by lra. f_equal.
  assert (Hsplit : sigma * t = p * s * (D * 0.5 + 0.6 * t)).
  { rewrite <- Ht.
    replace 0.5 with (1 / 2) by lra. replace 0.6 with (3 / 5) in * by lra.
    assert (Hk : 0 < sigma * 5 - 3 * p * s).
    { replace (sigma * 5 - 3 * p * s) with (5 * s * (sigma / s - 3 / 5 * p))
        by (field; lra).
      apply Rmult_lt_0_compat; lra. }
    field. split; lra. }
  rewrite Hsplit. field. lra.
Qed.

Lemma casing_of_nozzle_wall_thickness_witness :
  Structure.get_casing_safety_factor thin_wall_chamber [1] = Ok 1.
Proof.
  assert (Hcos : cos (0 * PI / 180) = 1)
    by (replace (0 * PI / 180) with 0 by (unfold Rdiv; ring); apply cos_0).
  apply (casing_of_nozzle_wall_thickness steel_nozzle thin_wall_chamber 1 1
           (1 * 2 / 2 / (10 / 1 - 0.6 * 1 * cos (0 * PI / 180)))).
  - lra.
  - lra.
  - simpl. lra.
  - simpl. lra.
  - reflexivity.
  - unfold MachwaveNozzle.get_nozzle_wall_thickness. simpl.
    rewrite py_div_ok by lra. cbn [bind].
    rewrite np_div_ok by (rewrite Hcos; lra). reflexivity.
  - reflexivity.
Defined.

(** X24.  [get_bulkhead_thickness] raises [ValueError] on an empty
    pressure array and [ZeroDivisionError] for a zero safety factor.  For
    a positive yield strength, a positive safety factor and a largest
    pressure [p_max >= 0] it returns a thickness [t], not negative when
    the inner diameter [D] is not, at which the plate formula holds with
    equality:
    [t^2 * (yield / safety_factor) = 0.75 * p_max * D^2]; for a negative
    largest pressure the square root has no real value. *)
Theorem bulkhead_thickness_cases (self : Structure.CombustionChamber)
  (safety_factor : R) :
  Structure.get_bulkhead_thickness self [] safety_factor = Raise ValueError
  /\ (forall p ps,
        Structure.get_bulkhead_thickness self (p :: ps) 0
        = Raise ZeroDivisionError)
  /\ (forall p ps,
        0 < Structure.yield_strength (Structure.bulkhead_material self) ->
        0 < safety_factor ->
        let p_max := fold_left Rmax ps p in
        (0 <= p_max ->
         exists t,
           Structure.get_bulkhead_thickness self (p :: ps) safety_factor = Ok t
           /\ (0 <= Structure.inner_diameter self -> 0 <= t)
           /\ t ^ 2
              * (Structure.yield_strength (Structure.bulkhead_material self)
                 / safety_factor)
              = 0.75 * p_max * Structure.inner_diameter self ^ 2)
        /\ (p_max < 0 ->
            Structure.get_bulkhead_thickness self (p :: ps) safety_factor
            = NonReal)).
Proof.
  split; [reflexivity | ].
  split.
  - intros p ps. unfold Structure.get_bulkhead_thickness.
    cbn [Np.max bind]. now rewrite py_div_zero.
  - intros p ps Hy Hs p_max.
    set (sigma := Structure.yield_strength (Structure.bulkhead_material self)) in *.
    assert (Hallow : 0 < sigma / safety_factor) by
      (now apply Rdiv_lt_0_compat).
    unfold Structure.get_bulkhead_thickness. cbn [Np.max bind]. fold p_max sigma.
    rewrite py_div_ok by lra. cbn [bind].
    rewrite np_div_ok by lra. cbn [bind].
    split.
    + intros Hp.
      assert (Hq : 0 <= 0.75 * p_max / (sigma / safety_factor)).
      { apply Rmult_le_pos; [lra | apply Rlt_le, Rinv_0_lt_compat, Hallow]. }
      rewrite np_sqrt_ok by exact Hq. cbn [bind].
      eexists. split; [reflexivity | ].
      split.
      * intros HD. apply Rmult_le_pos; [exact HD | apply sqrt_pos].
      * rewrite Rpow_mult_distr. rewrite pow2_sqrt by exact Hq.
        field. split; lra.
    + intros Hp. unfold Np.sqrt.
      destruct (Rle_dec 0 (0.75 * p_max / (sigma / safety_factor))) as [Hq | _];
        [ | reflexivity].
      exfalso.
      assert (Hneg : 0.75 * p_max / (sigma / safety_factor) < 0).
      { unfold Rdiv at 1. replace 0 with (0.75 * p_max * 0) by ring.
        assert (Hi : 0 < / (sigma / safety_factor)) by now apply Rinv_0_lt_compat.
        nra. }
      lra.
Qed.

(** ** The end face of a BATES segment *)

(** X25.  The end face of a BATES segment whose core diameter is positive
    and below the outer diameter, as [validate] asserts, is the outer
    circle less the circle of the burnt core, [get_circle_area] of the
    two diameters.
    Its area shrinks strictly as the web distance grows from 0, is
    positive before the web thickness and exactly 0 at it. *)
Theorem bates_face_area_until_burnout (s : Bates.BatesSegment) :
  0 < Bates.core_diameter s < Bates.outer_diameter s ->
  Bates.get_face_area s (Bates.get_web_thickness s) = 0
  /\ (forall x, 0 <= x < Bates.get_web_thickness s -> 0 < Bates.get_face_area s x)
  /\ (forall x y, 0 <= x -> x < y ->
        Bates.get_face_area s y < Bates.get_face_area s x)
  /\ (forall x,
        Bates.get_face_area s x
        = Geometric.get_circle_area (Bates.outer_diameter s)
          - Geometric.get_circle_area (Bates.core_diameter s + 2 * x)).
Proof.
  intros [Hd HD].
  pose proof PI_RGT_0 as Hpi.
  unfold Bates.get_face_area, Bates.get_web_thickness, Geometric.get_circle_area.
  set (D := Bates.outer_diameter s) in *. set (d := Bates.core_diameter s) in *.
  split; [ | split; [ | split]].
  - replace (d + 2 * (0.5 * (D - d))) with D by lra.
    unfold Rdiv. ring.
  - intros x [Hx0 Hx].
    apply Rmult_lt_0_compat; [exact Hpi | ].
    replace ((D ^ 2 - (d + 2 * x) ^ 2) / 4)
      with ((D - (d + 2 * x)) * (D + (d + 2 * x)) / 4) by (unfold Rdiv; ring).
    apply Rdiv_lt_0_compat; [apply Rmult_lt_0_compat; lra | lra].
  - intros x y Hx Hxy.
    apply Rmult_lt_compat_l; [exact Hpi | ].
    apply Rplus_lt_reg_r with (r := - ((D ^ 2 - (d + 2 * y) ^ 2) / 4)).
    rewrite Rplus_opp_r.
    replace ((D ^ 2 - (d + 2 * x) ^ 2) / 4 + - ((D ^ 2 - (d + 2 * y) ^ 2) / 4))
      with ((y - x) * (d + x + y)) by (unfold Rdiv; field).
    apply Rmult_lt_0_compat; lra.
  - intros x. replace 0.25 with (/ 4) by lra. unfold Rdiv. ring.
Qed.

Lemma bates_face_area_until_burnout_witness :
  Bates.get_face_area control_segment (Bates.get_web_thickness control_segment) = 0
  /\ (forall x, 0 <= x < Bates.get_web_thickness control_segment ->
                0 < Bates.get_face_area control_segment x)
  /\ (forall x y, 0 <= x -> x < y ->
        Bates.get_face_area control_segment y < Bates.get_face_area control_segment x)
  /\ (forall x,
        Bates.get_face_area control_segment x
        = Geometric.get_circle_area (Bates.outer_diameter control_segment)
          - Geometric.get_circle_area (Bates.core_diameter control_segment + 2 * x)).
Proof.
  apply (bates_face_area_until_burnout control_segment).
  simpl. lra.
Defined.

(** ** Chamber length *)

(** X26.  For a grain whose segments all have the spacing [sp],
    [get_chamber_length] of the segment lengths, the segment count and
    [sp] is the length the test [test_olympus_grain_total_length_property]
    accumulates, less one spacing: the chamber ends at the last segment,
    not after its spacing.  For the Olympus grain it is 1.460 m. *)
Theorem chamber_length_drops_last_spacing (grain : Grain.Grain) (sp : R) :
  (forall s, In s grain -> Bates.spacing s = sp) ->
  Structure.get_chamber_length (map Bates.length grain)
    (Z.of_nat (List.length grain)) sp
  = Grain.accumulated_total_length grain - sp
  /\ Structure.get_chamber_length (map Bates.length Grain.bates_grain_olympus)
       (Z.of_nat (List.length Grain.bates_grain_olympus)) 10e-3
     = 1460e-3.
Proof.
  intros Hsp. split.
  - unfold Structure.get_chamber_length, Grain.accumulated_total_length.
    rewrite fold_left_total_length, <- INR_IZR_INZ.
    induction grain as [ | s grain IH].
    + simpl. lra.
    + assert (Hs : Bates.spacing s = sp) by (apply Hsp; now left).
      assert (IH' : Np.sum (map Bates.length grain)
                    + (INR (List.length grain) - 1) * sp
                    = 0 + Np.sum (map (fun s0 => Bates.length s0 + Bates.spacing s0)
                                      grain) - sp)
        by (apply IH; intros s' Hs'; apply Hsp; now right).
      change (List.length (s :: grain)) with (S (List.length grain)).
      rewrite S_INR. unfold Np.sum in *. cbn [map fold_right].
      rewrite Hs. lra.
  - unfold Structure.get_chamber_length, Grain.bates_grain_olympus, Np.sum.
    simpl. lra.
Qed.

Lemma chamber_length_drops_last_spacing_witness :
  Structure.get_chamber_length (map Bates.length Grain.bates_grain_olympus)
    (Z.of_nat (List.length Grain.bates_grain_olympus)) 10e-3
  = Grain.accumulated_total_length Grain.bates_grain_olympus - 10e-3
  /\ Structure.get_chamber_length (map Bates.length Grain.bates_grain_olympus)
       (Z.of_nat (List.length Grain.bates_grain_olympus)) 10e-3
     = 1460e-3.
Proof.
  apply (chamber_length_drops_last_spacing Grain.bates_grain_olympus 10e-3).
  intros s Hs. repeat (destruct Hs as [<- | Hs]; [reflexivity | ]).
  destruct Hs.
Defined.

(** ** Core perimeter *)

Lemma get_length_nonneg (contour : list (R * R)) (map_size : Z) (tolerance : R) :
  0 <= Geometric.get_length contour map_size tolerance.
Proof.
  unfold Geometric.get_length.
  apply sum_select_le, segment_lengths_nonneg.
Qed.

Lemma get_length_small_map (contour : list (R * R)) (map_size : Z) (tolerance : R) :
  IZR map_size / 2 <= tolerance ->
  Geometric.get_length contour map_size tolerance = 0.
Proof.
  intros Htol. unfold Geometric.get_length, Geometric.radii.
  rewrite map_map. rewrite (map_ext _ (fun _ => false)).
  - rewrite select_all_false. reflexivity.
  - intros p. apply ltb_false.
    pose proof (norm2_nonneg (Np.sub2 p (IZR map_size / 2, IZR map_size / 2))).
    lra.
Qed.

Lemma sum_nonneg (l : list R) : (forall v, In v l -> 0 <= v) -> 0 <= Np.sum l.
Proof.
  induction l as [ | x l IH]; intros H; [simpl; lra | ].
  assert (Hx : 0 <= x) by (apply H; now left).
  assert (Hl : 0 <= Np.sum l) by (apply IH; intros v Hv; apply H; now right).
  unfold Np.sum in *. cbn [fold_right]. lra.
Qed.

Lemma sum_zero (l : list R) : (forall v, In v l -> v = 0) -> Np.sum l = 0.
Proof.
  induction l as [ | x l IH]; intros H; [reflexivity | ].
  unfold Np.sum in *. cbn [fold_right].
  rewrite (H x) by now left. rewrite IH by (intros v Hv; apply H; now right).
  lra.
Qed.

(** X27.  On a map with at least one cell a side and for an outer
    diameter that is not negative, [get_core_perimeter] returns a
    perimeter that is not negative, whatever contours are found.  On a
    map of six cells a side or fewer it returns 0: [get_length] is called
    with its default tolerance of 3 cells, which then leaves no point of
    any contour inside the radius it counts. *)
Theorem core_perimeter_small_map (self : Fmm2D.FMMGrainSegment2D)
  (normalize : R -> R) (get_regression_map : list (list R))
  (find_contours : list (list R) -> R -> list (list (R * R)))
  (web_distance : R) :
  (0 < Fmm2D.map_dim self)%nat -> 0 <= Fmm2D.outer_diameter self ->
  exists perimeter,
    Fmm2D.get_core_perimeter self normalize get_regression_map find_contours
      web_distance = Ok perimeter
    /\ 0 <= perimeter
    /\ ((Fmm2D.map_dim self <= 6)%nat -> perimeter = 0).
Proof.
  intros Hdim HD.
  assert (Hn : 0 < INR (Fmm2D.map_dim self)) by now apply lt_0_INR.
  unfold Fmm2D.get_core_perimeter.
  set (contours := Fmm2D.get_contours normalize get_regression_map find_contours
                     web_distance).
  set (part := fun contour : list (R * R) =>
         Fmm2D.outer_diameter self
         * (Geometric.get_length contour (Z.of_nat (Fmm2D.map_dim self))
              Geometric.default_tolerance
            / INR (Fmm2D.map_dim self))).
  rewrite (mapM_ok_map _ part)
    by (intros contour _; unfold Fmm2D.map_to_length;
        rewrite np_div_ok by lra; reflexivity).
  cbn [bind]. eexists. split; [reflexivity | ]. split.
  - apply sum_nonneg. intros v Hv. apply in_map_iff in Hv.
    destruct Hv as [contour [<- _]]. unfold part.
    apply Rmult_le_pos; [exact HD | ].
    apply Rmult_le_pos; [apply get_length_nonneg | ].
    apply Rlt_le, Rinv_0_lt_compat, Hn.
  - intros Hsmall. apply sum_zero. intros v Hv. apply in_map_iff in Hv.
    destruct Hv as [contour [<- _]]. unfold part.
    rewrite get_length_small_map; [unfold Rdiv; ring | ].
    unfold Geometric.default_tolerance. rewrite <- INR_IZR_INZ.
    apply le_INR in Hsmall. simpl in Hsmall. lra.
Qed.

Lemma core_perimeter_small_map_witness :
  exists perimeter,
    Fmm2D.get_core_perimeter corner_segment (fun x => x) flat_regression_map
      (fun _ _ => [[(0, 0); (1, 1)]]) 0 = Ok perimeter
    /\ 0 <= perimeter
    /\ ((Fmm2D.map_dim corner_segment <= 6)%nat -> perimeter = 0).
Proof.
  apply (core_perimeter_small_map corner_segment (fun x => x) flat_regression_map
           (fun _ _ => [[(0, 0); (1, 1)]]) 0).
  - simpl. lia.
  - simpl. lra.
Defined.

(** * Queries beyond the web thickness *)

(** ** The raster face-area lookup beyond its table *)

Lemma in_insert (p q : R * R) (points : list (R * R)) :
  In q (Scipy.insert p points) -> q = p \/ In q points.
Proof.
  induction points as [ | a rest IH]; cbn [Scipy.insert].
  - intros [<- | []]. now left.
  - destruct (Rle_dec (fst p) (fst a)).
    + intros [<- | H]; [now left | now right].
    + intros [<- | H]; [right; now left | ].
      destruct (IH H) as [-> | Hin]; [now left | right; now right].
Qed.

Lemma in_sorted_points (x y : list R) (q : R * R) :
  In q (Scipy.sorted_points x y) -> In (fst q) x.
Proof.
  unfold Scipy.sorted_points. revert y.
  induction x as [ | a x IH]; intros [ | b y]; cbn [combine fold_right];
    try (intros []).
  intros H. apply in_insert in H. destruct H as [-> | H]; [now left | ].
  right. exact (IH y H).
Qed.

Lemma in_last {A : Type} (l : list A) (d : A) : In (last l d) (d :: l).
Proof.
  revert d. induction l as [ | a l IH]; intros d; [now left | ].
  right. destruct l as [ | b l]; [now left | ].
  change (last (a :: b :: l) d) with (last (b :: l) d).
  rewrite (last_nth_pred (b :: l) d a) by discriminate.
  rewrite <- (last_nth_pred (b :: l) a a) by discriminate.
  exact (IH a).
Qed.

(** Beyond the largest abscissa the function [interp1d] returns raises. *)
Lemma interp1d_above_range (x y : list R) (f : R -> outcome R) (x_new : R) :
  Scipy.interp1d x y = Ok f ->
  (forall a, In a x -> a < x_new) ->
  f x_new = Raise ValueError.
Proof.
  unfold Scipy.interp1d. intros Hf Hx.
  destruct (Nat.eqb (List.length x) (List.length y)); [ | discriminate].
  destruct (Scipy.sorted_points x y) as [ | p rest] eqn:Hpoints; [discriminate | ].
  injection Hf as <-.
  destruct (Rlt_dec x_new (fst p)); [reflexivity | ].
  destruct (Rlt_dec (fst (last rest p)) x_new) as [_ | Hn]; [reflexivity | ].
  exfalso. apply Hn. apply Hx. apply (in_sorted_points x y).
  rewrite Hpoints. apply in_last.
Qed.

Lemma interp1d_outcomes (x y : list R) :
  (exists f, Scipy.interp1d x y = Ok f) \/ Scipy.interp1d x y = Raise ValueError.
Proof.
  unfold Scipy.interp1d.
  destruct (Nat.eqb (List.length x) (List.length y)); [ | now right].
  destruct (Scipy.sorted_points x y); [now right | left; eexists; reflexivity].
Qed.

(** The table of [get_face_area_interp_func]: its abscissae are the
    normalised web distances [i / map_dim]. *)
Lemma face_area_interp_func_steps (self : Fmm2D.FMMGrainSegment2D)
  (regression_map : list (list R)) (max_dist : R) :
  (0 < Fmm2D.map_dim self)%nat ->
  Np.amax regression_map = Ok max_dist ->
  exists face_area : list R,
    forall savgol_filter interp1d,
      Fmm2D.get_face_area_interp_func self regression_map savgol_filter interp1d
      = (smooth <- savgol_filter face_area 31%Z 5%Z ;;
         interp1d
           (map (fun i : nat => INR i / INR (Fmm2D.map_dim self))
                (seq 0 (Z.to_nat (py_int (max_dist * INR (Fmm2D.map_dim self)) + 2))))
           smooth).
Proof.
  intros Hdim Hamax.
  assert (Hn : 0 < INR (Fmm2D.map_dim self)) by now apply lt_0_INR.
  assert (Hn2 : 0 < INR (Fmm2D.map_dim self) ^ 2) by now apply pow_lt.
  eexists. intros savgol_filter interp1d.
  unfold Fmm2D.get_face_area_interp_func. rewrite Hamax. cbn [bind].
  rewrite (mapM_ok_map _ (fun i : nat => INR i / INR (Fmm2D.map_dim self)))
    by (intros i _; apply py_div_ok; lra).
  cbn [bind].
  rewrite (mapM_ok_map _
             (fun w => Fmm2D.outer_diameter self ^ 2
                       * (INR (Np.count_nonzero
                                 (Fmm2D.solid_cells regression_map w
                                    (map (map negb) (Fmm2D.get_mask self))))
                          / INR (Fmm2D.map_dim self) ^ 2)))
    by (intros w _; unfold Fmm2D.map_to_area; rewrite np_div_ok by lra;
        reflexivity).
  cbn [bind]. reflexivity.
Qed.

(** Every abscissa of the table is at most one cell beyond the largest
    distance of the regression map. *)
Lemma table_abscissa_bound (max_dist n : R) (i : nat) :
  0 < n -> 0 <= max_dist ->
  (i < Z.to_nat (py_int (max_dist * n) + 2))%nat ->
  INR i / n <= max_dist + 1 / n.
Proof.
  intros Hn Hm Hi.
  assert (Hx : 0 <= max_dist * n) by (apply Rmult_le_pos; lra).
  unfold py_int in Hi. destruct (Rle_dec 0 (max_dist * n)); [ | contradiction].
  destruct (base_Int_part (max_dist * n)) as [Hlo Hhi].
  assert (Hz : (Z.of_nat i <= Int_part (max_dist * n) + 1)%Z) by lia.
  apply IZR_le in Hz. rewrite <- INR_IZR_INZ, plus_IZR in Hz.
  replace (max_dist + 1 / n) with ((max_dist * n + 1) / n) by (field; lra).
  unfold Rdiv. apply Rmult_le_compat_r; [apply Rlt_le, Rinv_0_lt_compat, Hn | lra].
Qed.

(** C3.  The face-area lookup of a raster segment has no control for a web
    thickness that is over, as the docstring of [get_face_area] says.  On
    a [map_dim] x [map_dim] regression map with largest distance
    [max_dist >= 0], for a web distance whose normalised value lies more
    than one cell beyond [max_dist], [get_face_area] and [get_port_area]
    return no value, whatever the smoothing filter does: the
    interpolation table ends before, and the function [interp1d] built
    raises [ValueError] outside its table.  With a smoothing filter that
    returns or raises [ValueError], as the one of SciPy does, both raise
    [ValueError]. *)
Theorem raster_lookup_has_no_web_control (self : Fmm2D.FMMGrainSegment2D)
  (normalize : R -> R) (regression_map : list (list R))
  (savgol_filter : list R -> Z -> Z -> outcome (list R))
  (max_dist web_distance : R) :
  (0 < Fmm2D.map_dim self)%nat ->
  List.length regression_map = Fmm2D.map_dim self ->
  (forall row, In row regression_map -> List.length row = Fmm2D.map_dim self) ->
  Np.amax regression_map = Ok max_dist ->
  0 <= max_dist ->
  max_dist + 1 / INR (Fmm2D.map_dim self) < normalize web_distance ->
  (forall v,
     Fmm2D.get_face_area self normalize regression_map savgol_filter
       Scipy.interp1d web_distance <> Ok v)
  /\ (forall v,
        Fmm2D.get_port_area self normalize regression_map savgol_filter
          Scipy.interp1d web_distance <> Ok v)
  /\ ((forall l, (exists smooth, savgol_filter l 31%Z 5%Z = Ok smooth)
                 \/ savgol_filter l 31%Z 5%Z = Raise ValueError) ->
      Fmm2D.get_face_area self normalize regression_map savgol_filter
        Scipy.interp1d web_distance = Raise ValueError
      /\ Fmm2D.get_port_area self normalize regression_map savgol_filter
           Scipy.interp1d web_distance = Raise ValueError).
Proof.
  intros Hdim _ _ Hamax Hmax Hbeyond.
  assert (Hn : 0 < INR (Fmm2D.map_dim self)) by now apply lt_0_INR.
  destruct (face_area_interp_func_steps self regression_map max_dist Hdim Hamax)
    as [table Hsteps].
  set (ws := map (fun i : nat => INR i / INR (Fmm2D.map_dim self))
                 (seq 0 (Z.to_nat (py_int (max_dist * INR (Fmm2D.map_dim self))
                                   + 2)))) in *.
  assert (Hws : forall a, In a ws -> a < normalize web_distance).
  { intros a Ha. apply in_map_iff in Ha. destruct Ha as [i [<- Hi]].
    apply in_seq in Hi.
    pose proof (table_abscissa_bound max_dist (INR (Fmm2D.map_dim self)) i Hn Hmax)
      as Hbound.
    assert (INR i / INR (Fmm2D.map_dim self)
            <= max_dist + 1 / INR (Fmm2D.map_dim self)) by (apply Hbound; lia).
    lra. }
  assert (Hlookup : forall smooth,
            (f <- Scipy.interp1d ws smooth ;; f (normalize web_distance))
            = Raise ValueError).
  { intros smooth. destruct (interp1d_outcomes ws smooth) as [[f Hf] | Hf];
      rewrite Hf; cbn [bind]; [ | reflexivity].
    exact (interp1d_above_range ws smooth f _ Hf Hws). }
  assert (Hface : Fmm2D.get_face_area self normalize regression_map savgol_filter
                    Scipy.interp1d web_distance
                  = (smooth <- savgol_filter table 31%Z 5%Z ;; Raise ValueError)).
  { unfold Fmm2D.get_face_area. rewrite Hsteps.
    destruct (savgol_filter table 31%Z 5%Z) as [smooth | e | ]; cbn [bind];
      [apply Hlookup | reflexivity | reflexivity]. }
  assert (Hport : Fmm2D.get_port_area self normalize regression_map savgol_filter
                    Scipy.interp1d web_distance
                  = (smooth <- savgol_filter table 31%Z 5%Z ;; Raise ValueError)).
  { unfold Fmm2D.get_port_area. rewrite Hface.
    destruct (savgol_filter table 31%Z 5%Z); reflexivity. }
  rewrite Hface, Hport.
  split; [ | split].
  - intros v. destruct (savgol_filter table 31%Z 5%Z); discriminate.
  - intros v. destruct (savgol_filter table 31%Z 5%Z); discriminate.
  - intros Hfilter. destruct (Hfilter table) as [[smooth Hs] | Hs]; rewrite Hs;
      split; reflexivity.
Qed.

Lemma raster_lookup_has_no_web_control_witness :
  Fmm2D.get_face_area corner_segment (fun v => v) flat_regression_map
    window_filter Scipy.interp1d 2 = Raise ValueError
  /\ Fmm2D.get_port_area corner_segment (fun v => v) flat_regression_map
       window_filter Scipy.interp1d 2 = Raise ValueError.
Proof.
  apply (raster_lookup_has_no_web_control corner_segment (fun v => v)
           flat_regression_map window_filter 0 2).
  - simpl. lia.
  - reflexivity.
  - intros row [<- | [<- | []]]; reflexivity.
  - unfold Np.amax, flat_regression_map. cbn [concat app fold_left].
    f_equal. replace (Rmax 0 0) with 0 by (symmetry; apply Rmax_left; lra).
    replace (Rmax 0 0) with 0 by (symmetry; apply Rmax_left; lra).
    apply Rmax_left. lra.
  - lra.
  - simpl. lra.
  - intros l. unfold window_filter.
    destruct (Z.of_nat (List.length l) <? 31)%Z; [now right | left; eexists; reflexivity].
Defined.
